(** * deno_mysql: the connection engine of [src/connection.ts]

    A shallow embedding of the [Connection] class: its state machine,
    the handshake of [_connect], the per-read timer of [nextPacket], the
    version policy [lessThan57] and the result loop of [execute].

    The socket, the timer and the packet codecs live outside
    [connection.ts].  The socket and the timer are modelled by a script of
    outcomes kept in the [World]; the codecs of [src/packets] are the
    members of the class [Codecs]; the byte cursor is modelled from the
    specification. *)

From Stdlib Require Import String Ascii Strings.Byte List ZArith Bool Lia DecimalString.
Import ListNotations.

Local Open Scope string_scope.
Local Open Scope list_scope.
Local Open Scope Z_scope.

Set Implicit Arguments.

(** ** JavaScript strings

    [serverVersion] is the text of the handshake; the operators that
    [lessThan57] applies to it are the ones below. *)
Module JsString.

(** [a < b] on two strings: code units compared left to right, a proper
    prefix being the smaller one. *)
Definition lt (a b : string) : bool := String.ltb a b.

(** [s.includes(sub)] *)
Fixpoint includes (s sub : string) : bool :=
  if String.prefix sub s then true
  else match s with
       | EmptyString => false
       | String _ s' => includes s' sub
       end.

(** [s.split(sep)] for a separator of one character: the pieces between
    the separators, so one more piece than there are separators. *)
Fixpoint split (sep : ascii) (s : string) : list string :=
  match s with
  | EmptyString => [EmptyString]
  | String c s' =>
      if Ascii.eqb c sep then EmptyString :: split sep s'
      else match split sep s' with
           | piece :: pieces => String c piece :: pieces
           | [] => [String c EmptyString]
           end
  end.

(** [`${n}`] for an integer *)
Definition of_Z (n : Z) : string := NilZero.string_of_int (Z.to_int n).

(** [`${s}`] for a string that may be [undefined] *)
Definition of_opt (s : option string) : string :=
  match s with Some s => s | None => "undefined" end.

End JsString.

(** ** Errors and results of collaborators *)

(** What a [throw] carries.  The three named classes come from
    [constant/errors.ts]; [Error_] is [new Error(message)]; [Thrown] is any
    value raised by a collaborator (socket, parser, builder). *)
Inductive JsError : Type :=
| Error_ (message : string)
| ConnnectionError (message : string)
| ReadError (message : string)
| ResponseTimeoutError (message : string)
| Thrown (what : string).

(** A call that returns ([inr]) or throws ([inl]). *)
Definition Result (A : Type) : Type := (JsError + A)%type.

(** ** Byte cursor *)
Module BufferReader.

(** Modelled from the spec: [src/buffer.ts] is not among the sources; section
    4.1 describes a fixed buffer with an internal offset. *)
Record t : Type := { buffer : list byte; pos : nat }.

Definition of_bytes (bs : list byte) : t := {| buffer := bs; pos := 0 |}.

(** Modelled from the spec: [skip(n)] moves the offset. *)
Definition skip (n : nat) (r : t) : t :=
  {| buffer := buffer r; pos := (pos r + n)%nat |}.

(** Modelled from the spec: a read past the end fails with a decode error. *)
Definition readUint8 (r : t) : Result (Z * t) :=
  match nth_error (buffer r) (pos r) with
  | Some b => inr (Z.of_N (Byte.to_N b), skip 1 r)
  | None => inl (Thrown "decode error")
  end.

(** Modelled from the spec: fixed-width little-endian integer of [k] bytes. *)
Fixpoint readUints (k : nat) (r : t) : Result (Z * t) :=
  match k with
  | O => inr (0, r)
  | S k' =>
      match readUint8 r with
      | inl e => inl e
      | inr (lo, r1) =>
          match readUints k' r1 with
          | inl e => inl e
          | inr (hi, r2) => inr (lo + 256 * hi, r2)
          end
      end
  end.

(** Modelled from the spec: the length-encoded integer of section 4.1, a
    literal below 0xfb, 0xfc + 2 bytes, 0xfd + 3 bytes, 0xfe + 8 bytes, and
    0xfb alone read as 0.  The spec names no value for a leading 0xff; it is
    taken as a decode error. *)
Definition readEncodedLen (r : t) : Result (Z * t) :=
  match readUint8 r with
  | inl e => inl e
  | inr (first, r1) =>
      if first <? 251 then inr (first, r1)
      else if first =? 252 then readUints 2 r1
      else if first =? 253 then readUints 3 r1
      else if first =? 254 then readUints 8 r1
      else if first =? 251 then inr (0, r1)
      else inl (Thrown "decode error")
  end.

End BufferReader.

(** ** Packets *)

(** The [type] tag of a received packet ([packets/packet.ts]). *)
Inductive PacketType : Type := OK | ERR | EOF | RESULT.

Definition PacketType_eqb (a b : PacketType) : bool :=
  match a, b with
  | OK, OK | ERR, ERR | EOF, EOF | RESULT, RESULT => true
  | _, _ => false
  end.

(** A [ReceivePacket] as [connection.ts] uses it: the tag and the cursor over
    the payload. *)
Record ReceivePacket : Type := { type : PacketType; body : BufferReader.t }.

(** Modelled from the spec: the framer of [packets/packet.ts] is not among the
    sources; section 4.2 classifies a payload by its leading byte, 0x00 as OK,
    0xff as ERR, 0xfe with fewer than 9 bytes as EOF, anything else as
    RESULT. *)
Definition classify (payload : list byte) : PacketType :=
  match payload with
  | x00 :: _ => OK
  | xff :: _ => ERR
  | xfe :: _ => if (List.length payload <? 9)%nat then EOF else RESULT
  | _ => RESULT
  end.

Definition packet_of (payload : list byte) : ReceivePacket :=
  {| type := classify payload; body := BufferReader.of_bytes payload |}.

(** Modelled from the spec: the record of section 3 for the server's first
    packet ([packets/parsers/handshake.ts] is not among the sources);
    [_connect] reads [serverVersion] and [serverCapabilities]. *)
Module HandshakePacket.

Record t : Type := {
  protocolVersion : Z;
  serverVersion : string;
  connectionId : Z;
  authSeed : list byte;
  serverCapabilities : Z;
  charset : Z
}.

End HandshakePacket.

(** The [{code, message}] that [parseError] returns. *)
Record ErrorPacket : Type := { code : Z; message : string }.

(** The second argument of [buildAuth]. *)
Record AuthParams : Type := {
  auth_username : string;
  auth_password : option string;
  auth_db : option string
}.

(** ** The connection object *)

Inductive ConnectionState : Type := CONNECTING | CONNECTED | CLOSING | CLOSED.

Definition ConnectionState_eqb (a b : ConnectionState) : bool :=
  match a, b with
  | CONNECTING, CONNECTING | CONNECTED, CONNECTED
  | CLOSING, CLOSING | CLOSED, CLOSED => true
  | _, _ => false
  end.

(** The fields of [ClientConfig] that [connection.ts] reads; every one may be
    [undefined]. *)
Record ClientConfig : Type := {
  hostname : option string;
  port : option Z;
  username : option string;
  password : option string;
  db : option string;
  charset : option string;
  timeout : option Z
}.

(** A [Deno.Conn], named by its resource id. *)
Definition Conn : Type := nat.

Record Connection : Type := {
  state : ConnectionState;
  capabilities : Z;
  serverVersion : string;
  conn : option Conn;
  _timedOut : bool;
  config : ClientConfig
}.

(** [new Connection(config)] *)
Definition new_Connection (cfg : ClientConfig) : Connection :=
  {| state := CONNECTING; capabilities := 0; serverVersion := EmptyString;
     conn := None; _timedOut := false; config := cfg |}.

(** [lessThan57()]: reads [this.serverVersion] only. *)
Definition lessThan57 (this : Connection) : bool :=
  let version := serverVersion this in
  if negb (JsString.includes version "MariaDB") then JsString.lt version "5.7.0"
  else
    let segments := JsString.split "-"%char version in
    match nth_error segments 1 with
    | Some seg1 =>
        if String.eqb seg1 "MariaDB" then
          match nth_error segments 0 with
          | Some seg0 => JsString.lt seg0 "5.7.0"
          | None => false
          end
        else false
    | None => false
    end.

(** ** The world around the connection

    [connection.ts] talks to three things it does not own: the socket
    ([Deno.connect], [ReceivePacket.parse], [SendPacket.send],
    [Deno.Conn.close]), the timer ([setTimeout], [clearTimeout]) and the
    logger.  What they answer is scripted in the [World]; what the
    connection asks of them is recorded in [trace], oldest first.

    The methods are suspended at their awaits.  What can run meanwhile is
    scripted at the reads, the awaits that [close()] is there to cancel: the
    timer callback, or a [close()] of the caller.  The dial and the sends
    complete, or fail, undisturbed. *)

(** What one [await new ReceivePacket().parse(conn)] does. *)
Inductive ReadOutcome : Type :=
| Resolves (packet : option ReceivePacket) (* a packet, or [null] at end of stream *)
| Rejects (error : JsError)                (* the read fails *)
| TimerFires                               (* the armed timer runs first *)
| CallerCloses.                            (* the caller's [close()] runs first *)

Inductive Event : Type :=
| EvInfo (msg : string)
| EvError (msg : string)
| EvState (s : ConnectionState)
| EvConnect (host : option string) (tcp_port : Z)
| EvRead (c : Conn)
| EvSend (c : Conn) (data : list byte) (seq : Z)
| EvClose (c : Conn)
| EvSetTimeout (ms : Z)
| EvClearTimeout
| EvTimerFired.

(** The assignments to [this.state], oldest first. *)
Fixpoint state_writes (t : list Event) : list ConnectionState :=
  match t with
  | [] => []
  | EvState s :: t' => s :: state_writes t'
  | _ :: t' => state_writes t'
  end.

(** How often the timer callback has run. *)
Fixpoint timer_firings (t : list Event) : nat :=
  match t with
  | [] => O
  | EvTimerFired :: t' => S (timer_firings t')
  | _ :: t' => timer_firings t'
  end.

Record World : Type := {
  this : Connection;
  reads : list ReadOutcome;         (* outcomes of the reads to come *)
  sends : list (option JsError);    (* outcomes of the sends to come *)
  dials : list (option JsError);    (* outcomes of the [Deno.connect] to come *)
  open_rids : list Conn;            (* the sockets that are open *)
  next_rid : Conn;
  trace : list Event
}.

Definition with_this (c : Connection) (w : World) : World :=
  {| this := c; reads := reads w; sends := sends w; dials := dials w;
     open_rids := open_rids w; next_rid := next_rid w; trace := trace w |}.

Definition with_reads (rs : list ReadOutcome) (w : World) : World :=
  {| this := this w; reads := rs; sends := sends w; dials := dials w;
     open_rids := open_rids w; next_rid := next_rid w; trace := trace w |}.

Definition with_sends (ss : list (option JsError)) (w : World) : World :=
  {| this := this w; reads := reads w; sends := ss; dials := dials w;
     open_rids := open_rids w; next_rid := next_rid w; trace := trace w |}.

Definition with_dials (ds : list (option JsError)) (w : World) : World :=
  {| this := this w; reads := reads w; sends := sends w; dials := ds;
     open_rids := open_rids w; next_rid := next_rid w; trace := trace w |}.

Definition with_open_rids (os : list Conn) (w : World) : World :=
  {| this := this w; reads := reads w; sends := sends w; dials := dials w;
     open_rids := os; next_rid := next_rid w; trace := trace w |}.

Definition with_next_rid (n : Conn) (w : World) : World :=
  {| this := this w; reads := reads w; sends := sends w; dials := dials w;
     open_rids := open_rids w; next_rid := n; trace := trace w |}.

Definition record (e : Event) (w : World) : World :=
  {| this := this w; reads := reads w; sends := sends w; dials := dials w;
     open_rids := open_rids w; next_rid := next_rid w;
     trace := trace w ++ [e] |}.

Definition set_state (s : ConnectionState) (c : Connection) : Connection :=
  {| state := s; capabilities := capabilities c;
     serverVersion := serverVersion c; conn := conn c;
     _timedOut := _timedOut c; config := config c |}.

Definition set_capabilities (n : Z) (c : Connection) : Connection :=
  {| state := state c; capabilities := n;
     serverVersion := serverVersion c; conn := conn c;
     _timedOut := _timedOut c; config := config c |}.

Definition set_serverVersion (v : string) (c : Connection) : Connection :=
  {| state := state c; capabilities := capabilities c;
     serverVersion := v; conn := conn c;
     _timedOut := _timedOut c; config := config c |}.

Definition set_conn (s : option Conn) (c : Connection) : Connection :=
  {| state := state c; capabilities := capabilities c;
     serverVersion := serverVersion c; conn := s;
     _timedOut := _timedOut c; config := config c |}.

Definition set_timedOut (b : bool) (c : Connection) : Connection :=
  {| state := state c; capabilities := capabilities c;
     serverVersion := serverVersion c; conn := conn c;
     _timedOut := b; config := config c |}.

(** ** Computations

    A method runs from a world to a completion and a world.  [OutOfFuel] is
    not a JavaScript completion: it marks a loop of the model that was given
    too little fuel, and no handler catches it. *)
Inductive Completion (A : Type) : Type :=
| Normal (a : A)
| Throw (e : JsError)
| OutOfFuel.

Arguments Normal {A} a.
Arguments Throw {A} e.
Arguments OutOfFuel {A}.

Definition M (A : Type) : Type := World -> Completion A * World.

Definition ret {A} (a : A) : M A := fun w => (Normal a, w).

Definition bind {A B} (m : M A) (k : A -> M B) : M B :=
  fun w =>
    match m w with
    | (Normal a, w') => k a w'
    | (Throw e, w') => (Throw e, w')
    | (OutOfFuel, w') => (OutOfFuel, w')
    end.

Definition throw {A} (e : JsError) : M A := fun w => (Throw e, w).

(** [try { m } catch (error) { h error }] *)
Definition try_catch {A} (m : M A) (h : JsError -> M A) : M A :=
  fun w =>
    match m w with
    | (Throw e, w') => h e w'
    | done => done
    end.

(** A call of a collaborator that has no effect on the world. *)
Definition lift {A} (r : Result A) : M A :=
  match r with
  | inr a => ret a
  | inl e => throw e
  end.

(** Reading a field of [this]. *)
Definition gets {A} (f : Connection -> A) : M A :=
  fun w => (Normal (f (this w)), w).

(** Writing a field of [this] other than [state]. *)
Definition assign (f : Connection -> Connection) : M unit :=
  fun w => (Normal tt, with_this (f (this w)) w).

(** [this.state = s] *)
Definition assign_state (s : ConnectionState) : M unit :=
  fun w => (Normal tt, record (EvState s) (with_this (set_state s (this w)) w)).

Declare Scope js_scope.
Delimit Scope js_scope with js.
Notation "x <- m ;; k" := (bind m (fun x => k))
  (at level 61, m at next level, right associativity) : js_scope.
Notation "' pat <- m ;; k" := (bind m (fun x => match x with pat => k end))
  (at level 61, pat pattern, m at next level, right associativity) : js_scope.
Notation "m ;; k" := (bind m (fun _ => k))
  (at level 61, right associativity) : js_scope.
Local Open Scope js_scope.

(** *** The logger *)
Definition log_info (msg : string) : M unit :=
  fun w => (Normal tt, record (EvInfo msg) w).

Definition log_error (msg : string) : M unit :=
  fun w => (Normal tt, record (EvError msg) w).

(** *** The socket *)

(** [Deno.connect({hostname, port, transport: "tcp"})]: a fresh open socket,
    or the error the script holds.  With no outcome scripted the dial
    succeeds. *)
Definition Deno_connect (host : option string) (tcp_port : Z) : M Conn :=
  fun w =>
    let w1 := record (EvConnect host tcp_port) w in
    let opened rest :=
      (Normal (next_rid w1),
       with_next_rid (S (next_rid w1))
         (with_open_rids (next_rid w1 :: open_rids w1) (with_dials rest w1))) in
    match dials w1 with
    | Some e :: rest => (Throw e, with_dials rest w1)
    | None :: rest => opened rest
    | [] => opened []
    end.

(** What [Deno.Conn.close()] throws on a socket that is not open. *)
Definition BadResource : JsError := Thrown "BadResource".

(** [conn.close()]: closes an open socket; on a socket that has been closed
    already it throws [BadResource]. *)
Definition Conn_close (c : Conn) : M unit :=
  fun w =>
    let w1 := record (EvClose c) w in
    if in_dec Nat.eq_dec c (open_rids w)
    then (Normal tt, with_open_rids (List.remove Nat.eq_dec c (open_rids w)) w1)
    else (Throw BadResource, w1).

(** [new SendPacket(data, seq).send(conn)].  With no outcome scripted the
    send succeeds; a [conn] that is [undefined] cannot be written to. *)
Definition SendPacket_send (data : list byte) (seq : Z) (c : option Conn) : M unit :=
  match c with
  | None => throw (Thrown "TypeError")
  | Some c =>
      fun w =>
        let w1 := record (EvSend c data seq) w in
        match sends w1 with
        | Some e :: rest => (Throw e, with_sends rest w1)
        | None :: rest => (Normal tt, with_sends rest w1)
        | [] => (Normal tt, w1)
        end
  end.

(** *** The timer *)

(** [setTimeout(callback, ms)]: the handle stands for the pending callback. *)
Definition setTimeout (callback : M unit) (ms : Z) : M (M unit) :=
  fun w => (Normal callback, record (EvSetTimeout ms) w).

Definition clearTimeout (timer : M unit) : M unit :=
  fun w => (Normal tt, record EvClearTimeout w).

(** [close()].  It is called by the user, by the handlers of the other
    methods and by the timer callback; when [conn.close()] throws, the
    second assignment is not reached. *)
Definition close : M unit :=
  log_info "close connection" ;;
  assign_state CLOSING ;;
  c <- gets conn ;;
  match c with
  | Some c => Conn_close c
  | None => ret tt
  end ;;
  assign_state CLOSED.

(** Something else runs on the connection while a read is pending, and the
    read is aborted.  How that something completes is its caller's concern,
    not the read's. *)
Definition interrupted_by (other : M unit) : M (option ReceivePacket) :=
  fun w =>
    match other w with
    | (_, w') => (Throw (Thrown "read aborted"), w')
    end.

(** The timer goes off while a read is pending: its callback runs, and the
    read is aborted. *)
Definition fire (timer : M unit) : M (option ReceivePacket) :=
  fun w => interrupted_by timer (record EvTimerFired w).

(** [await new ReceivePacket().parse(conn)] with [timer] armed.  When the
    script holds no further outcome nothing ever arrives, and the timer goes
    off. *)
Definition ReceivePacket_parse (timer : M unit) (c : Conn) : M (option ReceivePacket) :=
  fun w =>
    let w1 := record (EvRead c) w in
    match reads w1 with
    | Resolves packet :: rest => (Normal packet, with_reads rest w1)
    | Rejects error :: rest => (Throw error, with_reads rest w1)
    | TimerFires :: rest => fire timer (with_reads rest w1)
    | CallerCloses :: rest => interrupted_by close (with_reads rest w1)
    | [] => fire timer w1
    end.

(** The fuel that suffices for a loop reading one packet per turn. *)
Definition pending_reads : M nat :=
  fun w => (Normal (S (List.length (reads w))), w).

(** ** The codecs

    [connection.ts] imports its parsers and builders from [src/packets];
    they are not among the sources and stay abstract.  Each one returns or
    throws. *)
Class Codecs : Type := {
  FieldInfo : Type;
  Row : Type;
  Param : Type;
  parseHandshake : BufferReader.t -> Result HandshakePacket.t;
  buildAuth : HandshakePacket.t -> AuthParams -> Result (list byte);
  buildQuery : string -> option (list Param) -> Result (list byte);
  parseError : BufferReader.t -> Connection -> Result ErrorPacket;
  parseField : BufferReader.t -> Result FieldInfo;
  parseRow : BufferReader.t -> list FieldInfo -> Result Row
}.

(** ** The methods of [Connection] *)
Section Methods.

Context {codecs : Codecs}.

(** [ExecuteResult]: four optional members. *)
Record ExecuteResult : Type := {
  affectedRows : option Z;
  lastInsertId : option Z;
  fields : option (list FieldInfo);
  rows : option (list Row)
}.

(** [_timeoutCallback] *)
Definition _timeoutCallback : M unit :=
  log_info "connection read timed out" ;;
  assign (set_timedOut true) ;;
  close.

(** [this.config.timeout || 30000] *)
Definition timeout_or_default (cfg : ClientConfig) : Z :=
  match timeout cfg with
  | Some ms => if ms =? 0 then 30000 else ms
  | None => 30000
  end.

(** [nextPacket()] *)
Definition nextPacket : M ReceivePacket :=
  c <- gets conn ;;
  match c with
  | None => throw (ConnnectionError "Not connected")
  | Some c =>
      cfg <- gets config ;;
      timeoutTimer <- setTimeout _timeoutCallback (timeout_or_default cfg) ;;
      packet <-
        try_catch (ReceivePacket_parse timeoutTimer c)
          (fun error =>
             timedOut <- gets _timedOut ;;
             if timedOut : bool
             then throw (ResponseTimeoutError "Connection read timed out")
             else clearTimeout timeoutTimer ;; close ;; throw error) ;;
      clearTimeout timeoutTimer ;;
      match packet with
      | None => close ;; throw (ReadError "Connection closed unexpectedly")
      | Some packet =>
          if PacketType_eqb (type packet) ERR
          then
            let body1 := BufferReader.skip 1 (body packet) in
            self <- gets (fun self => self) ;;
            error <- lift (parseError body1 self) ;;
            throw (Error_ (message error))
          else ret packet
      end
  end.

(** The loop [while (fieldCount--) { ... }] of [execute]: a turn is taken as
    long as [fieldCount] is not zero.  The test [if (packet)] in its body
    always passes, [nextPacket] returning a packet or throwing. *)
Fixpoint read_fields (fuel : nat) (fieldCount : Z) (acc : list FieldInfo)
  : M (list FieldInfo) :=
  match fuel with
  | O => fun w => (OutOfFuel, w)
  | S fuel' =>
      if fieldCount =? 0 then ret acc
      else
        packet <- nextPacket ;;
        field <- lift (parseField (body packet)) ;;
        read_fields fuel' (fieldCount - 1) (acc ++ [field])
  end.

(** The loop [while (true) { ... }] of [execute]. *)
Fixpoint read_rows (fuel : nat) (fieldList : list FieldInfo) (acc : list Row)
  : M (list Row) :=
  match fuel with
  | O => fun w => (OutOfFuel, w)
  | S fuel' =>
      receive <- nextPacket ;;
      if PacketType_eqb (type receive) EOF then ret acc
      else
        row <- lift (parseRow (body receive) fieldList) ;;
        read_rows fuel' fieldList (acc ++ [row])
  end.

(** [execute(sql, params)] *)
Definition execute (sql : string) (params : option (list Param)) : M ExecuteResult :=
  st <- gets state ;;
  if negb (ConnectionState_eqb st CONNECTED) then
    if ConnectionState_eqb st CLOSED
    then throw (ConnnectionError "Connection is closed")
    else throw (ConnnectionError "Must be connected first")
  else
    data <- lift (buildQuery sql params) ;;
    try_catch
      (c <- gets conn ;; SendPacket_send data 0 c)
      (fun error =>
         st <- gets state ;;
         (if negb (ConnectionState_eqb st CLOSED) then close else ret tt) ;;
         throw error) ;;
    receive <- nextPacket ;;
    if PacketType_eqb (type receive) OK then
      let body1 := BufferReader.skip 1 (body receive) in
      '(affected, body2) <- lift (BufferReader.readEncodedLen body1) ;;
      '(inserted, _) <- lift (BufferReader.readEncodedLen body2) ;;
      ret {| affectedRows := Some affected; lastInsertId := Some inserted;
             fields := None; rows := None |}
    else
      '(fieldCount, _) <- lift (BufferReader.readEncodedLen (body receive)) ;;
      fuel <- pending_reads ;;
      fieldList <- read_fields fuel fieldCount [] ;;
      legacy <- gets lessThan57 ;;
      (if legacy : bool then _ <- nextPacket ;; ret tt else ret tt) ;;
      fuel <- pending_reads ;;
      rowList <- read_rows fuel fieldList [] ;;
      ret {| affectedRows := None; lastInsertId := None;
             fields := Some fieldList; rows := Some rowList |}.

(** [query(sql, params)]: the rows when the result has them. *)
Definition query (sql : string) (params : option (list Param))
  : M (list Row + ExecuteResult) :=
  result <- execute sql params ;;
  match rows result with
  | Some rowList => ret (inl rowList)
  | None => ret (inr result)
  end.

(** A string that is neither [undefined] nor empty. *)
Definition truthy (s : option string) : bool :=
  match s with
  | Some s => negb (String.eqb s EmptyString)
  | None => false
  end.

(** The second argument of [buildAuth] in [_connect]:
    the user name of the config or the empty string, its password and its
    database. *)
Definition auth_params (cfg : ClientConfig) : AuthParams :=
  {| auth_username := match username cfg with Some u => u | None => EmptyString end;
     auth_password := password cfg;
     auth_db := db cfg |}.

(** [_connect()] *)
Definition _connect : M unit :=
  cfg <- gets config ;;
  let host := hostname cfg in
  let tcp_port := match port cfg with Some p => p | None => 3306 end in
  log_info ("connecting " ++ JsString.of_opt host ++ ":" ++ JsString.of_Z tcp_port)%string ;;
  c <- Deno_connect host tcp_port ;;
  assign (set_conn (Some c)) ;;
  try_catch
    (receive <- nextPacket ;;
     handshakePacket <- lift (parseHandshake (body receive)) ;;
     data <- lift (buildAuth handshakePacket (auth_params cfg)) ;;
     c <- gets conn ;;
     SendPacket_send data 1 c ;;
     assign_state CONNECTING ;;
     assign (set_serverVersion (HandshakePacket.serverVersion handshakePacket)) ;;
     assign (set_capabilities (HandshakePacket.serverCapabilities handshakePacket)) ;;
     receive <- nextPacket ;;
     '(header, body1) <- lift (BufferReader.readUint8 (body receive)) ;;
     (if header =? 255 then
        self <- gets (fun self => self) ;;
        error <- lift (parseError body1 self) ;;
        log_error ("connect error(" ++ JsString.of_Z (code error) ++ "): "
                   ++ message error)%string ;;
        close ;;
        throw (Error_ (message error))
      else
        log_info ("connected to " ++ JsString.of_opt (hostname cfg))%string ;;
        assign_state CONNECTED) ;;
     if truthy (charset cfg) then
       _ <- execute ("SET NAMES " ++ JsString.of_opt (charset cfg))%string None ;;
       ret tt
     else ret tt)
    (fun error =>
       st <- gets state ;;
       (if negb (ConnectionState_eqb st CLOSED) then close else ret tt) ;;
       throw error).

(** [connect()] *)
Definition connect : M unit := _connect.

End Methods.

(** ** Stand-ins for the codecs, and scripted servers

    The codecs are not among the sources.  The ones below follow the wire
    formats of section 6 of the specification far enough to run the methods
    on concrete packets. *)
Module Sample.

(** [readEncodedString(n)] of section 4.1: [n] bytes as text. *)
Definition readEncodedString (n : nat) (r : BufferReader.t)
  : Result (string * BufferReader.t) :=
  let got := firstn n (skipn (BufferReader.pos r) (BufferReader.buffer r)) in
  if (List.length got =? n)%nat
  then inr (string_of_list_byte got, BufferReader.skip n r)
  else inl (Thrown "decode error").

(** A length-encoded integer followed by that many bytes of text. *)
Definition readLenCodeString (r : BufferReader.t) : Result (string * BufferReader.t) :=
  match BufferReader.readEncodedLen r with
  | inl e => inl e
  | inr (n, r1) => readEncodedString (Z.to_nat n) r1
  end.

(** The text up to the next zero byte. *)
Fixpoint until_nul (bs : list byte) : list byte :=
  match bs with
  | [] => []
  | x00 :: _ => []
  | b :: bs' => b :: until_nul bs'
  end.

(** Handshake: the protocol version byte, then the server version up to a
    zero byte, then two bytes of capabilities. *)
Definition parseHandshake (r : BufferReader.t) : Result HandshakePacket.t :=
  match BufferReader.readUint8 r with
  | inl e => inl e
  | inr (proto, r1) =>
      let version :=
        until_nul (skipn (BufferReader.pos r1) (BufferReader.buffer r1)) in
      match BufferReader.readUints 2
              (BufferReader.skip (S (List.length version)) r1) with
      | inl e => inl e
      | inr (caps, _) =>
          inr {| HandshakePacket.protocolVersion := proto;
                 HandshakePacket.serverVersion := string_of_list_byte version;
                 HandshakePacket.connectionId := 0;
                 HandshakePacket.authSeed := [];
                 HandshakePacket.serverCapabilities := caps;
                 HandshakePacket.charset := 0 |}
      end
  end.

(** Handshake response: the user name and a closing zero byte. *)
Definition buildAuth (_ : HandshakePacket.t) (a : AuthParams) : Result (list byte) :=
  inr (list_byte_of_string (auth_username a) ++ [x00]).

(** Query command: the command code 0x03 and the SQL text. *)
Definition buildQuery (sql : string) (_ : option (list string)) : Result (list byte) :=
  inr (x03 :: list_byte_of_string sql).

(** ERR payload past its marker: a 2-byte code, then the message. *)
Definition parseError (r : BufferReader.t) (_ : Connection) : Result ErrorPacket :=
  match BufferReader.readUints 2 r with
  | inl e => inl e
  | inr (c, r1) =>
      inr {| code := c;
             message := string_of_list_byte
                          (skipn (BufferReader.pos r1) (BufferReader.buffer r1)) |}
  end.

(** Field definition: the column name. *)
Definition parseField (r : BufferReader.t) : Result string :=
  match readLenCodeString r with
  | inl e => inl e
  | inr (name, _) => inr name
  end.

(** Text row: one length-coded string for every field. *)
Fixpoint parseCells (fieldList : list string) (r : BufferReader.t) : Result (list string) :=
  match fieldList with
  | [] => inr []
  | _ :: fieldList' =>
      match readLenCodeString r with
      | inl e => inl e
      | inr (cell, r1) =>
          match parseCells fieldList' r1 with
          | inl e => inl e
          | inr cells => inr (cell :: cells)
          end
      end
  end.

Definition parseRow (r : BufferReader.t) (fieldList : list string) : Result (list string) :=
  parseCells fieldList r.

(** A field is its name, a row its cells, a parameter its text. *)
Definition codecs : Codecs :=
  @Build_Codecs string (list string) string
    parseHandshake buildAuth buildQuery parseError parseField parseRow.

#[export] Existing Instance codecs.

Definition cfg : ClientConfig :=
  {| hostname := Some "127.0.0.1"; port := None; username := Some "root";
     password := None; db := None; charset := None; timeout := None |}.

(** A world with the given connection and reads to come, nothing else
    scripted, socket 0 open. *)
Definition world (c : Connection) (rs : list ReadOutcome) : World :=
  {| this := c; reads := rs; sends := []; dials := [];
     open_rids := [0%nat]; next_rid := 1%nat; trace := [] |}.

(** A connection that has completed its handshake with a server of the
    given version, on socket 0. *)
Definition connected (version : string) : Connection :=
  {| state := CONNECTED; capabilities := 0; serverVersion := version;
     conn := Some 0%nat; _timedOut := false; config := cfg |}.

(** The world of the connection to a 5.7.30 server after [close()], with
    reads to come. *)
Definition after_close (rs : list ReadOutcome) : World :=
  with_reads rs (snd (close (world (connected "5.7.30") []))).

Definition arrives (payload : list byte) : ReadOutcome :=
  Resolves (Some (packet_of payload)).

(** A world with a connection just constructed: no socket yet. *)
Definition fresh (rs : list ReadOutcome) : World :=
  {| this := new_Connection cfg; reads := rs; sends := []; dials := [];
     open_rids := []; next_rid := 0%nat; trace := [] |}.

(** Payloads. *)
Definition ok_1_42 : list byte := [x00; x01; x2a].
Definition eof : list byte := [xfe; x00; x00; x02; x00].
Definition two_columns : list byte := [x02].
Definition field_a : list byte := [x01; x61].
Definition field_b : list byte := [x01; x62].
Definition row_1 : list byte := [x01; x31; x01; x78].
Definition row_2 : list byte := [x01; x32; x01; x79].
Definition handshake_5_7 : list byte :=
  [x0a; x35; x2e; x37; x2e; x33; x30; x00; xff; xf7].
Definition err_denied : list byte :=
  [xff; x15; x04; x64; x65; x6e; x69; x65; x64].

(** The response of a server from 5.7 on to [SELECT a, b FROM t], two rows. *)
Definition select_reply : list ReadOutcome :=
  [arrives two_columns; arrives field_a; arrives field_b;
   arrives row_1; arrives row_2; arrives eof].

(** The same from a server before 5.7: an EOF packet closes the field list. *)
Definition select_reply_legacy : list ReadOutcome :=
  [arrives two_columns; arrives field_a; arrives field_b; arrives eof;
   arrives row_1; arrives row_2; arrives eof].

End Sample.

(** ** Vocabulary of the statements *)

(** *** Scripts *)

(** The error the next send is scripted to raise, if any. *)
Definition send_error (w : World) : option JsError :=
  match sends w with
  | outcome :: _ => outcome
  | [] => None
  end.

(** The error the next [Deno.connect] is scripted to raise, if any. *)
Definition dial_error (w : World) : option JsError :=
  match dials w with
  | outcome :: _ => outcome
  | [] => None
  end.

(** A packet arriving whole. *)
Definition arrive (p : ReceivePacket) : ReadOutcome := Resolves (Some p).

(** *** Worlds along a run *)

(** After a [Deno.connect] that went through: the new socket is open under
    the next resource id. *)
Definition dialed (host : option string) (tcp_port : Z) (w : World) : World :=
  with_next_rid (S (next_rid w))
    (with_open_rids (next_rid w :: open_rids w)
       (with_dials (List.tl (dials w)) (record (EvConnect host tcp_port) w))).

(** After a send on socket [c] that went through. *)
Definition sent (c : Conn) (data : list byte) (seq : Z) (w : World) : World :=
  with_sends (List.tl (sends w)) (record (EvSend c data seq) w).

(** While a read on socket [c] is under way: the timer armed, the read
    made. *)
Definition reading (c : Conn) (w : World) : World :=
  record (EvRead c)
    (record (EvSetTimeout (timeout_or_default (config (this w)))) w).

(** After a read on socket [c] that delivered a packet: the timer armed, the
    read made, the timer cleared. *)
Definition received (c : Conn) (rest : list ReadOutcome) (w : World) : World :=
  record EvClearTimeout (with_reads rest (reading c w)).

(** After a [close()] that went through. *)
Definition closed_world (w : World) : World :=
  {| this := set_state CLOSED (this w);
     reads := reads w; sends := sends w; dials := dials w;
     open_rids := match conn (this w) with
                  | Some c => List.remove Nat.eq_dec c (open_rids w)
                  | None => open_rids w
                  end;
     next_rid := next_rid w;
     trace := trace w
              ++ [EvInfo "close connection"; EvState CLOSING]
              ++ match conn (this w) with
                 | Some c => [EvClose c]
                 | None => []
                 end
              ++ [EvState CLOSED] |}.

(** The timer has gone off in [w] and its callback has raised the flag. *)
Definition flagged (w : World) : World :=
  with_this (set_timedOut true (this w))
    (record (EvInfo "connection read timed out") (record EvTimerFired w)).

(** After the timer callback has run in [w], its [close()] having gone
    through. *)
Definition timeout_world (w : World) : World :=
  closed_world (flagged w).

(** After a [close()] whose [conn.close()] threw: the state is left
    CLOSING. *)
Definition stuck_world (c : Conn) (w : World) : World :=
  {| this := set_state CLOSING (this w);
     reads := reads w; sends := sends w; dials := dials w;
     open_rids := open_rids w;
     next_rid := next_rid w;
     trace := trace w
              ++ [EvInfo "close connection"; EvState CLOSING; EvClose c] |}.

(** The socket that the connection holds, if it holds one, is open. *)
Definition socket_open (w : World) : Prop :=
  forall c, conn (this w) = Some c -> In c (open_rids w).

(** A script of reads into which no [close()] of the caller falls. *)
Definition undisturbed (rs : list ReadOutcome) : Prop :=
  ~ In CallerCloses rs.

(** The connection object of [_connect] between the auth response and the
    server's second reply, on socket [c]. *)
Definition handshaken (hs : HandshakePacket.t) (c : Conn) (self : Connection)
  : Connection :=
  set_capabilities (HandshakePacket.serverCapabilities hs)
    (set_serverVersion (HandshakePacket.serverVersion hs)
       (set_state CONNECTING (set_conn (Some c) self))).

(** [w'] is [w] after some reads: [rest] is still to come, and nothing but
    the script of reads and the trace has changed. *)
Definition reads_on (w : World) (rest : list ReadOutcome) (w' : World) : Prop :=
  this w' = this w /\ reads w' = rest /\ sends w' = sends w
  /\ dials w' = dials w /\ open_rids w' = open_rids w /\ next_rid w' = next_rid w.

(** *** Calls *)

(** [close()] called [n] times in a row. *)
Fixpoint close_times (n : nat) : M unit :=
  match n with
  | O => ret tt
  | S n' => close ;; close_times n'
  end.

(** The public surface of [Connection]: one call, its result dropped. *)
Section Calls.

Context {codecs : Codecs}.

Inductive Call : Type :=
| Connect
| Execute (sql : string) (params : option (list Param))
| Query (sql : string) (params : option (list Param))
| Close.

Definition perform (call : Call) : M unit :=
  match call with
  | Connect => connect
  | Execute sql params => _ <- execute sql params ;; ret tt
  | Query sql params => _ <- query sql params ;; ret tt
  | Close => close
  end.

End Calls.

(** *** Properties of computations *)

(** A computation that leaves [serverVersion] and [capabilities] alone. *)
Definition keeps_version {A} (m : M A) : Prop :=
  forall w r w', m w = (r, w') ->
    serverVersion (this w') = serverVersion (this w)
    /\ capabilities (this w') = capabilities (this w).

(** *** Traces *)

(** The packets handed to [SendPacket.send], oldest first: the socket, the
    payload, the sequence number. *)
Fixpoint sent_packets (t : list Event) : list (Conn * list byte * Z) :=
  match t with
  | [] => []
  | EvSend c data seq :: t' => (c, data, seq) :: sent_packets t'
  | _ :: t' => sent_packets t'
  end.

(** The timers armed and not yet cleared or gone off. *)
Fixpoint pending_timers (t : list Event) : Z :=
  match t with
  | [] => 0
  | EvSetTimeout _ :: t' => pending_timers t' + 1
  | EvClearTimeout :: t' => pending_timers t' - 1
  | EvTimerFired :: t' => pending_timers t' - 1
  | _ :: t' => pending_timers t'
  end.

(** An event that neither a timer nor a send leaves: log lines, state
    assignments, socket closes. *)
Definition silent (ev : Event) : Prop :=
  match ev with
  | EvInfo _ | EvError _ | EvState _ | EvClose _ => True
  | _ => False
  end.

(** *** Outcomes *)

(** A computation that returns under [G] and fails under [F]: [G] relates
    the world before to the world after, [F] the error thrown and the two
    worlds.  A loop of the model that stops for want of fuel throws
    nothing, and is held to [F] at every error. *)
Definition obeys (G : World -> World -> Prop)
    (F : JsError -> World -> World -> Prop) {A} (m : M A) : Prop :=
  forall w r w', m w = (r, w') ->
    match r with
    | Normal _ => G w w'
    | Throw e => F e w w'
    | OutOfFuel => forall e, F e w w'
    end.

(** The connection object and the sockets are as they were. *)
Definition untouched (w w' : World) : Prop :=
  this w' = this w /\ open_rids w' = open_rids w.

(** The connection has been closed: the state is CLOSED, [conn] still names
    the socket, and that socket is no longer open; no other socket has been
    opened or closed. *)
Definition shut (w w' : World) : Prop :=
  state (this w') = CLOSED
  /\ conn (this w') = conn (this w)
  /\ open_rids w'
     = match conn (this w) with
       | Some c => List.remove Nat.eq_dec c (open_rids w)
       | None => open_rids w
       end.

(** A computation whose loops are given fuel enough: it returns or throws. *)
Definition total {A} (m : M A) : Prop :=
  forall w, fst (m w) <> OutOfFuel.

(** What a query leaves behind: on a result nothing has changed; on an
    error nothing has changed or the connection has been closed. *)
Definition leaves_or_closes {A} (w : World) (r : Completion A) (w' : World) : Prop :=
  match r with
  | Normal _ => untouched w w'
  | Throw _ => untouched w w' \/ shut w w'
  | OutOfFuel => False
  end.

(** A world in which a query runs in order: the socket is open and no
    [close()] of the caller falls into its reads. *)
Definition in_order (w : World) : Prop :=
  socket_open w /\ undisturbed (reads w).

(** From a world in order, nothing is touched and the world stays in
    order. *)
Definition calm (w w' : World) : Prop :=
  in_order w -> untouched w w' /\ undisturbed (reads w').

(** From a world in order, nothing is touched or the connection is shut. *)
Definition calm_or_shut (w w' : World) : Prop :=
  in_order w -> untouched w w' \/ shut w w'.

(** The connection holds socket [c], open, and has not been closed. *)
Definition live (c : Conn) (w : World) : Prop :=
  conn (this w) = Some c /\ In c (open_rids w) /\ state (this w) <> CLOSED.

(** The connection holds socket [c], closed, in the state CLOSED. *)
Definition released (c : Conn) (w : World) : Prop :=
  conn (this w) = Some c /\ ~ In c (open_rids w) /\ state (this w) = CLOSED.

(** The connection holds socket [c], open, and no [close()] of the caller
    falls into the reads to come. *)
Definition held (c : Conn) (w : World) : Prop :=
  conn (this w) = Some c /\ In c (open_rids w) /\ undisturbed (reads w).

(** Between [w] and [w'] no socket has been opened or closed, and the state
    has become neither CLOSED nor CLOSING. *)
Definition steady (w w' : World) : Prop :=
  open_rids w' = open_rids w
  /\ (state (this w) <> CLOSED -> state (this w') <> CLOSED)
  /\ (state (this w) <> CLOSING -> state (this w') <> CLOSING).

(** Socket [c], when held before, is held after, steadily. *)
Definition keeps_socket (c : Conn) (w w' : World) : Prop :=
  held c w -> held c w' /\ steady w w'.

(** Socket [c], when held before, is still in [conn] and open, steadily, or
    has been released, no other socket being touched. *)
Definition keeps_or_releases (c : Conn) (w w' : World) : Prop :=
  held c w ->
  (conn (this w') = Some c /\ In c (open_rids w') /\ steady w w')
  \/ (released c w' /\ open_rids w' = List.remove Nat.eq_dec c (open_rids w)).

(** A connection that is CONNECTED holds a socket, and that socket is
    open. *)
Definition wired (w : World) : Prop :=
  state (this w) = CONNECTED ->
  exists c, conn (this w) = Some c /\ In c (open_rids w).

(** Whatever was closed, the state is CLOSED or CLOSING. *)
Definition untouched_or_closing (w w' : World) : Prop :=
  untouched w w' \/ state (this w') = CLOSED \/ state (this w') = CLOSING.

(** The socket of [conn] and the open sockets are as they were. *)
Definition same_sockets (w w' : World) : Prop :=
  conn (this w') = conn (this w) /\ open_rids w' = open_rids w.

(** The same, or the state is CLOSED or CLOSING. *)
Definition same_sockets_or_closing (w w' : World) : Prop :=
  same_sockets w w' \/ state (this w') = CLOSED \/ state (this w') = CLOSING.

(** The world in which [_connect] enters its [try] block: the socket dialed
    and stored in [conn]. *)
Definition dialed_in (w : World) : World :=
  let cfg := config (this w) in
  let tcp_port := match port cfg with Some p => p | None => 3306 end in
  let w1 :=
    dialed (hostname cfg) tcp_port
      (record (EvInfo ("connecting " ++ JsString.of_opt (hostname cfg) ++ ":"
                       ++ JsString.of_Z tcp_port)%string) w) in
  with_this (set_conn (Some (next_rid w)) (this w1)) w1.

(** With the flag [_timedOut] down before, no timer is left pending. *)
Definition settles (w w' : World) : Prop :=
  _timedOut (this w) = false ->
  pending_timers (trace w') = pending_timers (trace w).

(** The same with the flag still down after. *)
Definition settles_ready (w w' : World) : Prop :=
  _timedOut (this w) = false ->
  _timedOut (this w') = false
  /\ pending_timers (trace w') = pending_timers (trace w).

(** A failure that reports a timeout: the dedicated error, the state
    CLOSED, the flag up, and the socket of the connection not open. *)
Definition timed_out (e : JsError) (w' : World) : Prop :=
  e = ResponseTimeoutError "Connection read timed out"
  /\ state (this w') = CLOSED
  /\ _timedOut (this w') = true
  /\ exists c, conn (this w') = Some c /\ ~ In c (open_rids w').

(** With the socket open before, the timer has not gone off and the socket
    is still open. *)
Definition untimed (w w' : World) : Prop :=
  socket_open w ->
  socket_open w' /\ timer_firings (trace w') = timer_firings (trace w).

(** With the socket open before, the timer has not gone off, or the failure
    reports a timeout. *)
Definition untimed_or_timed_out (e : JsError) (w w' : World) : Prop :=
  socket_open w ->
  timer_firings (trace w') = timer_firings (trace w) \/ timed_out e w'.

(** A computation that, when it returns, leaves the state CONNECTED. *)
Definition returns_CONNECTED {A} (m : M A) : Prop :=
  forall w a w', m w = (Normal a, w') -> state (this w') = CONNECTED.

(** Nothing has been sent between [w] and [w']. *)
Definition sendless (w w' : World) : Prop :=
  sent_packets (trace w') = sent_packets (trace w).

(** *** Scripted faults

    Worlds and stand-ins on which the failures of the methods can be run. *)
Module Faulty.

(** A configuration that names a charset. *)
Definition cfg_utf8 : ClientConfig :=
  {| hostname := Some "127.0.0.1"; port := None; username := Some "root";
     password := None; db := None; charset := Some "utf8"; timeout := None |}.

(** A connection just constructed with that configuration. *)
Definition fresh_utf8 (rs : list ReadOutcome) : World :=
  {| this := new_Connection cfg_utf8; reads := rs; sends := []; dials := [];
     open_rids := []; next_rid := 0%nat; trace := [] |}.

(** The connected world whose next send fails. *)
Definition broken_pipe (rs : list ReadOutcome) : World :=
  with_sends [Some (Thrown "Broken pipe")]
    (Sample.world (Sample.connected "5.7.30") rs).

(** The fresh world whose dial fails. *)
Definition refused (rs : list ReadOutcome) : World :=
  with_dials [Some (Thrown "Connection refused")] (Sample.fresh rs).

(** A connection that is CONNECTED again after a read had timed out. *)
Definition reconnected : Connection :=
  set_timedOut true (Sample.connected "5.7.30").

(** A connection, CONNECTED on socket 0, configured to wait five seconds
    for a packet. *)
Definition connected_5s : Connection :=
  {| state := CONNECTED; capabilities := 0; serverVersion := "5.7.30";
     conn := Some 0%nat; _timedOut := false;
     config := {| hostname := Some "127.0.0.1"; port := None;
                  username := Some "root"; password := None; db := None;
                  charset := None; timeout := Some 5000 |} |}.

(** A row of two columns cut short after its first cell. *)
Definition short_row : list byte := [x01; x31].

(** A builder that refuses the empty statement. *)
Definition buildQuery (sql : string) (params : option (list string))
  : Result (list byte) :=
  if String.eqb sql EmptyString then inl (Thrown "Query was empty")
  else Sample.buildQuery sql params.

Definition codecs : Codecs :=
  @Build_Codecs string (list string) string
    Sample.parseHandshake Sample.buildAuth buildQuery Sample.parseError
    Sample.parseField Sample.parseRow.

End Faulty.

(** * Properties *)

(** ** The version policy *)

(** C3.  [lessThan57] orders version strings as text, character by character:
    it holds for "5.6.10" and not for "5.7.0"; for a MariaDB 5.x string
    ("5.5.64-MariaDB-" and any build information) the segment before the
    first "-" is compared, so it holds; for a MariaDB 10+ string
    ("5.5.5-10.4.10-MariaDB-" and any build information) it does not hold.
    The comparison is not numeric: it holds for "5.10.2" and for "10.0.0". *)
Theorem lessThan57_policy (c : Connection) :
  lessThan57 (set_serverVersion "5.6.10" c) = true
  /\ lessThan57 (set_serverVersion "5.7.0" c) = false
  /\ lessThan57 (set_serverVersion "5.5.64-MariaDB-1~trusty" c) = true
  /\ lessThan57 (set_serverVersion "5.5.5-10.4.10-MariaDB-1:10.4.10+maria~bionic" c) = false
  /\ (forall build,
        lessThan57 (set_serverVersion ("5.5.64-MariaDB-" ++ build) c) = true)
  /\ (forall build,
        lessThan57 (set_serverVersion ("5.5.5-10.4.10-MariaDB-" ++ build) c) = false)
  /\ lessThan57 (set_serverVersion "5.10.2" c) = true
  /\ lessThan57 (set_serverVersion "10.0.0" c) = true.
Proof.
  repeat split; try reflexivity; intros build; unfold lessThan57; simpl; reflexivity.
Qed.

(** ** Running the methods *)

Lemma bind_Normal {A B} (m : M A) (k : A -> M B) w a w' :
  m w = (Normal a, w') -> bind m k w = k a w'.
Proof. intros H. unfold bind. rewrite H. reflexivity. Qed.

Lemma bind_Throw {A B} (m : M A) (k : A -> M B) w e w' :
  m w = (Throw e, w') -> bind m k w = (Throw e, w').
Proof. intros H. unfold bind. rewrite H. reflexivity. Qed.

Lemma reads_on_refl w : reads_on w (reads w) w.
Proof. repeat split. Qed.

Lemma reads_on_trans w1 w2 w3 r2 r3 :
  reads_on w1 r2 w2 -> reads_on w2 r3 w3 -> reads_on w1 r3 w3.
Proof.
  unfold reads_on. intros (A1 & A2 & A3 & A4 & A5 & A6) (B1 & B2 & B3 & B4 & B5 & B6).
  repeat split; congruence.
Qed.

Lemma reads_on_received w c rest : reads_on w rest (received c rest w).
Proof. repeat split. Qed.

Section Properties.

Context {codecs : Codecs}.

(** A read that delivers a packet not tagged ERR hands it over. *)
Lemma nextPacket_arrive w c p rest :
  conn (this w) = Some c ->
  reads w = arrive p :: rest ->
  type p <> ERR ->
  nextPacket w = (Normal p, received c rest w).
Proof.
  intros Hc Hr Ht.
  destruct w as [self rs ss ds os nr tr]; simpl in *; subst.
  unfold nextPacket, bind, gets, setTimeout, try_catch, ReceivePacket_parse.
  simpl. rewrite Hc. simpl.
  destruct (type p); try congruence; reflexivity.
Qed.

(** The field loop takes one packet for each unit of the count. *)
Lemma read_fields_arrive c pkts : forall fs acc fuel tail w,
  conn (this w) = Some c ->
  reads w = map arrive pkts ++ tail ->
  Forall (fun p => type p <> ERR) pkts ->
  Forall2 (fun p f => parseField (body p) = inr f) pkts fs ->
  (List.length pkts < fuel)%nat ->
  exists w',
    read_fields fuel (Z.of_nat (List.length pkts)) acc w = (Normal (acc ++ fs), w')
    /\ reads_on w tail w'.
Proof.
  induction pkts as [|p pkts IH]; intros fs acc fuel tail w Hc Hr Ht Hp Hf.
  - inversion Hp; subst. destruct fuel; [simpl in Hf; lia|].
    exists w. simpl. rewrite app_nil_r. split; [reflexivity|].
    simpl in Hr. rewrite <- Hr. apply reads_on_refl.
  - inversion Hp as [|p' f ps fs' Hpf Hrest]; subst.
    inversion Ht as [|p' ps Htp Htrest]; subst.
    destruct fuel as [|fuel]; [simpl in Hf; lia|].
    simpl in Hr.
    cbn [read_fields].
    replace (Z.of_nat (List.length (p :: pkts)) =? 0) with false
      by (symmetry; apply Z.eqb_neq; simpl List.length; lia).
    erewrite bind_Normal by (eapply nextPacket_arrive; eassumption).
    rewrite Hpf. cbn [lift]. unfold bind at 1. cbn [ret].
    replace (Z.of_nat (List.length (p :: pkts)) - 1) with (Z.of_nat (List.length pkts))
      by (simpl List.length; lia).
    destruct (IH fs' (acc ++ [f]) fuel tail (received c (map arrive pkts ++ tail) w))
      as (w' & E & R); auto.
    + simpl in Hf. lia.
    + exists w'. rewrite E. rewrite <- app_assoc. simpl. split; [reflexivity|].
      eapply reads_on_trans; [apply reads_on_received | exact R].
Qed.

(** The row loop decodes every packet up to the first one tagged EOF. *)
Lemma read_rows_arrive c fieldList pkts : forall rs acc fuel last tail w,
  conn (this w) = Some c ->
  reads w = map arrive pkts ++ arrive last :: tail ->
  Forall (fun p => type p <> ERR /\ type p <> EOF) pkts ->
  Forall2 (fun p r => parseRow (body p) fieldList = inr r) pkts rs ->
  type last = EOF ->
  (List.length pkts < fuel)%nat ->
  exists w',
    read_rows fuel fieldList acc w = (Normal (acc ++ rs), w')
    /\ reads_on w tail w'.
Proof.
  induction pkts as [|p pkts IH]; intros rs acc fuel last tail w Hc Hr Ht Hp Hl Hf.
  - inversion Hp; subst. destruct fuel; [simpl in Hf; lia|].
    simpl in Hr. cbn [read_rows].
    erewrite bind_Normal by (eapply nextPacket_arrive; try eassumption; congruence).
    rewrite Hl. cbn [PacketType_eqb].
    eexists. rewrite app_nil_r. split; [reflexivity|]. apply reads_on_received.
  - inversion Hp as [|p' r ps rs' Hpr Hrest]; subst.
    inversion Ht as [|p' ps [Htp Hte] Htrest]; subst.
    destruct fuel as [|fuel]; [simpl in Hf; lia|].
    simpl in Hr. cbn [read_rows].
    erewrite bind_Normal by (eapply nextPacket_arrive; eassumption).
    replace (PacketType_eqb (type p) EOF) with false
      by (destruct (type p); simpl; congruence).
    rewrite Hpr. cbn [lift]. unfold bind at 1. cbn [ret].
    destruct (IH rs' (acc ++ [r]) fuel last tail
                (received c (map arrive pkts ++ arrive last :: tail) w))
      as (w' & E & R); auto.
    + simpl in Hf. lia.
    + exists w'. rewrite E. rewrite <- app_assoc. simpl. split; [reflexivity|].
      eapply reads_on_trans; [apply reads_on_received | exact R].
Qed.


Lemma try_catch_Normal {A} (m : M A) h w a w' :
  m w = (Normal a, w') -> try_catch m h w = (Normal a, w').
Proof. intros H. unfold try_catch. rewrite H. reflexivity. Qed.

(** A send on an open connection that the script lets through. *)
Lemma send_through w c data seq :
  conn (this w) = Some c ->
  send_error w = None ->
  (c0 <- gets conn ;; SendPacket_send data seq c0) w = (Normal tt, sent c data seq w).
Proof.
  intros Hc Hs. unfold bind, gets. rewrite Hc. unfold SendPacket_send, sent, send_error in *.
  destruct w as [self rs ss ds os nr tr]; simpl in *.
  destruct ss as [|[e|] ss]; simpl; try discriminate; reflexivity.
Qed.

Ltac execute_to_first_read Hs Hc Hb Hse :=
  unfold execute;
  unfold bind at 1, gets at 1; rewrite Hs; cbn [ConnectionState_eqb negb];
  rewrite Hb; cbn [lift]; unfold bind at 1; cbn [ret];
  erewrite bind_Normal
    by (apply try_catch_Normal; apply send_through; [exact Hc | exact Hse]).

(** C2.  When the first response packet is tagged OK, [execute] skips one
    byte of its payload, reads two consecutive length-encoded integers, and
    returns them as [affectedRows] and [lastInsertId], with [rows] and
    [fields] absent; one packet has been read. *)
Theorem execute_OK sql params w c data p rest a l b1 b2 :
  state (this w) = CONNECTED ->
  conn (this w) = Some c ->
  buildQuery sql params = inr data ->
  send_error w = None ->
  reads w = arrive p :: rest ->
  type p = OK ->
  BufferReader.readEncodedLen (BufferReader.skip 1 (body p)) = inr (a, b1) ->
  BufferReader.readEncodedLen b1 = inr (l, b2) ->
  exists w',
    execute sql params w
    = (Normal {| affectedRows := Some a; lastInsertId := Some l;
                 fields := None; rows := None |}, w')
    /\ this w' = this w /\ reads w' = rest.
Proof.
  intros Hs Hc Hb Hse Hr Ht Ha Hl.
  execute_to_first_read Hs Hc Hb Hse.
  erewrite bind_Normal
    by (eapply nextPacket_arrive; [exact Hc | exact Hr | congruence]).
  rewrite Ht. cbn [PacketType_eqb].
  rewrite Ha. cbn [lift]. unfold bind at 1. cbn [ret].
  rewrite Hl. cbn [lift]. unfold bind at 1. cbn [ret].
  eexists. split; [reflexivity|]. split; reflexivity.
Qed.

(** [execute] on a result set, up to the row loop: the header packet gives
    the count, that many packets are parsed as fields, and from a server
    older than 5.7 one more packet is taken. *)
Lemma execute_result_set_head
    sql params w c data hdr n b fieldPkts fieldList legacy tail :
  state (this w) = CONNECTED ->
  conn (this w) = Some c ->
  buildQuery sql params = inr data ->
  send_error w = None ->
  reads w = arrive hdr :: map arrive fieldPkts ++ map arrive legacy ++ tail ->
  type hdr <> OK -> type hdr <> ERR ->
  BufferReader.readEncodedLen (body hdr) = inr (n, b) ->
  n = Z.of_nat (List.length fieldPkts) ->
  Forall (fun p => type p <> ERR) fieldPkts ->
  Forall2 (fun p f => parseField (body p) = inr f) fieldPkts fieldList ->
  List.length legacy = (if lessThan57 (this w) then 1 else 0)%nat ->
  Forall (fun p => type p <> ERR) legacy ->
  exists w1,
    execute sql params w
    = (rowList <- read_rows (S (List.length tail)) fieldList [] ;;
       ret {| affectedRows := None; lastInsertId := None;
              fields := Some fieldList; rows := Some rowList |}) w1
    /\ this w1 = this w /\ reads w1 = tail.
Proof.
  intros Hs Hc Hb Hse Hr Hok Herr Hn Hlen Hft Hfp Hll Hlt.
  execute_to_first_read Hs Hc Hb Hse.
  erewrite bind_Normal
    by (eapply nextPacket_arrive; [exact Hc | exact Hr | exact Herr]).
  replace (PacketType_eqb (type hdr) OK) with false
    by (destruct (type hdr); simpl; congruence).
  rewrite Hn. cbn [lift]. unfold bind at 1. cbn [ret].
  unfold bind at 1, pending_reads at 1.
  match goal with
  | |- exists _, bind (read_fields ?fuel _ _) _ ?w0 = _ /\ _ =>
      destruct (@read_fields_arrive c fieldPkts fieldList [] fuel
                  (map arrive legacy ++ tail) w0)
        as (w2 & E & R)
  end; try assumption; try reflexivity.
  - simpl. rewrite length_app, length_map. lia.
  - subst n. erewrite bind_Normal by exact E.
    destruct R as (R1 & R2 & R3 & R4 & R5 & R6).
    unfold bind at 1, gets at 1. rewrite R1. simpl this.
    destruct (lessThan57 (this w)).
    + destruct legacy as [|x [|y legacy]]; try discriminate Hll.
      inversion Hlt as [|x' l' Hx _]; subst. simpl in R2.
      erewrite bind_Normal.
      2:{ erewrite bind_Normal; [reflexivity|].
          eapply nextPacket_arrive; [rewrite R1; exact Hc | exact R2 | exact Hx]. }
      unfold bind at 1, pending_reads at 1. simpl.
      eexists. split; [reflexivity|]. split; [simpl; rewrite R1; reflexivity | reflexivity].
    + destruct legacy as [|x legacy]; try discriminate Hll.
      simpl in R2. unfold bind at 1. cbn [ret].
      unfold bind at 1, pending_reads at 1. rewrite R2.
      exists w2. split; [reflexivity|]. split; [rewrite R1; reflexivity | exact R2].
Qed.

(** C1.  When the first response packet is not tagged OK, the first
    length-encoded integer of its payload is the column count; that many
    packets are read and parsed as fields, in the order of arrival; after the
    packet that a server older than 5.7 adds, every packet up to the first one
    tagged EOF is decoded as a row against those fields and appended.
    [execute] returns the rows and the fields, with [affectedRows] and
    [lastInsertId] absent, and has read up to that EOF packet and no
    further. *)
Theorem execute_result_set
    sql params w c data hdr n b fieldPkts fieldList legacy rowPkts rowList last rest :
  state (this w) = CONNECTED ->
  conn (this w) = Some c ->
  buildQuery sql params = inr data ->
  send_error w = None ->
  reads w = arrive hdr :: map arrive fieldPkts ++ map arrive legacy
              ++ map arrive rowPkts ++ arrive last :: rest ->
  type hdr <> OK -> type hdr <> ERR ->
  BufferReader.readEncodedLen (body hdr) = inr (n, b) ->
  n = Z.of_nat (List.length fieldPkts) ->
  Forall (fun p => type p <> ERR) fieldPkts ->
  Forall2 (fun p f => parseField (body p) = inr f) fieldPkts fieldList ->
  List.length legacy = (if lessThan57 (this w) then 1 else 0)%nat ->
  Forall (fun p => type p <> ERR) legacy ->
  Forall (fun p => type p <> ERR /\ type p <> EOF) rowPkts ->
  Forall2 (fun p r => parseRow (body p) fieldList = inr r) rowPkts rowList ->
  type last = EOF ->
  exists w',
    execute sql params w
    = (Normal {| affectedRows := None; lastInsertId := None;
                 fields := Some fieldList; rows := Some rowList |}, w')
    /\ this w' = this w /\ reads w' = rest.
Proof.
  intros Hs Hc Hb Hse Hr Hok Herr Hn Hlen Hft Hfp Hll Hlt Hrt Hrp Hl.
  destruct (@execute_result_set_head sql params w c data hdr n b fieldPkts fieldList
              legacy (map arrive rowPkts ++ arrive last :: rest))
    as (w1 & E & T1 & R1); try assumption.
  destruct (@read_rows_arrive c fieldList rowPkts rowList []
              (S (List.length (map arrive rowPkts ++ arrive last :: rest)))
              last rest w1) as (w' & E' & T' & R' & _); try assumption.
  - rewrite T1. exact Hc.
  - rewrite length_app, length_map. simpl. lia.
  - exists w'. rewrite E. erewrite bind_Normal by exact E'.
    split; [reflexivity|]. split; congruence.
Qed.

(** C4.  In a result-set response, once the field packets are read: when
    [lessThan57] holds for the recorded server version, the next packet is
    taken before the row loop begins and is not decoded, so the loop starts on
    the packet after it; when it does not hold, the row loop starts on the
    packet right after the fields. *)
Theorem execute_legacy_EOF
    sql params w c data hdr n b fieldPkts fieldList tail :
  state (this w) = CONNECTED ->
  conn (this w) = Some c ->
  buildQuery sql params = inr data ->
  send_error w = None ->
  reads w = arrive hdr :: map arrive fieldPkts ++ tail ->
  type hdr <> OK -> type hdr <> ERR ->
  BufferReader.readEncodedLen (body hdr) = inr (n, b) ->
  n = Z.of_nat (List.length fieldPkts) ->
  Forall (fun p => type p <> ERR) fieldPkts ->
  Forall2 (fun p f => parseField (body p) = inr f) fieldPkts fieldList ->
  let rows_from (start : list ReadOutcome) :=
    exists w1,
      execute sql params w
      = (rowList <- read_rows (S (List.length start)) fieldList [] ;;
         ret {| affectedRows := None; lastInsertId := None;
                fields := Some fieldList; rows := Some rowList |}) w1
      /\ this w1 = this w /\ reads w1 = start in
  if lessThan57 (this w)
  then forall x tail', tail = arrive x :: tail' -> type x <> ERR -> rows_from tail'
  else rows_from tail.
Proof.
  intros Hs Hc Hb Hse Hr Hok Herr Hn Hlen Hft Hfp rows_from. subst rows_from.
  destruct (lessThan57 (this w)) eqn:L.
  - intros x tail' -> Hx.
    eapply execute_result_set_head with (legacy := [x]); try eassumption.
    + rewrite L. reflexivity.
    + constructor; [exact Hx | constructor].
  - eapply execute_result_set_head with (legacy := []); try eassumption.
    + rewrite L. reflexivity.
    + constructor.
Qed.

(** ** [close()] *)

Lemma close_run w : socket_open w -> close w = (Normal tt, closed_world w).
Proof.
  intros O. unfold socket_open in O.
  destruct w as [[st caps ver [c|] t cfg] rs ss ds os nr tr];
    unfold close, closed_world, bind, log_info, assign_state, gets, Conn_close, ret,
      record, with_this, with_open_rids, set_state;
    cbn [this conn open_rids trace reads sends dials next_rid state capabilities
         serverVersion _timedOut config] in *.
  - destruct (in_dec Nat.eq_dec c os) as [I|N].
    + simpl. repeat rewrite <- app_assoc. reflexivity.
    + destruct (N (O c eq_refl)).
  - simpl. repeat rewrite <- app_assoc. reflexivity.
Qed.

Lemma close_stuck w c :
  conn (this w) = Some c -> ~ In c (open_rids w) ->
  close w = (Throw BadResource, stuck_world c w).
Proof.
  intros Hc N.
  destruct w as [[st caps ver c0 t cfg] rs ss ds os nr tr];
    cbn [this conn open_rids] in *; subst c0.
  unfold close, stuck_world, bind, log_info, assign_state, gets, Conn_close, ret,
    record, with_this, with_open_rids, set_state;
    cbn [this conn open_rids trace reads sends dials next_rid state capabilities
         serverVersion _timedOut config].
  destruct (in_dec Nat.eq_dec c os) as [I|_]; [destruct (N I)|].
  simpl. repeat rewrite <- app_assoc. reflexivity.
Qed.

(** [close()] goes through, or stops at a socket that is closed already. *)
Lemma close_cases w :
  socket_open w /\ close w = (Normal tt, closed_world w)
  \/ exists c, conn (this w) = Some c /\ ~ In c (open_rids w)
               /\ close w = (Throw BadResource, stuck_world c w).
Proof.
  destruct (conn (this w)) as [c|] eqn:Hc.
  - destruct (in_dec Nat.eq_dec c (open_rids w)) as [I|N].
    + assert (O : socket_open w)
        by (intros c0 H0; rewrite Hc in H0; inversion H0; subst; exact I).
      left. split; [exact O | apply close_run, O].
    + right. exists c. split; [reflexivity|]. split; [exact N|].
      apply close_stuck; assumption.
  - assert (O : socket_open w) by (intros c0 H0; rewrite Hc in H0; discriminate).
    left. split; [exact O | apply close_run, O].
Qed.

Lemma state_writes_app t1 t2 :
  state_writes (t1 ++ t2) = state_writes t1 ++ state_writes t2.
Proof.
  induction t1 as [|e t1 IH]; [reflexivity|].
  destruct e; simpl; rewrite IH; reflexivity.
Qed.

Lemma timer_firings_app t1 t2 :
  timer_firings (t1 ++ t2) = (timer_firings t1 + timer_firings t2)%nat.
Proof.
  induction t1 as [|e t1 IH]; [reflexivity|].
  destruct e; simpl; rewrite IH; reflexivity.
Qed.

Lemma closed_world_state_writes w :
  state_writes (trace (closed_world w)) = state_writes (trace w) ++ [CLOSING; CLOSED].
Proof.
  unfold closed_world. simpl. rewrite state_writes_app.
  destruct (conn (this w)); reflexivity.
Qed.

Lemma closed_world_socket w :
  match conn (this w) with
  | Some c => ~ In c (open_rids (closed_world w))
  | None => open_rids (closed_world w) = open_rids w
  end.
Proof.
  unfold closed_world. simpl. destruct (conn (this w)); [|reflexivity].
  apply remove_In.
Qed.

(** C7.  [close()] can fail.  On a connection whose socket is open the
    first [close()] returns, with the state CLOSED and the socket closed; it
    leaves the closed socket in [conn], and nothing in [close()] looks at
    the state, so a second [close()] assigns CLOSING, calls [conn.close()]
    on the closed socket, which throws, and never reaches the assignment of
    CLOSED: the call fails and the state is left CLOSING. *)
Theorem close_again_fails w c :
  conn (this w) = Some c ->
  In c (open_rids w) ->
  exists w1 w2,
    close w = (Normal tt, w1)
    /\ state (this w1) = CLOSED
    /\ ~ In c (open_rids w1)
    /\ close w1 = (Throw BadResource, w2)
    /\ close_times 2 w = (Throw BadResource, w2)
    /\ state (this w2) = CLOSING
    /\ state_writes (trace w2)
       = state_writes (trace w) ++ [CLOSING; CLOSED; CLOSING].
Proof.
  intros Hc I.
  assert (O : socket_open w)
    by (intros c0 H0; rewrite Hc in H0; inversion H0; subst; exact I).
  assert (N : ~ In c (open_rids (closed_world w))).
  { pose proof (closed_world_socket w) as S. rewrite Hc in S. exact S. }
  assert (E2 : close (closed_world w)
               = (Throw BadResource, stuck_world c (closed_world w)))
    by (apply close_stuck; [exact Hc | exact N]).
  exists (closed_world w), (stuck_world c (closed_world w)).
  split; [apply close_run, O|]. split; [reflexivity|]. split; [exact N|].
  split; [exact E2|]. split.
  - cbn [close_times]. erewrite bind_Normal by (apply close_run, O).
    erewrite bind_Throw by exact E2. reflexivity.
  - split; [reflexivity|].
    unfold stuck_world. cbn [trace]. rewrite state_writes_app.
    rewrite closed_world_state_writes, <- app_assoc. reflexivity.
Qed.

(** ** Calls on a connection that is not CONNECTED *)

Lemma execute_refused sql params w :
  state (this w) <> CONNECTED ->
  execute sql params w
  = (Throw (ConnnectionError
              (match state (this w) with
               | CLOSED => "Connection is closed"
               | _ => "Must be connected first"
               end)), w).
Proof.
  intros H. unfold execute, bind, gets.
  destruct (state (this w)); try congruence; reflexivity.
Qed.

(** C6, amended.  When the state is not CONNECTED, [execute] and [query]
    fail with a [ConnnectionError] and leave the world as it was, so nothing
    is asked of the socket; the message is "Connection is closed" when the
    state is CLOSED and "Must be connected first" when it is CONNECTING or
    CLOSING. *)
Theorem execute_requires_CONNECTED sql params w :
  state (this w) <> CONNECTED ->
  let error :=
    ConnnectionError
      (match state (this w) with
       | CLOSED => "Connection is closed"
       | _ => "Must be connected first"
       end) in
  execute sql params w = (Throw error, w)
  /\ query sql params w = (Throw error, w).
Proof.
  intros H error. subst error. split.
  - apply execute_refused, H.
  - unfold query. erewrite bind_Throw by (apply execute_refused, H). reflexivity.
Qed.

(** C8, amended.  Once the state is CLOSED, [execute] and [query] fail
    with "Connection is closed", end with the state CLOSED and assign
    nothing to it. *)
Theorem CLOSED_kept_by_execute_query (call : Call) (w : World) :
  state (this w) = CLOSED ->
  call <> Connect ->
  call <> Close ->
  fst (perform call w) = Throw (ConnnectionError "Connection is closed")
  /\ state (this (snd (perform call w))) = CLOSED
  /\ state_writes (trace (snd (perform call w))) = state_writes (trace w).
Proof.
  intros Hs Hc Hk.
  assert (Hn : state (this w) <> CONNECTED) by congruence.
  assert (E : forall sql params,
             execute sql params w
             = (Throw (ConnnectionError "Connection is closed"), w)).
  { intros sql params. rewrite execute_refused by exact Hn. rewrite Hs. reflexivity. }
  destruct call as [|sql params|sql params|]; [congruence| | |congruence];
    cbn [perform].
  - erewrite bind_Throw by apply E.
    cbn [fst snd]. repeat split. exact Hs.
  - unfold query. erewrite bind_Throw.
    2:{ erewrite bind_Throw by apply E. reflexivity. }
    cbn [fst snd]. repeat split. exact Hs.
Qed.

(** ** [nextPacket] *)

Lemma close_throw_run {A} e w :
  socket_open w -> (close ;; @throw A e) w = (Throw e, closed_world w).
Proof. intros O. erewrite bind_Normal by (apply close_run, O). reflexivity. Qed.

Lemma close_throw_stuck {A} e w c :
  conn (this w) = Some c -> ~ In c (open_rids w) ->
  (close ;; @throw A e) w = (Throw BadResource, stuck_world c w).
Proof.
  intros Hc N. erewrite bind_Throw by (apply close_stuck; eassumption). reflexivity.
Qed.

Lemma bind_close_throw {A B} e (k : A -> M B) w :
  (x <- (close ;; @throw A e) ;; k x) w = (close ;; @throw B e) w.
Proof. unfold bind, throw. destruct (close w) as [[[]|e'|] w1]; reflexivity. Qed.

Lemma socket_open_of w c :
  conn (this w) = Some c -> In c (open_rids w) -> socket_open w.
Proof. intros Hc I c0 H0. rewrite Hc in H0. inversion H0; subst. exact I. Qed.

(** The world [close()] leaves, whether it returns or throws. *)
Lemma close_leaves w :
  socket_open w /\ snd (close w) = closed_world w
  \/ exists c, conn (this w) = Some c /\ ~ In c (open_rids w)
               /\ snd (close w) = stuck_world c w.
Proof.
  destruct (close_cases w) as [[O E]|(c & Hc & N & E)]; rewrite E.
  - left. split; [exact O | reflexivity].
  - right. exists c. repeat split; assumption.
Qed.

Lemma timeoutCallback_run w :
  _timeoutCallback (record EvTimerFired w) = close (flagged w).
Proof. reflexivity. Qed.

(** What [nextPacket] does, by the outcome of its read. *)
Lemma nextPacket_cases w :
  match conn (this w) with
  | None => nextPacket w = (Throw (ConnnectionError "Not connected"), w)
  | Some c =>
      match reads w with
      | [] =>
          nextPacket w
          = (Throw (ResponseTimeoutError "Connection read timed out"),
             snd (close (flagged (reading c w))))
      | TimerFires :: rest =>
          nextPacket w
          = (Throw (ResponseTimeoutError "Connection read timed out"),
             snd (close (flagged (with_reads rest (reading c w)))))
      | CallerCloses :: rest =>
          nextPacket w
          = if _timedOut (this w)
            then (Throw (ResponseTimeoutError "Connection read timed out"),
                  snd (close (with_reads rest (reading c w))))
            else (close ;; throw (Thrown "read aborted"))
                   (record EvClearTimeout
                      (snd (close (with_reads rest (reading c w)))))
      | Rejects error :: rest =>
          nextPacket w
          = if _timedOut (this w)
            then (Throw (ResponseTimeoutError "Connection read timed out"),
                  with_reads rest (reading c w))
            else (close ;; throw error) (received c rest w)
      | Resolves None :: rest =>
          nextPacket w
          = (close ;; throw (ReadError "Connection closed unexpectedly"))
              (received c rest w)
      | Resolves (Some p) :: rest =>
          nextPacket w
          = if PacketType_eqb (type p) ERR
            then match parseError (BufferReader.skip 1 (body p)) (this w) with
                 | inl e => (Throw e, received c rest w)
                 | inr error => (Throw (Error_ (message error)), received c rest w)
                 end
            else (Normal p, received c rest w)
      end
  end.
Proof.
  destruct (conn (this w)) as [c|] eqn:Hc.
  2:{ unfold nextPacket, bind, gets. rewrite Hc. reflexivity. }
  assert (E : nextPacket w
          = (packet <-
               try_catch (ReceivePacket_parse _timeoutCallback c)
                 (fun error =>
                    timedOut <- gets _timedOut ;;
                    if timedOut : bool
                    then throw (ResponseTimeoutError "Connection read timed out")
                    else clearTimeout _timeoutCallback ;; close ;; throw error) ;;
             clearTimeout _timeoutCallback ;;
             match packet with
             | None => close ;; throw (ReadError "Connection closed unexpectedly")
             | Some packet =>
                 if PacketType_eqb (type packet) ERR
                 then
                   self <- gets (fun self => self) ;;
                   error <- lift (parseError (BufferReader.skip 1 (body packet)) self) ;;
                   throw (Error_ (message error))
                 else ret packet
             end)
              (record (EvSetTimeout (timeout_or_default (config (this w)))) w)).
  { unfold nextPacket. unfold bind at 1, gets at 1. rewrite Hc.
    unfold bind at 1, gets at 1. unfold bind at 1, setTimeout at 1. reflexivity. }
  assert (Fl : forall W, _timedOut (this (snd (close W))) = _timedOut (this W)).
  { intros W. destruct (close_leaves W) as [[_ L]|(c0 & _ & _ & L)]; rewrite L; reflexivity. }
  destruct (reads w) as [|[[p|]|e| |] rest] eqn:Hr; rewrite E; clear E;
    unfold bind at 1, try_catch at 1, ReceivePacket_parse at 1;
    cbn [reads record]; rewrite Hr; cbv zeta.
  - unfold fire, interrupted_by. rewrite timeoutCallback_run.
    destruct (close (flagged _)) as [r1 w1] eqn:E1.
    unfold bind at 1, gets at 1.
    replace (_timedOut (this w1)) with true; [reflexivity|].
    change w1 with (snd (r1, w1)). rewrite <- E1, Fl. reflexivity.
  - unfold bind at 1, clearTimeout at 1.
    destruct (PacketType_eqb (type p) ERR); [|reflexivity].
    unfold bind at 1, gets at 1. cbn [this record with_reads].
    destruct (parseError _ _); reflexivity.
  - unfold bind at 1, clearTimeout at 1. reflexivity.
  - unfold bind at 1, gets at 1. cbn [this record with_reads _timedOut].
    destruct (_timedOut (this w)); [reflexivity|].
    unfold bind at 1, clearTimeout at 1. apply bind_close_throw.
  - unfold fire, interrupted_by. rewrite timeoutCallback_run.
    destruct (close (flagged _)) as [r1 w1] eqn:E1.
    unfold bind at 1, gets at 1.
    replace (_timedOut (this w1)) with true; [reflexivity|].
    change w1 with (snd (r1, w1)). rewrite <- E1, Fl. reflexivity.
  - unfold interrupted_by.
    destruct (close (with_reads rest _)) as [r1 w1] eqn:E1.
    unfold bind at 1, gets at 1.
    replace (_timedOut (this w1)) with (_timedOut (this w)).
    2:{ change w1 with (snd (r1, w1)). rewrite <- E1, Fl. reflexivity. }
    cbn [snd]. destruct (_timedOut (this w)); [reflexivity|].
    unfold bind at 1, clearTimeout at 1. apply bind_close_throw.
Qed.

(** A read on an open socket that the timer cuts short. *)
Lemma nextPacket_times_out w c more :
  conn (this w) = Some c ->
  In c (open_rids w) ->
  reads w = [] /\ more = [] \/ reads w = TimerFires :: more ->
  nextPacket w
  = (Throw (ResponseTimeoutError "Connection read timed out"),
     timeout_world (with_reads more (reading c w))).
Proof.
  intros Hc I Hr. pose proof (nextPacket_cases w) as C. rewrite Hc in C.
  assert (O : forall W, this W = this w -> open_rids W = open_rids w ->
                socket_open (flagged W)).
  { intros W T1 T2 c0 H0. cbn in H0. rewrite T1, Hc in H0.
    inversion H0; subst. cbn. rewrite T2. exact I. }
  destruct Hr as [[Hr Hm]|Hr]; rewrite Hr in C; rewrite C; subst.
  - rewrite close_run by (apply O; reflexivity).
    replace (with_reads [] (reading c w)) with (reading c w); [reflexivity|].
    clear C O. destruct w as [self rs ss ds os nr tr]. cbn in Hr. subst rs.
    reflexivity.
  - rewrite close_run by (apply O; reflexivity). reflexivity.
Qed.

(** A read on an open socket that ends in a [close()] of [nextPacket]. *)
Lemma nextPacket_closes w c rest outcome error :
  conn (this w) = Some c ->
  In c (open_rids w) ->
  reads w = outcome :: rest ->
  outcome = Rejects error /\ _timedOut (this w) = false
  \/ outcome = Resolves None
     /\ error = ReadError "Connection closed unexpectedly" ->
  nextPacket w = (Throw error, closed_world (received c rest w)).
Proof.
  intros Hc I Hr Ho. pose proof (nextPacket_cases w) as C. rewrite Hc, Hr in C.
  assert (O : socket_open (received c rest w)).
  { intros c0 H0. cbn in H0. rewrite Hc in H0. inversion H0; subst. exact I. }
  destruct Ho as [[Ho Hf]|[Ho He]]; subst; [rewrite Hf in C|];
    rewrite C; apply close_throw_run, O.
Qed.

(** ** [serverVersion] and [capabilities] *)

Ltac version_prim :=
  let w := fresh "w" in
  let r := fresh "r" in
  let w' := fresh "w'" in
  let H := fresh "H" in
  intros w r w' H; cbv beta delta [ret throw gets assign assign_state log_info log_error pending_reads setTimeout clearTimeout] in H;
  inversion H; subst; clear H; split; reflexivity.

Lemma keeps_ret {A} (a : A) : keeps_version (ret a).
Proof. version_prim. Qed.

Lemma keeps_throw {A} e : keeps_version (@throw A e).
Proof. version_prim. Qed.

Lemma keeps_lift {A} (x : Result A) : keeps_version (lift x).
Proof. destruct x; [apply keeps_throw | apply keeps_ret]. Qed.

Lemma keeps_gets {A} (f : Connection -> A) : keeps_version (gets f).
Proof. version_prim. Qed.

Lemma keeps_assign_state s : keeps_version (assign_state s).
Proof. version_prim. Qed.

Lemma keeps_log_info msg : keeps_version (log_info msg).
Proof. version_prim. Qed.

Lemma keeps_log_error msg : keeps_version (log_error msg).
Proof. version_prim. Qed.

Lemma keeps_pending_reads : keeps_version pending_reads.
Proof. version_prim. Qed.

Lemma keeps_close : keeps_version close.
Proof.
  intros w r w' H.
  destruct (close_cases w) as [[_ E]|(c & _ & _ & E)]; rewrite E in H;
    inversion H; subst; split; reflexivity.
Qed.

Lemma keeps_send data seq c : keeps_version (SendPacket_send data seq c).
Proof.
  intros w r w' H. destruct c as [c|]; simpl in H.
  - destruct (sends w) as [|[e|] ss]; inversion H; subst; split; reflexivity.
  - inversion H; subst. split; reflexivity.
Qed.

Lemma keeps_bind {A B} (m : M A) (k : A -> M B) :
  keeps_version m -> (forall a, keeps_version (k a)) -> keeps_version (bind m k).
Proof.
  intros Hm Hk w r w' H. unfold bind in H.
  destruct (m w) as [[a|e|] w1] eqn:E.
  - apply Hk in H. apply Hm in E. destruct H, E. split; congruence.
  - inversion H; subst. eapply Hm, E.
  - inversion H; subst. eapply Hm, E.
Qed.

Lemma keeps_try_catch {A} (m : M A) h :
  keeps_version m -> (forall e, keeps_version (h e)) -> keeps_version (try_catch m h).
Proof.
  intros Hm Hh w r w' H. unfold try_catch in H.
  destruct (m w) as [[a|e|] w1] eqn:E.
  - inversion H; subst. eapply Hm, E.
  - apply Hh in H. apply Hm in E. destruct H, E. split; congruence.
  - inversion H; subst. eapply Hm, E.
Qed.

Lemma keeps_nextPacket : keeps_version nextPacket.
Proof.
  assert (K : forall W,
             serverVersion (this (snd (close W))) = serverVersion (this W)
             /\ capabilities (this (snd (close W))) = capabilities (this W)).
  { intros W. destruct (close W) as [r1 w1] eqn:E. eapply keeps_close, E. }
  assert (T : forall e, keeps_version (close ;; @throw ReceivePacket e)).
  { intros. apply keeps_bind; [apply keeps_close | intros; apply keeps_throw]. }
  intros w r w' H. pose proof (nextPacket_cases w) as C.
  destruct (conn (this w)) as [c|] eqn:Hc.
  2:{ rewrite C in H. inversion H; subst. split; reflexivity. }
  destruct (reads w) as [|[[p|]|e| |] rest] eqn:Hr; rewrite C in H; clear C;
    repeat match type of H with
      | context [if ?b then _ else _] => destruct b
      | context [match ?x with inl _ => _ | inr _ => _ end] => destruct x
      end;
    first
      [ apply (T _ _ _ _) in H; destruct H as [H1 H2];
        cbn [this record with_reads received reading] in H1, H2;
        try rewrite (proj1 (K _)) in H1; try rewrite (proj2 (K _)) in H2;
        split; assumption
      | inversion H; subst;
        rewrite ?(proj1 (K _)), ?(proj2 (K _)); split; reflexivity ].
Qed.

Lemma keeps_read_fields fuel : forall n acc,
  keeps_version (read_fields fuel n acc).
Proof.
  induction fuel as [|fuel IH]; intros n acc.
  - intros w r w' H. inversion H; subst. split; reflexivity.
  - cbn [read_fields]. destruct (n =? 0); [apply keeps_ret|].
    apply keeps_bind; [apply keeps_nextPacket|]. intros packet.
    apply keeps_bind; [apply keeps_lift|]. intros field.
    apply IH.
Qed.

Lemma keeps_read_rows fuel : forall fieldList acc,
  keeps_version (read_rows fuel fieldList acc).
Proof.
  induction fuel as [|fuel IH]; intros fieldList acc.
  - intros w r w' H. inversion H; subst. split; reflexivity.
  - cbn [read_rows].
    apply keeps_bind; [apply keeps_nextPacket|]. intros receive.
    destruct (PacketType_eqb (type receive) EOF); [apply keeps_ret|].
    apply keeps_bind; [apply keeps_lift|]. intros row.
    apply IH.
Qed.

Ltac version_step :=
  lazymatch goal with
  | |- keeps_version (bind _ _) => apply keeps_bind; [|intros ?]
  | |- keeps_version (try_catch _ _) => apply keeps_try_catch; [|intros ?]
  | |- keeps_version nextPacket => apply keeps_nextPacket
  | |- keeps_version (read_fields _ _ _) => apply keeps_read_fields
  | |- keeps_version (read_rows _ _ _) => apply keeps_read_rows
  | |- keeps_version (if ?b then _ else _) => destruct b
  | |- keeps_version (match ?x with (_, _) => _ end) => destruct x
  | |- keeps_version (match ?x with Some _ => _ | None => _ end) => destruct x
  | |- keeps_version (ret _) => apply keeps_ret
  | |- keeps_version (throw _) => apply keeps_throw
  | |- keeps_version (lift _) => apply keeps_lift
  | |- keeps_version (gets _) => apply keeps_gets
  | |- keeps_version (assign_state _) => apply keeps_assign_state
  | |- keeps_version (log_info _) => apply keeps_log_info
  | |- keeps_version (log_error _) => apply keeps_log_error
  | |- keeps_version pending_reads => apply keeps_pending_reads
  | |- keeps_version close => apply keeps_close
  | |- keeps_version (SendPacket_send _ _ _) => apply keeps_send
  end.

(** [execute] writes neither field. *)
Lemma keeps_execute sql params : keeps_version (execute sql params).
Proof. unfold execute. repeat version_step. Qed.

(** ** [connect()] *)

Lemma try_catch_bind_Normal {A B} (m : M A) (k : A -> M B) h w a w1 :
  m w = (Normal a, w1) ->
  try_catch (bind m k) h w = try_catch (k a) h w1.
Proof. intros H. unfold try_catch, bind. rewrite H. reflexivity. Qed.

Lemma try_catch_bind_Throw {A B} (m : M A) (k : A -> M B) h w e w1 :
  m w = (Throw e, w1) ->
  try_catch (bind m k) h w = h e w1.
Proof. intros H. unfold try_catch, bind. rewrite H. reflexivity. Qed.

Lemma Deno_connect_through host p w :
  dial_error w = None ->
  Deno_connect host p w = (Normal (next_rid w), dialed host p w).
Proof.
  unfold dial_error, Deno_connect, dialed. cbn [dials record next_rid open_rids].
  destruct (dials w) as [|[e|] ds]; intros H; try discriminate; reflexivity.
Qed.

Lemma SendPacket_send_through w c data seq :
  send_error w = None ->
  SendPacket_send data seq (Some c) w = (Normal tt, sent c data seq w).
Proof.
  unfold send_error, SendPacket_send, sent. cbn [sends record].
  destruct w as [self rs ss ds os nr tr]. cbn.
  destruct ss as [|[e|] ss]; intros H; try discriminate; reflexivity.
Qed.

Ltac connect_to_second_read Hd Hr Ht Hh Ha Hs :=
  unfold connect, _connect;
  unfold bind at 1, gets at 1;
  unfold bind at 1, log_info at 1;
  erewrite bind_Normal by (apply Deno_connect_through; exact Hd);
  unfold bind at 1, assign at 1;
  erewrite try_catch_bind_Normal
    by (eapply nextPacket_arrive; [reflexivity | exact Hr | exact Ht]);
  rewrite Hh; erewrite try_catch_bind_Normal by reflexivity;
  rewrite Ha; erewrite try_catch_bind_Normal by reflexivity;
  erewrite try_catch_bind_Normal by reflexivity;
  erewrite try_catch_bind_Normal by (apply SendPacket_send_through; exact Hs);
  erewrite try_catch_bind_Normal by reflexivity;
  erewrite try_catch_bind_Normal by reflexivity;
  erewrite try_catch_bind_Normal by reflexivity.

Lemma readUint8_skip r v b :
  BufferReader.readUint8 r = inr (v, b) -> b = BufferReader.skip 1 r.
Proof.
  unfold BufferReader.readUint8.
  destruct (nth_error _ _); intros H; inversion H; reflexivity.
Qed.

(** C10.  Once the handshake packet is parsed and the auth response sent,
    [serverVersion] and [capabilities] hold the values of the handshake
    packet, and nothing that follows assigns them: whatever the server
    replies next, an ERR packet included, and whether [connect()] then
    completes or fails, they hold those values at its end. *)
Theorem connect_records_version w p1 rest hs data :
  dial_error w = None ->
  reads w = arrive p1 :: rest ->
  type p1 <> ERR ->
  parseHandshake (body p1) = inr hs ->
  buildAuth hs (auth_params (config (this w))) = inr data ->
  send_error w = None ->
  forall r w', connect w = (r, w') ->
  serverVersion (this w') = HandshakePacket.serverVersion hs
  /\ capabilities (this w') = HandshakePacket.serverCapabilities hs.
Proof.
  intros Hd Hr Ht Hh Ha Hs r w'.
  connect_to_second_read Hd Hr Ht Hh Ha Hs.
  match goal with
  | |- try_catch ?m ?h ?W = _ -> _ =>
      intros H;
      assert (K : keeps_version (try_catch m h))
        by (repeat version_step; apply keeps_execute);
      destruct (K _ _ _ H) as [V C]
  end.
  rewrite V, C. split; reflexivity.
Qed.

Lemma conn_closed_world w : conn (this (closed_world w)) = conn (this w).
Proof. reflexivity. Qed.

Lemma this_record e w : this (record e w) = this w.
Proof. reflexivity. Qed.

Lemma this_received c rest w : this (received c rest w) = this w.
Proof. reflexivity. Qed.

(** C9.  When the server's second reply during [connect()] is an ERR packet,
    tagged ERR by the framer or led by the byte 0xff, [connect()] fails with
    an [Error] whose message is the one parsed from that packet; the state is
    left CLOSED and the socket that [connect()] opened has been closed. *)
Theorem connect_ERR w p1 p2 rest hs data error :
  dial_error w = None ->
  reads w = arrive p1 :: arrive p2 :: rest ->
  type p1 <> ERR ->
  parseHandshake (body p1) = inr hs ->
  buildAuth hs (auth_params (config (this w))) = inr data ->
  send_error w = None ->
  type p2 = ERR \/ (exists b, BufferReader.readUint8 (body p2) = inr (255, b)) ->
  parseError (BufferReader.skip 1 (body p2))
    (handshaken hs (next_rid w) (this w)) = inr error ->
  exists w',
    connect w = (Throw (Error_ (message error)), w')
    /\ state (this w') = CLOSED
    /\ conn (this w') = Some (next_rid w)
    /\ ~ In (next_rid w) (open_rids w')
    /\ In (EvClose (next_rid w)) (trace w').
Proof.
  intros Hd Hr Ht Hh Ha Hs Hp2 He.
  connect_to_second_read Hd Hr Ht Hh Ha Hs.
  match goal with
  | |- exists _, try_catch _ _ ?W = _ /\ _ => remember W as W2 eqn:EW
  end.
  assert (Hc2 : conn (this W2) = Some (next_rid w)) by (rewrite EW; reflexivity).
  assert (Hr2 : reads W2 = arrive p2 :: rest) by (rewrite EW; reflexivity).
  assert (Ht2 : this W2 = handshaken hs (next_rid w) (this w))
    by (rewrite EW; reflexivity).
  assert (Ho2 : In (next_rid w) (open_rids W2))
    by (rewrite EW; left; reflexivity).
  assert (SO : forall W, conn (this W) = conn (this W2) ->
                 open_rids W = open_rids W2 -> socket_open W).
  { intros W E1 E2. apply socket_open_of with (c := next_rid w).
    - rewrite E1. exact Hc2.
    - rewrite E2. exact Ho2. }
  clear EW.
  pose proof (nextPacket_cases W2) as C. rewrite Hc2, Hr2 in C. unfold arrive in C.
  destruct (PacketType_eqb (type p2) ERR) eqn:T2.
  - (* tagged ERR: [nextPacket] throws, the handler closes *)
    rewrite Ht2, He in C.
    erewrite try_catch_bind_Throw by exact C.
    unfold bind at 1, gets at 1. cbn [this received reading record with_reads].
    rewrite Ht2. cbn [handshaken state set_capabilities set_serverVersion set_state
                      ConnectionState_eqb negb].
    erewrite bind_Normal by (apply close_run, SO; reflexivity). unfold throw.
    eexists. split; [reflexivity|].
    split; [reflexivity|].
    split; [rewrite conn_closed_world, ?this_record, this_received; exact Hc2|].
    split.
    + pose proof (closed_world_socket (received (next_rid w) rest W2)) as S.
      cbn [this received reading record with_reads] in S. rewrite Hc2 in S. exact S.
    + unfold closed_world. cbn [trace this received reading record with_reads]. rewrite Hc2.
      apply in_or_app. right. simpl. auto.
  - (* led by 0xff: [_connect] parses, logs, closes and throws *)
    destruct Hp2 as [Hp2|[b Hb]];
      [rewrite Hp2 in T2; discriminate|].
    erewrite try_catch_bind_Normal by exact C.
    rewrite Hb. erewrite try_catch_bind_Normal by reflexivity.
    cbv iota beta. change (255 =? 255) with true. cbv iota.
    apply readUint8_skip in Hb. subst b.
    erewrite try_catch_bind_Throw.
    2:{ erewrite bind_Normal by reflexivity.
        rewrite this_received, Ht2, He.
        erewrite bind_Normal by reflexivity.
        erewrite bind_Normal by reflexivity.
        erewrite bind_Normal by (apply close_run, SO; reflexivity). reflexivity. }
    unfold bind at 1, gets at 1. cbn [this closed_world state set_state
                      ConnectionState_eqb negb].
    unfold bind at 1. cbn [ret]. unfold throw.
    eexists. split; [reflexivity|].
    split; [reflexivity|].
    split; [rewrite conn_closed_world, ?this_record, this_received; exact Hc2|].
    split.
    + match goal with |- ~ In _ (open_rids (closed_world ?W)) =>
        pose proof (closed_world_socket W) as S end.
      cbn [this received reading record with_reads] in S. rewrite Hc2 in S. exact S.
    + unfold closed_world. cbn [trace this received reading record with_reads]. rewrite Hc2.
      apply in_or_app. right. simpl. auto.
Qed.

(** ** Fuel

    The loops of [execute] are given one unit of fuel more than there are
    reads scripted; every turn takes a read, so they never run out. *)

Ltac total_prim :=
  let w := fresh "w" in
  intros w; cbv beta delta [ret throw gets assign assign_state log_info log_error
                            pending_reads clearTimeout fst];
  discriminate.

Lemma total_ret {A} (a : A) : total (ret a).
Proof. total_prim. Qed.

Lemma total_throw {A} e : total (@throw A e).
Proof. total_prim. Qed.

Lemma total_lift {A} (x : Result A) : total (lift x).
Proof. destruct x; [apply total_throw | apply total_ret]. Qed.

Lemma total_gets {A} (f : Connection -> A) : total (gets f).
Proof. total_prim. Qed.

Lemma total_assign f : total (assign f).
Proof. total_prim. Qed.

Lemma total_assign_state s : total (assign_state s).
Proof. total_prim. Qed.

Lemma total_log_info msg : total (log_info msg).
Proof. total_prim. Qed.

Lemma total_log_error msg : total (log_error msg).
Proof. total_prim. Qed.

Lemma total_close : total close.
Proof.
  intros w. destruct (close_cases w) as [[_ E]|(c & _ & _ & E)]; rewrite E;
    discriminate.
Qed.

Lemma close_throw_throws {A} e w r w' :
  (close ;; @throw A e) w = (r, w') -> exists e', r = Throw e'.
Proof.
  unfold bind, throw.
  destruct (close_cases w) as [[_ E]|(c & _ & _ & E)]; rewrite E; intros H;
    inversion H; subst; eauto.
Qed.

Lemma total_close_throw {A} e : total (close ;; @throw A e).
Proof.
  intros w. destruct ((close ;; @throw A e) w) as [r w'] eqn:E.
  apply close_throw_throws in E. destruct E as [e' E]. subst. discriminate.
Qed.

Lemma total_Deno_connect host p : total (Deno_connect host p).
Proof.
  intros w. unfold Deno_connect.
  destruct (dials (record (EvConnect host p) w)) as [|[e|] ds]; discriminate.
Qed.

Lemma total_send data seq c : total (SendPacket_send data seq c).
Proof.
  intros w. destruct c as [c|]; simpl; [|discriminate].
  destruct (sends w) as [|[e|] ss]; discriminate.
Qed.

Lemma total_bind {A B} (m : M A) (k : A -> M B) :
  total m -> (forall a, total (k a)) -> total (bind m k).
Proof.
  intros Hm Hk w. unfold bind. specialize (Hm w).
  destruct (m w) as [[a|e|] w1]; simpl in *; [apply Hk | discriminate | congruence].
Qed.

Lemma total_try_catch {A} (m : M A) h :
  total m -> (forall e, total (h e)) -> total (try_catch m h).
Proof.
  intros Hm Hh w. unfold try_catch. specialize (Hm w).
  destruct (m w) as [[a|e|] w1]; simpl in *; [discriminate | apply Hh | congruence].
Qed.

Lemma total_nextPacket : total nextPacket.
Proof.
  intros w. pose proof (nextPacket_cases w) as C.
  destruct (conn (this w)) as [c|]; [|rewrite C; discriminate].
  destruct (reads w) as [|[[p|]|e| |] rest]; rewrite C; clear C;
    repeat match goal with
      | |- context [if ?b then _ else _] => destruct b
      | |- context [match ?x with inl _ => _ | inr _ => _ end] => destruct x
      end; first [discriminate | apply total_close_throw].
Qed.

(** A read that hands a packet over has taken one outcome off the script. *)
Lemma nextPacket_consumes w p w' :
  nextPacket w = (Normal p, w') ->
  (List.length (reads w') < List.length (reads w))%nat.
Proof.
  intros H. pose proof (nextPacket_cases w) as C.
  destruct (conn (this w)) as [c|]; [|rewrite C in H; discriminate].
  destruct (reads w) as [|[[q|]|e| |] rest]; rewrite C in H; clear C;
    repeat match type of H with
      | context [if ?b then _ else _] => destruct b
      | context [match ?x with inl _ => _ | inr _ => _ end] => destruct x
      end;
    try (apply close_throw_throws in H; destruct H as [e' H]);
    try discriminate; inversion H; subst; simpl; lia.
Qed.

Lemma read_fields_enough fuel : forall n acc w,
  (List.length (reads w) < fuel)%nat ->
  fst (read_fields fuel n acc w) <> OutOfFuel.
Proof.
  induction fuel as [|fuel IH]; intros n acc w Hf; [lia|].
  cbn [read_fields]. destruct (n =? 0); [discriminate|].
  unfold bind at 1. pose proof (@total_nextPacket w) as T.
  destruct (nextPacket w) as [[p|e|] w1] eqn:E; simpl in T; [|discriminate|congruence].
  apply nextPacket_consumes in E.
  unfold bind at 1. destruct (parseField (body p)); cbn [lift throw ret]; [discriminate|].
  apply IH. lia.
Qed.

Lemma read_rows_enough fuel : forall fieldList acc w,
  (List.length (reads w) < fuel)%nat ->
  fst (read_rows fuel fieldList acc w) <> OutOfFuel.
Proof.
  induction fuel as [|fuel IH]; intros fieldList acc w Hf; [lia|].
  cbn [read_rows].
  unfold bind at 1. pose proof (@total_nextPacket w) as T.
  destruct (nextPacket w) as [[p|e|] w1] eqn:E; simpl in T; [|discriminate|congruence].
  apply nextPacket_consumes in E.
  destruct (PacketType_eqb (type p) EOF); [discriminate|].
  unfold bind at 1. destruct (parseRow (body p) fieldList); cbn [lift throw ret]; [discriminate|].
  apply IH. lia.
Qed.

Lemma total_fueled_fields {B} n acc (k : list FieldInfo -> M B) :
  (forall a, total (k a)) ->
  total (fuel <- pending_reads ;; fieldList <- read_fields fuel n acc ;; k fieldList).
Proof.
  intros Hk w. unfold bind at 1, pending_reads at 1. unfold bind.
  pose proof (@read_fields_enough (S (List.length (reads w))) n acc w (Nat.lt_succ_diag_r _)) as T.
  destruct (read_fields _ n acc w) as [[a|e|] w1]; simpl in *;
    [apply Hk | discriminate | congruence].
Qed.

Lemma total_fueled_rows {B} fieldList acc (k : list Row -> M B) :
  (forall a, total (k a)) ->
  total (fuel <- pending_reads ;; rowList <- read_rows fuel fieldList acc ;; k rowList).
Proof.
  intros Hk w. unfold bind at 1, pending_reads at 1. unfold bind.
  pose proof (@read_rows_enough (S (List.length (reads w))) fieldList acc w (Nat.lt_succ_diag_r _)) as T.
  destruct (read_rows _ fieldList acc w) as [[a|e|] w1]; simpl in *;
    [apply Hk | discriminate | congruence].
Qed.

Ltac total_step :=
  lazymatch goal with
  | |- total (bind pending_reads (fun _ => bind (read_fields _ _ _) _)) =>
      apply total_fueled_fields; intros ?
  | |- total (bind pending_reads (fun _ => bind (read_rows _ _ _) _)) =>
      apply total_fueled_rows; intros ?
  | |- total (bind _ _) => apply total_bind; [|intros ?]
  | |- total (try_catch _ _) => apply total_try_catch; [|intros ?]
  | |- total nextPacket => apply total_nextPacket
  | |- total (if ?b then _ else _) => destruct b
  | |- total (match ?x with (_, _) => _ end) => destruct x
  | |- total (match ?x with Some _ => _ | None => _ end) => destruct x
  | |- total (ret _) => apply total_ret
  | |- total (throw _) => apply total_throw
  | |- total (lift _) => apply total_lift
  | |- total (gets _) => apply total_gets
  | |- total (assign _) => apply total_assign
  | |- total (assign_state _) => apply total_assign_state
  | |- total (log_info _) => apply total_log_info
  | |- total (log_error _) => apply total_log_error
  | |- total close => apply total_close
  | |- total (Deno_connect _ _) => apply total_Deno_connect
  | |- total (SendPacket_send _ _ _) => apply total_send
  end.

Lemma total_execute sql params : total (execute sql params).
Proof. unfold execute. repeat total_step. Qed.

Lemma total_query sql params : total (query sql params).
Proof. unfold query. repeat total_step. apply total_execute. Qed.

Lemma total_connect : total connect.
Proof. unfold connect, _connect. repeat total_step. apply total_execute. Qed.

(** Every call returns or throws: the fuel of the model never runs out. *)
Lemma perform_total call : total (perform call).
Proof.
  destruct call; cbn [perform].
  - apply total_connect.
  - apply total_bind; [apply total_execute | intros; apply total_ret].
  - apply total_bind; [apply total_query | intros; apply total_ret].
  - apply total_close.
Qed.

(** * Further properties of the methods *)

(** ** [execute]: the failures of one exchange *)

Lemma try_catch_Throw {A} (m : M A) h w e w' :
  m w = (Throw e, w') -> try_catch m h w = h e w'.
Proof. intros H. unfold try_catch. rewrite H. reflexivity. Qed.

(** A send on an open connection that the script makes fail. *)
Lemma send_refused w c data seq e :
  conn (this w) = Some c ->
  send_error w = Some e ->
  (c0 <- gets conn ;; SendPacket_send data seq c0) w
  = (Throw e, with_sends (List.tl (sends w)) (record (EvSend c data seq) w)).
Proof.
  intros Hc Hs. unfold bind, gets. rewrite Hc.
  unfold SendPacket_send, send_error in *.
  destruct w as [self rs ss ds os nr tr]; simpl in *.
  destruct ss as [|[e'|] ss]; simpl; try discriminate. congruence.
Qed.

(** [execute] when the send is refused. *)
Lemma execute_send_refused sql params w c data e :
  state (this w) = CONNECTED ->
  conn (this w) = Some c ->
  In c (open_rids w) ->
  buildQuery sql params = inr data ->
  send_error w = Some e ->
  execute sql params w
  = (Throw e,
     closed_world (with_sends (List.tl (sends w)) (record (EvSend c data 0) w))).
Proof.
  intros Hs Hc Ho Hb Hse.
  unfold execute.
  unfold bind at 1, gets at 1. rewrite Hs. cbn [ConnectionState_eqb negb].
  rewrite Hb. cbn [lift]. unfold bind at 1. cbn [ret].
  erewrite bind_Throw; [reflexivity|].
  erewrite try_catch_Throw by (apply send_refused; [exact Hc | exact Hse]).
  erewrite bind_Normal by reflexivity.
  cbn [this with_sends record]. rewrite Hs. cbn [ConnectionState_eqb negb].
  erewrite bind_Normal
    by (apply close_run, socket_open_of with (c := c); [exact Hc | exact Ho]).
  reflexivity.
Qed.

(** X1.  When the send of the query fails, [execute] closes the connection
    and rethrows the error of the send: the state is CLOSED, the socket is
    closed, and no read has been made.  The socket is open when the send is
    tried, as it is on every connection that its own methods have brought
    to CONNECTED. *)
Theorem execute_send_fails sql params w c data e :
  state (this w) = CONNECTED ->
  conn (this w) = Some c ->
  In c (open_rids w) ->
  buildQuery sql params = inr data ->
  send_error w = Some e ->
  exists w',
    execute sql params w = (Throw e, w')
    /\ this w' = set_state CLOSED (this w)
    /\ ~ In c (open_rids w')
    /\ reads w' = reads w
    /\ trace w' = trace w ++ [EvSend c data 0; EvInfo "close connection";
                              EvState CLOSING; EvClose c; EvState CLOSED].
Proof.
  intros Hs Hc Ho Hb Hse.
  rewrite (execute_send_refused sql params w Hs Hc Ho Hb Hse).
  eexists. split; [reflexivity|].
  split; [reflexivity|].
  split.
  - match goal with |- ~ In _ (open_rids (closed_world ?W)) =>
      pose proof (closed_world_socket W) as S end.
    cbn [this with_sends record] in S. rewrite Hc in S. exact S.
  - split; [reflexivity|].
    unfold closed_world. cbn [trace this with_sends record]. rewrite Hc.
    rewrite <- app_assoc. reflexivity.
Qed.

(** The first read of [execute]: what [nextPacket] throws there, [execute]
    throws. *)
Lemma execute_first_read_throws sql params w c data e w1 :
  state (this w) = CONNECTED ->
  conn (this w) = Some c ->
  buildQuery sql params = inr data ->
  send_error w = None ->
  nextPacket (sent c data 0 w) = (Throw e, w1) ->
  execute sql params w = (Throw e, w1).
Proof.
  intros Hs Hc Hb Hse Hn.
  execute_to_first_read Hs Hc Hb Hse.
  erewrite bind_Throw by exact Hn. reflexivity.
Qed.

(** A packet tagged ERR makes [nextPacket] throw its message; nothing is
    closed. *)
Lemma nextPacket_ERR w c p rest error :
  conn (this w) = Some c ->
  reads w = arrive p :: rest ->
  type p = ERR ->
  parseError (BufferReader.skip 1 (body p)) (this w) = inr error ->
  nextPacket w = (Throw (Error_ (message error)), received c rest w).
Proof.
  intros Hc Hr Ht He. pose proof (nextPacket_cases w) as C.
  rewrite Hc, Hr in C. unfold arrive in C. rewrite Ht, He in C. exact C.
Qed.

(** X2.  When the server answers the query with an ERR packet, [execute]
    fails with an [Error] carrying the server's message and does not close:
    the connection object is as before, still CONNECTED, its socket still
    open, and exactly that one packet has been read. *)
Theorem execute_server_error sql params w c data p rest error :
  state (this w) = CONNECTED ->
  conn (this w) = Some c ->
  buildQuery sql params = inr data ->
  send_error w = None ->
  reads w = arrive p :: rest ->
  type p = ERR ->
  parseError (BufferReader.skip 1 (body p)) (this w) = inr error ->
  exists w',
    execute sql params w = (Throw (Error_ (message error)), w')
    /\ this w' = this w
    /\ open_rids w' = open_rids w
    /\ reads w' = rest.
Proof.
  intros Hs Hc Hb Hse Hr Ht He.
  eexists. split.
  - eapply execute_first_read_throws; try eassumption.
    eapply nextPacket_ERR; [exact Hc | exact Hr | exact Ht | exact He].
  - repeat split.
Qed.

(** X3.  When the peer has closed the stream (the read yields no packet),
    [execute] fails with [ReadError] "Connection closed unexpectedly" and
    the connection, whose socket is still open on this side, is closed:
    state CLOSED, socket closed. *)
Theorem execute_peer_closed sql params w c data rest :
  state (this w) = CONNECTED ->
  conn (this w) = Some c ->
  In c (open_rids w) ->
  buildQuery sql params = inr data ->
  send_error w = None ->
  reads w = Resolves None :: rest ->
  exists w',
    execute sql params w
    = (Throw (ReadError "Connection closed unexpectedly"), w')
    /\ this w' = set_state CLOSED (this w)
    /\ ~ In c (open_rids w')
    /\ reads w' = rest.
Proof.
  intros Hs Hc Ho Hb Hse Hr.
  eexists. split.
  - eapply execute_first_read_throws; try eassumption.
    eapply nextPacket_closes with (c := c) (rest := rest);
      [exact Hc | exact Ho | exact Hr | right; split; reflexivity].
  - split; [reflexivity|]. split; [|reflexivity].
    match goal with |- ~ In _ (open_rids (closed_world ?W)) =>
      pose proof (closed_world_socket W) as S end.
    cbn [this received reading with_reads sent with_sends record] in S.
    rewrite Hc in S. exact S.
Qed.

(** X4.  When a read fails on a socket that is still open, and no timeout
    has been flagged, [execute] closes the connection and fails with the
    error of the read itself. *)
Theorem execute_read_fails sql params w c data e rest :
  state (this w) = CONNECTED ->
  conn (this w) = Some c ->
  In c (open_rids w) ->
  _timedOut (this w) = false ->
  buildQuery sql params = inr data ->
  send_error w = None ->
  reads w = Rejects e :: rest ->
  exists w',
    execute sql params w = (Throw e, w')
    /\ this w' = set_state CLOSED (this w)
    /\ ~ In c (open_rids w')
    /\ reads w' = rest.
Proof.
  intros Hs Hc Ho Hf Hb Hse Hr.
  eexists. split.
  - eapply execute_first_read_throws; try eassumption.
    eapply nextPacket_closes with (c := c) (rest := rest);
      [exact Hc | exact Ho | exact Hr | left; split; [reflexivity | exact Hf]].
  - split; [reflexivity|]. split; [|reflexivity].
    match goal with |- ~ In _ (open_rids (closed_world ?W)) =>
      pose proof (closed_world_socket W) as S end.
    cbn [this received reading with_reads sent with_sends record] in S.
    rewrite Hc in S. exact S.
Qed.

(** A read on an open socket into which a [close()] of the caller falls. *)
Lemma nextPacket_cancelled w c rest :
  conn (this w) = Some c ->
  In c (open_rids w) ->
  _timedOut (this w) = false ->
  reads w = CallerCloses :: rest ->
  nextPacket w
  = (Throw BadResource,
     stuck_world c
       (record EvClearTimeout (closed_world (with_reads rest (reading c w))))).
Proof.
  intros Hc Ho Hf Hr. pose proof (nextPacket_cases w) as C.
  rewrite Hc, Hr, Hf in C. rewrite C.
  rewrite close_run
    by (apply socket_open_of with (c := c); [exact Hc | exact Ho]).
  cbn [snd]. apply close_throw_stuck; [exact Hc|].
  match goal with |- ~ In _ (open_rids (record _ (closed_world ?W))) =>
    pose proof (closed_world_socket W) as S end.
  cbn [this with_reads reading record] in S. rewrite Hc in S. exact S.
Qed.

(** X20.  The cancellation path.  When the caller calls [close()] while
    [execute] waits for a packet, that [close()] goes through and aborts the
    read; the handler of [nextPacket] then calls [close()] again, on the
    socket just closed, and [conn.close()] throws.  [execute] fails with
    that [BadResource], neither the error of the read nor a "closed"
    error, and the second [close()] leaves the state CLOSING: the states
    written are CLOSING, CLOSED, CLOSING. *)
Theorem execute_cancelled sql params w c data rest :
  state (this w) = CONNECTED ->
  conn (this w) = Some c ->
  In c (open_rids w) ->
  _timedOut (this w) = false ->
  buildQuery sql params = inr data ->
  send_error w = None ->
  reads w = CallerCloses :: rest ->
  exists w',
    execute sql params w = (Throw BadResource, w')
    /\ this w' = set_state CLOSING (this w)
    /\ ~ In c (open_rids w')
    /\ reads w' = rest
    /\ state_writes (trace w')
       = state_writes (trace w) ++ [CLOSING; CLOSED; CLOSING].
Proof.
  intros Hs Hc Ho Hf Hb Hse Hr.
  eexists. split.
  - eapply execute_first_read_throws; try eassumption.
    eapply nextPacket_cancelled with (c := c) (rest := rest);
      [exact Hc | exact Ho | exact Hf | exact Hr].
  - split; [reflexivity|]. split; [|split; [reflexivity|]].
    + cbn [open_rids stuck_world record].
      match goal with |- ~ In _ (open_rids (closed_world ?W)) =>
        pose proof (closed_world_socket W) as S end.
      cbn [this with_reads reading sent with_sends record] in S.
      rewrite Hc in S. exact S.
    + unfold stuck_world. cbn [trace record]. rewrite !state_writes_app.
      rewrite closed_world_state_writes.
      cbn [trace with_reads reading sent with_sends record].
      rewrite !state_writes_app. simpl. rewrite !app_nil_r, <- !app_assoc.
      reflexivity.
Qed.

(** The row loop over packets that decode: it goes on, with less fuel, on
    what follows them. *)
Lemma read_rows_prefix c fieldList pkts : forall rs acc fuel tail w,
  conn (this w) = Some c ->
  reads w = map arrive pkts ++ tail ->
  Forall (fun p => type p <> ERR /\ type p <> EOF) pkts ->
  Forall2 (fun p r => parseRow (body p) fieldList = inr r) pkts rs ->
  exists w1,
    read_rows (List.length pkts + fuel) fieldList acc w
    = read_rows fuel fieldList (acc ++ rs) w1
    /\ reads_on w tail w1.
Proof.
  induction pkts as [|p pkts IH]; intros rs acc fuel tail w Hc Hr Ht Hp.
  - inversion Hp; subst. exists w. rewrite app_nil_r. split; [reflexivity|].
    simpl in Hr. rewrite <- Hr. apply reads_on_refl.
  - inversion Hp as [|p' r ps rs' Hpr Hrest]; subst.
    inversion Ht as [|p' ps [Htp Hte] Htrest]; subst.
    simpl in Hr. cbn [List.length Nat.add read_rows].
    erewrite bind_Normal by (eapply nextPacket_arrive; eassumption).
    replace (PacketType_eqb (type p) EOF) with false
      by (destruct (type p); simpl; congruence).
    rewrite Hpr. cbn [lift]. unfold bind at 1. cbn [ret].
    destruct (IH rs' (acc ++ [r]) fuel tail
                (received c (map arrive pkts ++ tail) w))
      as (w1 & E & R); auto.
    exists w1. rewrite E. rewrite <- app_assoc. simpl. split; [reflexivity|].
    eapply reads_on_trans; [apply reads_on_received | exact R].
Qed.

(** [execute] on a result set, up to the row loop, with the socket as it
    was. *)
Lemma execute_result_set_rows
    sql params w c data hdr n b fieldPkts fieldList legacy tail :
  state (this w) = CONNECTED ->
  conn (this w) = Some c ->
  buildQuery sql params = inr data ->
  send_error w = None ->
  reads w = arrive hdr :: map arrive fieldPkts ++ map arrive legacy ++ tail ->
  type hdr <> OK -> type hdr <> ERR ->
  BufferReader.readEncodedLen (body hdr) = inr (n, b) ->
  n = Z.of_nat (List.length fieldPkts) ->
  Forall (fun p => type p <> ERR) fieldPkts ->
  Forall2 (fun p f => parseField (body p) = inr f) fieldPkts fieldList ->
  List.length legacy = (if lessThan57 (this w) then 1 else 0)%nat ->
  Forall (fun p => type p <> ERR) legacy ->
  exists w1,
    execute sql params w
    = (rowList <- read_rows (S (List.length tail)) fieldList [] ;;
       ret {| affectedRows := None; lastInsertId := None;
              fields := Some fieldList; rows := Some rowList |}) w1
    /\ this w1 = this w /\ reads w1 = tail /\ open_rids w1 = open_rids w.
Proof.
  intros Hs Hc Hb Hse Hr Hok Herr Hn Hlen Hft Hfp Hll Hlt.
  execute_to_first_read Hs Hc Hb Hse.
  erewrite bind_Normal
    by (eapply nextPacket_arrive; [exact Hc | exact Hr | exact Herr]).
  replace (PacketType_eqb (type hdr) OK) with false
    by (destruct (type hdr); simpl; congruence).
  rewrite Hn. cbn [lift]. unfold bind at 1. cbn [ret].
  unfold bind at 1, pending_reads at 1.
  match goal with
  | |- exists _, bind (read_fields ?fu _ _) _ ?w0 = _ /\ _ =>
      edestruct read_fields_arrive
        with (acc := @nil FieldInfo) (fuel := fu) (w := w0)
             (tail := map arrive legacy ++ tail)
        as (w2 & E & R);
        [exact Hc | reflexivity | exact Hft | exact Hfp | |]
  end.
  - simpl. rewrite length_app, length_map. lia.
  - subst n. erewrite bind_Normal by exact E.
    destruct R as (R1 & R2 & R3 & R4 & R5 & R6).
    unfold bind at 1, gets at 1. rewrite R1. simpl this.
    destruct (lessThan57 (this w)).
    + destruct legacy as [|x [|y legacy]]; try discriminate Hll.
      inversion Hlt as [|x' l' Hx _]; subst. simpl in R2.
      erewrite bind_Normal.
      2:{ erewrite bind_Normal; [reflexivity|].
          eapply nextPacket_arrive; [rewrite R1; exact Hc | exact R2 | exact Hx]. }
      unfold bind at 1, pending_reads at 1. simpl.
      eexists. split; [reflexivity|].
      split; [simpl; rewrite R1; reflexivity|].
      split; [reflexivity | simpl; rewrite R5; reflexivity].
    + destruct legacy as [|x legacy]; try discriminate Hll.
      simpl in R2. unfold bind at 1. cbn [ret].
      unfold bind at 1, pending_reads at 1. rewrite R2.
      exists w2. split; [reflexivity|].
      split; [rewrite R1; reflexivity|]. split; [exact R2 | rewrite R5; reflexivity].
Qed.

(** X5.  When an ERR packet arrives among the rows of a result set,
    [execute] fails with an [Error] carrying the server's message; the rows
    decoded so far are not returned, the connection object is as before and
    its socket still open, and the packets after the ERR packet are left
    unread. *)
Theorem execute_error_among_rows
    sql params w c data hdr n b fieldPkts fieldList legacy rowPkts rowList bad
    error rest :
  state (this w) = CONNECTED ->
  conn (this w) = Some c ->
  buildQuery sql params = inr data ->
  send_error w = None ->
  reads w = arrive hdr :: map arrive fieldPkts ++ map arrive legacy
              ++ map arrive rowPkts ++ arrive bad :: rest ->
  type hdr <> OK -> type hdr <> ERR ->
  BufferReader.readEncodedLen (body hdr) = inr (n, b) ->
  n = Z.of_nat (List.length fieldPkts) ->
  Forall (fun p => type p <> ERR) fieldPkts ->
  Forall2 (fun p f => parseField (body p) = inr f) fieldPkts fieldList ->
  List.length legacy = (if lessThan57 (this w) then 1 else 0)%nat ->
  Forall (fun p => type p <> ERR) legacy ->
  Forall (fun p => type p <> ERR /\ type p <> EOF) rowPkts ->
  Forall2 (fun p r => parseRow (body p) fieldList = inr r) rowPkts rowList ->
  type bad = ERR ->
  parseError (BufferReader.skip 1 (body bad)) (this w) = inr error ->
  exists w',
    execute sql params w = (Throw (Error_ (message error)), w')
    /\ this w' = this w
    /\ open_rids w' = open_rids w
    /\ reads w' = rest.
Proof.
  intros Hs Hc Hb Hse Hr Hok Herr Hn Hlen Hft Hfp Hll Hlt Hrt Hrp Hbt Hbe.
  edestruct execute_result_set_rows as (w1 & E & T1 & R1 & O1);
    [exact Hs | exact Hc | exact Hb | exact Hse | exact Hr | exact Hok | exact Herr
    | exact Hn | exact Hlen | exact Hft | exact Hfp | exact Hll | exact Hlt |].
  rewrite E. clear E.
  replace (S (List.length (map arrive rowPkts ++ arrive bad :: rest)))
    with (List.length rowPkts + S (S (List.length rest)))%nat
    by (rewrite length_app, length_map; simpl; lia).
  edestruct read_rows_prefix
    with (acc := @nil Row) (fuel := S (S (List.length rest)))
    as (w2 & E2 & T2 & R2 & S2 & D2 & O2 & N2);
    [rewrite T1; exact Hc | exact R1 | exact Hrt | exact Hrp |].
  unfold bind at 1. rewrite E2. cbn [read_rows].
  erewrite bind_Throw.
  2:{ eapply nextPacket_ERR; [rewrite T2, T1; exact Hc | exact R2 | exact Hbt |].
      rewrite T2, T1. exact Hbe. }
  eexists. split; [reflexivity|].
  cbn [this open_rids reads received reading with_reads record].
  repeat split; congruence.
Qed.

(** X6.  When a row fails to decode, [execute] fails with the error of the
    decoder and closes nothing: the connection object is as before,
    CONNECTED, and the rest of the response is left unread on the socket. *)
Theorem execute_row_undecodable
    sql params w c data hdr n b fieldPkts fieldList legacy rowPkts rowList bad
    e rest :
  state (this w) = CONNECTED ->
  conn (this w) = Some c ->
  buildQuery sql params = inr data ->
  send_error w = None ->
  reads w = arrive hdr :: map arrive fieldPkts ++ map arrive legacy
              ++ map arrive rowPkts ++ arrive bad :: rest ->
  type hdr <> OK -> type hdr <> ERR ->
  BufferReader.readEncodedLen (body hdr) = inr (n, b) ->
  n = Z.of_nat (List.length fieldPkts) ->
  Forall (fun p => type p <> ERR) fieldPkts ->
  Forall2 (fun p f => parseField (body p) = inr f) fieldPkts fieldList ->
  List.length legacy = (if lessThan57 (this w) then 1 else 0)%nat ->
  Forall (fun p => type p <> ERR) legacy ->
  Forall (fun p => type p <> ERR /\ type p <> EOF) rowPkts ->
  Forall2 (fun p r => parseRow (body p) fieldList = inr r) rowPkts rowList ->
  type bad <> ERR -> type bad <> EOF ->
  parseRow (body bad) fieldList = inl e ->
  exists w',
    execute sql params w = (Throw e, w')
    /\ this w' = this w
    /\ open_rids w' = open_rids w
    /\ reads w' = rest.
Proof.
  intros Hs Hc Hb Hse Hr Hok Herr Hn Hlen Hft Hfp Hll Hlt Hrt Hrp Hb1 Hb2 Hbe.
  edestruct execute_result_set_rows as (w1 & E & T1 & R1 & O1);
    [exact Hs | exact Hc | exact Hb | exact Hse | exact Hr | exact Hok | exact Herr
    | exact Hn | exact Hlen | exact Hft | exact Hfp | exact Hll | exact Hlt |].
  rewrite E. clear E.
  replace (S (List.length (map arrive rowPkts ++ arrive bad :: rest)))
    with (List.length rowPkts + S (S (List.length rest)))%nat
    by (rewrite length_app, length_map; simpl; lia).
  edestruct read_rows_prefix
    with (acc := @nil Row) (fuel := S (S (List.length rest)))
    as (w2 & E2 & T2 & R2 & S2 & D2 & O2 & N2);
    [rewrite T1; exact Hc | exact R1 | exact Hrt | exact Hrp |].
  unfold bind at 1. rewrite E2. cbn [read_rows].
  erewrite bind_Normal
    by (eapply nextPacket_arrive; [rewrite T2, T1; exact Hc | exact R2 | exact Hb1]).
  replace (PacketType_eqb (type bad) EOF) with false
    by (destruct (type bad); simpl; congruence).
  rewrite Hbe. cbn [lift]. unfold bind at 1, throw at 1.
  eexists. split; [reflexivity|].
  cbn [this open_rids reads received reading with_reads record].
  repeat split; congruence.
Qed.

(** ** [connect]: the ways through the handshake *)

Lemma sent_packets_app t1 t2 :
  sent_packets (t1 ++ t2) = sent_packets t1 ++ sent_packets t2.
Proof.
  induction t1 as [|ev t1 IH]; [reflexivity|].
  destruct ev; simpl; rewrite ?IH; reflexivity.
Qed.

Lemma Deno_connect_refused host p w e :
  dial_error w = Some e ->
  Deno_connect host p w
  = (Throw e, with_dials (List.tl (dials w)) (record (EvConnect host p) w)).
Proof.
  unfold dial_error, Deno_connect. cbn [dials record].
  destruct (dials w) as [|[e'|] ds]; intros H; try discriminate.
  inversion H; subst. reflexivity.
Qed.

(** [connect()] when the dial is refused. *)
Lemma connect_dial_refused w e :
  dial_error w = Some e ->
  connect w
  = (Throw e,
     with_dials (List.tl (dials w))
       (record (EvConnect (hostname (config (this w)))
                  match port (config (this w)) with Some p => p | None => 3306 end)
          (record (EvInfo ("connecting " ++ JsString.of_opt (hostname (config (this w)))
                           ++ ":"
                           ++ JsString.of_Z
                                match port (config (this w)) with
                                | Some p => p
                                | None => 3306
                                end)%string) w))).
Proof.
  intros Hd. unfold connect, _connect.
  unfold bind at 1, gets at 1.
  unfold bind at 1, log_info at 1.
  erewrite bind_Throw by (apply Deno_connect_refused; exact Hd).
  reflexivity.
Qed.

(** X7.  When [Deno.connect] fails, [connect()] fails with the same error
    before its handler is in place: nothing is closed and the connection
    object is untouched, so a fresh connection stays CONNECTING, with no
    socket. *)
Theorem connect_dial_fails w e :
  dial_error w = Some e ->
  exists w',
    connect w = (Throw e, w')
    /\ this w' = this w
    /\ open_rids w' = open_rids w
    /\ reads w' = reads w
    /\ state_writes (trace w') = state_writes (trace w).
Proof.
  intros Hd. rewrite (connect_dial_refused w Hd).
  eexists. split; [reflexivity|].
  cbn [this open_rids reads trace with_dials record].
  repeat split. rewrite !state_writes_app. simpl. rewrite !app_nil_r. reflexivity.
Qed.

(** X8.  When the handshake packet arrives and parses, the auth response is
    sent, and the second reply is a packet that is not tagged ERR and whose
    first byte is not 0xff, [connect()] returns with the state CONNECTED,
    the socket open and recorded in [conn], the version and the capabilities
    of the handshake recorded; the auth response went out with sequence
    number 1; with no charset configured nothing else is sent or read. *)
Theorem connect_succeeds w p1 p2 rest hs data header b :
  dial_error w = None ->
  reads w = arrive p1 :: arrive p2 :: rest ->
  type p1 <> ERR ->
  parseHandshake (body p1) = inr hs ->
  buildAuth hs (auth_params (config (this w))) = inr data ->
  send_error w = None ->
  type p2 <> ERR ->
  BufferReader.readUint8 (body p2) = inr (header, b) ->
  header <> 255 ->
  truthy (charset (config (this w))) = false ->
  exists w',
    connect w = (Normal tt, w')
    /\ this w' = set_state CONNECTED (handshaken hs (next_rid w) (this w))
    /\ open_rids w' = next_rid w :: open_rids w
    /\ reads w' = rest
    /\ state_writes (trace w') = state_writes (trace w) ++ [CONNECTING; CONNECTED]
    /\ sent_packets (trace w') = sent_packets (trace w) ++ [(next_rid w, data, 1)].
Proof.
  intros Hd Hr Ht Hh Ha Hs Ht2 Hb Hh255 Hcs.
  connect_to_second_read Hd Hr Ht Hh Ha Hs.
  erewrite try_catch_bind_Normal
    by (eapply nextPacket_arrive; [reflexivity | reflexivity | exact Ht2]).
  rewrite Hb. erewrite try_catch_bind_Normal by reflexivity.
  cbv iota beta.
  replace (header =? 255) with false by (symmetry; apply Z.eqb_neq; exact Hh255).
  cbv iota. rewrite Hcs. cbv iota.
  erewrite try_catch_Normal.
  2:{ erewrite bind_Normal.
      2:{ erewrite bind_Normal by reflexivity. reflexivity. }
      reflexivity. }
  eexists. split; [reflexivity|].
  split; [reflexivity|]. split; [reflexivity|]. split; [reflexivity|].
  split.
  - cbn [trace this record with_this received reading with_reads sent with_sends
         dialed with_next_rid with_open_rids with_dials].
    rewrite !state_writes_app. simpl. rewrite !app_nil_r, <- app_assoc. reflexivity.
  - cbn [trace this record with_this received reading with_reads sent with_sends
         dialed with_next_rid with_open_rids with_dials next_rid].
    rewrite !sent_packets_app. simpl. rewrite !app_nil_r. reflexivity.
Qed.

(** [execute] on an OK packet, with the world it leaves. *)
Lemma execute_OK_run sql params w c data p rest a l b1 b2 :
  state (this w) = CONNECTED ->
  conn (this w) = Some c ->
  buildQuery sql params = inr data ->
  send_error w = None ->
  reads w = arrive p :: rest ->
  type p = OK ->
  BufferReader.readEncodedLen (BufferReader.skip 1 (body p)) = inr (a, b1) ->
  BufferReader.readEncodedLen b1 = inr (l, b2) ->
  execute sql params w
  = (Normal {| affectedRows := Some a; lastInsertId := Some l;
               fields := None; rows := None |},
     received c rest (sent c data 0 w)).
Proof.
  intros Hs Hc Hb Hse Hr Ht Ha Hl.
  execute_to_first_read Hs Hc Hb Hse.
  erewrite bind_Normal
    by (eapply nextPacket_arrive; [exact Hc | exact Hr | congruence]).
  rewrite Ht. cbn [PacketType_eqb].
  rewrite Ha. cbn [lift]. unfold bind at 1. cbn [ret].
  rewrite Hl. cbn [lift]. unfold bind at 1. cbn [ret].
  reflexivity.
Qed.

(** X9.  With a charset configured, [connect()] goes on after CONNECTED to
    send ["SET NAMES " + charset] as a query, with sequence number 0, and
    reads its reply; on an OK reply it returns, CONNECTED. *)
Theorem connect_sets_charset
    w p1 p2 p3 rest hs data header b cs query_data a l b1 b2 :
  dial_error w = None ->
  reads w = arrive p1 :: arrive p2 :: arrive p3 :: rest ->
  type p1 <> ERR ->
  parseHandshake (body p1) = inr hs ->
  buildAuth hs (auth_params (config (this w))) = inr data ->
  sends w = [] ->
  type p2 <> ERR ->
  BufferReader.readUint8 (body p2) = inr (header, b) ->
  header <> 255 ->
  charset (config (this w)) = Some cs ->
  cs <> EmptyString ->
  buildQuery ("SET NAMES " ++ cs) None = inr query_data ->
  type p3 = OK ->
  BufferReader.readEncodedLen (BufferReader.skip 1 (body p3)) = inr (a, b1) ->
  BufferReader.readEncodedLen b1 = inr (l, b2) ->
  exists w',
    connect w = (Normal tt, w')
    /\ this w' = set_state CONNECTED (handshaken hs (next_rid w) (this w))
    /\ open_rids w' = next_rid w :: open_rids w
    /\ reads w' = rest
    /\ sent_packets (trace w')
       = sent_packets (trace w)
         ++ [(next_rid w, data, 1); (next_rid w, query_data, 0)].
Proof.
  intros Hd Hr Ht Hh Ha Hs Ht2 Hb Hh255 Hcs Hne Hq Ht3 Ha3 Hl3.
  assert (Hse : send_error w = None) by (unfold send_error; rewrite Hs; reflexivity).
  connect_to_second_read Hd Hr Ht Hh Ha Hse.
  erewrite try_catch_bind_Normal
    by (eapply nextPacket_arrive; [reflexivity | reflexivity | exact Ht2]).
  rewrite Hb. erewrite try_catch_bind_Normal by reflexivity.
  cbv iota beta.
  replace (header =? 255) with false by (symmetry; apply Z.eqb_neq; exact Hh255).
  cbv iota. rewrite Hcs.
  replace (truthy (Some cs)) with true
    by (unfold truthy; destruct (String.eqb_spec cs EmptyString); [contradiction | reflexivity]).
  cbv iota. cbn [JsString.of_opt].
  erewrite try_catch_Normal.
  2:{ erewrite bind_Normal.
      2:{ erewrite bind_Normal by reflexivity. reflexivity. }
      erewrite bind_Normal.
      2:{ eapply execute_OK_run with (c := next_rid w) (rest := rest);
            [reflexivity | reflexivity | exact Hq | | reflexivity | exact Ht3
            | exact Ha3 | exact Hl3].
          unfold send_error. cbn [sends record with_this received reading with_reads sent
                                  with_sends dialed with_next_rid with_open_rids with_dials].
          rewrite Hs. reflexivity. }
      reflexivity. }
  eexists. split; [reflexivity|].
  split; [reflexivity|]. split; [reflexivity|]. split; [reflexivity|].
  cbn [trace this record with_this received reading with_reads sent with_sends
       dialed with_next_rid with_open_rids with_dials next_rid].
  rewrite !sent_packets_app. simpl. rewrite !app_nil_r, <- app_assoc. reflexivity.
Qed.

(** X10.  When the server answers that [SET NAMES] with an ERR packet,
    [connect()] fails with an [Error] carrying the server's message, and its
    handler closes the connection that had reached CONNECTED: the state ends
    CLOSED and the socket is closed. *)
Theorem connect_charset_refused
    w p1 p2 p3 rest hs data header b cs query_data error :
  dial_error w = None ->
  reads w = arrive p1 :: arrive p2 :: arrive p3 :: rest ->
  type p1 <> ERR ->
  parseHandshake (body p1) = inr hs ->
  buildAuth hs (auth_params (config (this w))) = inr data ->
  sends w = [] ->
  type p2 <> ERR ->
  BufferReader.readUint8 (body p2) = inr (header, b) ->
  header <> 255 ->
  charset (config (this w)) = Some cs ->
  cs <> EmptyString ->
  buildQuery ("SET NAMES " ++ cs) None = inr query_data ->
  type p3 = ERR ->
  parseError (BufferReader.skip 1 (body p3))
    (set_state CONNECTED (handshaken hs (next_rid w) (this w))) = inr error ->
  exists w',
    connect w = (Throw (Error_ (message error)), w')
    /\ this w' = set_state CLOSED (handshaken hs (next_rid w) (this w))
    /\ ~ In (next_rid w) (open_rids w')
    /\ state_writes (trace w')
       = state_writes (trace w) ++ [CONNECTING; CONNECTED; CLOSING; CLOSED].
Proof.
  intros Hd Hr Ht Hh Ha Hs Ht2 Hb Hh255 Hcs Hne Hq Ht3 He.
  assert (Hse : send_error w = None) by (unfold send_error; rewrite Hs; reflexivity).
  connect_to_second_read Hd Hr Ht Hh Ha Hse.
  erewrite try_catch_bind_Normal
    by (eapply nextPacket_arrive; [reflexivity | reflexivity | exact Ht2]).
  rewrite Hb. erewrite try_catch_bind_Normal by reflexivity.
  cbv iota beta.
  replace (header =? 255) with false by (symmetry; apply Z.eqb_neq; exact Hh255).
  cbv iota. rewrite Hcs.
  replace (truthy (Some cs)) with true
    by (unfold truthy; destruct (String.eqb_spec cs EmptyString); [contradiction | reflexivity]).
  cbv iota. cbn [JsString.of_opt].
  erewrite try_catch_Throw.
  2:{ erewrite bind_Normal.
      2:{ erewrite bind_Normal by reflexivity. reflexivity. }
      erewrite bind_Throw; [reflexivity|].
      eapply execute_first_read_throws with (c := next_rid w);
        [reflexivity | reflexivity | exact Hq | |].
      - unfold send_error. cbn [sends record with_this received reading with_reads sent
                                  with_sends dialed with_next_rid with_open_rids with_dials].
        rewrite Hs. reflexivity.
      - eapply nextPacket_ERR with (rest := rest);
          [reflexivity | reflexivity | exact Ht3 | exact He]. }
  erewrite bind_Normal by reflexivity.
  cbn [this record with_this received reading with_reads sent with_sends state set_state
       ConnectionState_eqb negb].
  erewrite bind_Normal
    by (apply close_run, socket_open_of with (c := next_rid w);
        [reflexivity | left; reflexivity]).
  unfold throw.
  eexists. split; [reflexivity|].
  split; [reflexivity|].
  split.
  - match goal with |- ~ In _ (open_rids (closed_world ?W)) =>
      pose proof (closed_world_socket W) as S end.
    cbn [this record with_this received reading with_reads sent with_sends conn
         set_state set_capabilities set_serverVersion set_conn] in S. exact S.
  - rewrite closed_world_state_writes.
    cbn [trace this record with_this received reading with_reads sent with_sends
         dialed with_next_rid with_open_rids with_dials].
    rewrite !state_writes_app. simpl. rewrite !app_nil_r, <- !app_assoc. reflexivity.
Qed.

(** ** Outcomes of the methods

    A relation between the world before and the world after for a call
    that returns, and one that also sees the error for a call that fails,
    are carried through the methods from what they say of the sends, of
    [nextPacket] and of [close()]. *)

Lemma pending_timers_app t1 t2 :
  pending_timers (t1 ++ t2) = pending_timers t1 + pending_timers t2.
Proof.
  induction t1 as [|ev t1 IH]; [reflexivity|].
  destruct ev; simpl; rewrite ?IH; lia.
Qed.

Lemma obeys_weaken (G G' : World -> World -> Prop)
    (F F' : JsError -> World -> World -> Prop) {A} (m : M A) :
  (forall w w', G w w' -> G' w w') ->
  (forall e w w', F e w w' -> F' e w w') ->
  obeys G F m -> obeys G' F' m.
Proof.
  intros HG HF Hm w r w' H. apply Hm in H. destruct r; auto.
Qed.

(** The handler of [_connect] and of the send in [execute]: close unless
    already CLOSED, then rethrow. *)
Lemma guarded_close_cases {A} error w :
  (st <- gets state ;;
   (if negb (ConnectionState_eqb st CLOSED) then close else ret tt) ;;
   @throw A error) w
  = if ConnectionState_eqb (state (this w)) CLOSED
    then (Throw error, w)
    else (close ;; throw error) w.
Proof.
  unfold bind at 1, gets at 1.
  destruct (ConnectionState_eqb (state (this w)) CLOSED); reflexivity.
Qed.

Lemma ConnectionState_eqb_CLOSED s :
  ConnectionState_eqb s CLOSED = true <-> s = CLOSED.
Proof. destruct s; split; intros H; try discriminate; reflexivity. Qed.

Section Outcomes.

Variable G : World -> World -> Prop.
Variable F : JsError -> World -> World -> Prop.

Hypothesis G_refl : forall w, G w w.
Hypothesis F_refl : forall e w, F e w w.
Hypothesis G_trans : forall w1 w2 w3, G w1 w2 -> G w2 w3 -> G w1 w3.
Hypothesis G_F : forall e w1 w2 w3, G w1 w2 -> F e w2 w3 -> F e w1 w3.
Hypothesis F_close : forall e w1 w2 r w',
  F e w1 w2 -> state (this w2) <> CLOSED -> close w2 = (r, w') ->
  F (match r with Throw e' => e' | _ => e end) w1 w'.
Hypothesis obeys_send : forall data seq c, obeys G F (SendPacket_send data seq c).
Hypothesis obeys_nextPacket : obeys G F nextPacket.

Ltac obeys_prim :=
  let w := fresh "w" in
  let r := fresh "r" in
  let w' := fresh "w'" in
  let H := fresh "H" in
  intros w r w' H; cbv beta delta [ret throw gets pending_reads] in H;
  inversion H; subst; clear H; auto.

Lemma obeys_ret {A} (a : A) : obeys G F (ret a).
Proof. obeys_prim. Qed.

Lemma obeys_throw {A} e : obeys G F (@throw A e).
Proof. obeys_prim. Qed.

Lemma obeys_lift {A} (x : Result A) : obeys G F (lift x).
Proof. destruct x; [apply obeys_throw | apply obeys_ret]. Qed.

Lemma obeys_gets {A} (f : Connection -> A) : obeys G F (gets f).
Proof. obeys_prim. Qed.

Lemma obeys_pending_reads : obeys G F pending_reads.
Proof. obeys_prim. Qed.

Lemma obeys_bind {A B} (m : M A) (k : A -> M B) :
  obeys G F m -> (forall a, obeys G F (k a)) -> obeys G F (bind m k).
Proof.
  intros Hm Hk w r w' H. unfold bind in H.
  destruct (m w) as [[a|e|] w1] eqn:E; apply Hm in E.
  - apply Hk in H. destruct r; eauto.
  - inversion H; subst. exact E.
  - inversion H; subst. exact E.
Qed.

Lemma obeys_guarded_close {A} (m : M A) :
  obeys G F m ->
  obeys G F
    (try_catch m
       (fun error =>
          st <- gets state ;;
          (if negb (ConnectionState_eqb st CLOSED) then close else ret tt) ;;
          throw error)).
Proof.
  intros Hm w r w' H. unfold try_catch in H.
  destruct (m w) as [[a|e|] w1] eqn:E; apply Hm in E.
  - inversion H; subst. exact E.
  - rewrite guarded_close_cases in H.
    destruct (ConnectionState_eqb (state (this w1)) CLOSED) eqn:S.
    + inversion H; subst. exact E.
    + assert (N : state (this w1) <> CLOSED).
      { intros C. apply ConnectionState_eqb_CLOSED in C. congruence. }
      unfold bind in H.
      destruct (close_cases w1) as [[_ C]|(c & _ & _ & C)]; rewrite C in H;
        inversion H; subst; apply (F_close E N C).
  - inversion H; subst. exact E.
Qed.

Lemma obeys_read_fields fuel : forall n acc, obeys G F (read_fields fuel n acc).
Proof.
  induction fuel as [|fuel IH]; intros n acc.
  - intros w r w' H. inversion H; subst. intros e. apply F_refl.
  - cbn [read_fields]. destruct (n =? 0); [apply obeys_ret|].
    apply obeys_bind; [apply obeys_nextPacket|]. intros packet.
    apply obeys_bind; [apply obeys_lift|]. intros field.
    apply IH.
Qed.

Lemma obeys_read_rows fuel : forall fieldList acc,
  obeys G F (read_rows fuel fieldList acc).
Proof.
  induction fuel as [|fuel IH]; intros fieldList acc.
  - intros w r w' H. inversion H; subst. intros e. apply F_refl.
  - cbn [read_rows].
    apply obeys_bind; [apply obeys_nextPacket|]. intros receive.
    destruct (PacketType_eqb (type receive) EOF); [apply obeys_ret|].
    apply obeys_bind; [apply obeys_lift|]. intros row.
    apply IH.
Qed.

Ltac obeys_step :=
  lazymatch goal with
  | |- obeys _ _ (bind close (fun _ => throw _)) => auto
  | |- obeys _ _ (bind _ _) => apply obeys_bind; [|intros ?]
  | |- obeys _ _ (try_catch _ _) => apply obeys_guarded_close
  | |- obeys _ _ nextPacket => apply obeys_nextPacket
  | |- obeys _ _ (read_fields _ _ _) => apply obeys_read_fields
  | |- obeys _ _ (read_rows _ _ _) => apply obeys_read_rows
  | |- obeys _ _ (if ?b then _ else _) => destruct b
  | |- obeys _ _ (match ?x with (_, _) => _ end) => destruct x
  | |- obeys _ _ (match ?x with Some _ => _ | None => _ end) => destruct x
  | |- obeys _ _ (ret _) => apply obeys_ret
  | |- obeys _ _ (throw _) => apply obeys_throw
  | |- obeys _ _ (lift _) => apply obeys_lift
  | |- obeys _ _ (gets _) => apply obeys_gets
  | |- obeys _ _ pending_reads => apply obeys_pending_reads
  | |- obeys _ _ (SendPacket_send _ _ _) => apply obeys_send
  | |- obeys _ _ (execute _ _) => unfold execute
  | |- obeys _ _ (assign_state CONNECTING) => assumption
  | |- obeys _ _ (assign_state CONNECTED) => assumption
  | |- obeys _ _ (log_info _) => auto
  | |- obeys _ _ (log_error _) => auto
  | |- obeys _ _ (assign _) => auto
  | |- obeys _ _ (Deno_connect _ _) => auto
  end.

Lemma obeys_execute sql params : obeys G F (execute sql params).
Proof. repeat obeys_step. Qed.

Lemma obeys_query sql params : obeys G F (query sql params).
Proof. unfold query. repeat obeys_step. Qed.

(** [execute] from its first read on, the query sent. *)
Lemma obeys_after_send sql params w c data r w' :
  state (this w) = CONNECTED ->
  conn (this w) = Some c ->
  buildQuery sql params = inr data ->
  send_error w = None ->
  execute sql params w = (r, w') ->
  match r with
  | Normal _ => G (sent c data 0 w) w'
  | Throw e => F e (sent c data 0 w) w'
  | OutOfFuel => forall e, F e (sent c data 0 w) w'
  end.
Proof.
  intros Hs Hc Hb Hse. execute_to_first_read Hs Hc Hb Hse.
  match goal with
  | |- ?M (sent c data 0 w) = _ -> _ =>
      assert (OB : obeys G F M) by (repeat obeys_step);
      intros H; apply OB in H; exact H
  end.
Qed.

(** *** [connect()] *)

Hypothesis obeys_log_info : forall msg, obeys G F (log_info msg).
Hypothesis obeys_log_error : forall msg, obeys G F (log_error msg).
Hypothesis obeys_CONNECTING : obeys G F (assign_state CONNECTING).
Hypothesis obeys_CONNECTED : obeys G F (assign_state CONNECTED).
Hypothesis obeys_set_serverVersion : forall v, obeys G F (assign (set_serverVersion v)).
Hypothesis obeys_set_capabilities : forall v, obeys G F (assign (set_capabilities v)).
Hypothesis obeys_close_throw : forall e, obeys G F (close ;; @throw unit e).

(** From the dial on: [connect()] returns as its [try] block does, and
    fails as its [try] block and then its handler do. *)
Lemma connect_after_dial w r w' :
  dial_error w = None ->
  connect w = (r, w') ->
  match r with
  | Normal _ => G (dialed_in w) w'
  | Throw e => F e (dialed_in w) w'
  | OutOfFuel => forall e, F e (dialed_in w) w'
  end.
Proof.
  intros Hd. unfold connect, _connect.
  unfold bind at 1, gets at 1.
  unfold bind at 1, log_info at 1.
  erewrite bind_Normal by (apply Deno_connect_through; exact Hd).
  unfold bind at 1, assign at 1.
  match goal with
  | |- try_catch _ _ ?W = _ -> _ =>
      replace (dialed_in w) with W by reflexivity; generalize W
  end.
  intros w1 H.
  match type of H with
  | try_catch ?B ?h _ = _ =>
      assert (OB : obeys G F (try_catch B h)) by (repeat obeys_step)
  end.
  apply OB in H. exact H.
Qed.

Hypothesis obeys_dial : forall host p, obeys G F (Deno_connect host p).
Hypothesis obeys_set_conn : forall c, obeys G F (assign (set_conn c)).
Hypothesis obeys_close : obeys G F close.

Lemma obeys_connect : obeys G F connect.
Proof. unfold connect, _connect. repeat obeys_step. Qed.

Lemma obeys_perform call : obeys G F (perform call).
Proof.
  destruct call; cbn [perform].
  - apply obeys_connect.
  - apply obeys_bind; [apply obeys_execute | intros; apply obeys_ret].
  - apply obeys_bind; [apply obeys_query | intros; apply obeys_ret].
  - apply obeys_close.
Qed.

End Outcomes.

(** *** What [close()] leaves in the trace *)

Lemma trace_close w :
  exists t, trace (snd (close w)) = trace w ++ t /\ Forall silent t.
Proof.
  destruct (close_leaves w) as [[_ E]|(c & Hc & _ & E)]; rewrite E.
  - unfold closed_world. cbn [trace]. eexists. split; [reflexivity|].
    destruct (conn (this w)); repeat constructor.
  - unfold stuck_world. cbn [trace]. eexists. split; [reflexivity|].
    repeat constructor.
Qed.

Lemma pending_timers_silent t : Forall silent t -> pending_timers t = 0.
Proof.
  induction 1 as [|ev t S _ IH]; [reflexivity|].
  destruct ev; try destruct S; simpl; exact IH.
Qed.

Lemma sent_packets_silent t : Forall silent t -> sent_packets t = [].
Proof.
  induction 1 as [|ev t S _ IH]; [reflexivity|].
  destruct ev; try destruct S; simpl; exact IH.
Qed.

Lemma timer_firings_silent t : Forall silent t -> timer_firings t = 0%nat.
Proof.
  induction 1 as [|ev t S _ IH]; [reflexivity|].
  destruct ev; try destruct S; simpl; exact IH.
Qed.

Lemma pending_close w :
  pending_timers (trace (snd (close w))) = pending_timers (trace w).
Proof.
  destruct (trace_close w) as (t & E & S). rewrite E, pending_timers_app.
  rewrite (pending_timers_silent S). lia.
Qed.

Lemma sent_close w :
  sent_packets (trace (snd (close w))) = sent_packets (trace w).
Proof.
  destruct (trace_close w) as (t & E & S). rewrite E, sent_packets_app.
  rewrite (sent_packets_silent S). apply app_nil_r.
Qed.

Lemma firings_close w :
  timer_firings (trace (snd (close w))) = timer_firings (trace w).
Proof.
  destruct (trace_close w) as (t & E & S). rewrite E, timer_firings_app.
  rewrite (timer_firings_silent S). lia.
Qed.

(** [close ;; throw e] ends where [close()] ends, and throws. *)
Lemma close_throw_leaves {A} e w r w' :
  (close ;; @throw A e) w = (r, w') ->
  w' = snd (close w) /\ exists e', r = Throw e'.
Proof.
  unfold bind, throw.
  destruct (close_cases w) as [[_ E]|(c & _ & _ & E)]; rewrite E; intros H;
    inversion H; subst; split; try reflexivity; eauto.
Qed.

Lemma undisturbed_tail x rs : undisturbed (x :: rs) -> undisturbed rs.
Proof. intros U I. apply U. right. exact I. Qed.

Lemma undisturbed_head rs : ~ undisturbed (CallerCloses :: rs).
Proof. intros U. apply U. left. reflexivity. Qed.

(** *** A query leaves the connection alone or closes it *)

Lemma untouched_refl w : untouched w w.
Proof. split; reflexivity. Qed.

Lemma untouched_trans w1 w2 w3 :
  untouched w1 w2 -> untouched w2 w3 -> untouched w1 w3.
Proof. intros [A1 A2] [B1 B2]. split; congruence. Qed.

Lemma untouched_shut w1 w2 w3 :
  untouched w1 w2 -> shut w2 w3 -> shut w1 w3.
Proof.
  intros [A1 A2] (B1 & B2 & B3). rewrite A1, A2 in *. repeat split; assumption.
Qed.

Lemma untouched_socket_open w1 w2 :
  untouched w1 w2 -> socket_open w1 -> socket_open w2.
Proof. intros [A1 A2] O c Hc. rewrite A1 in Hc. rewrite A2. apply O, Hc. Qed.

Lemma untouched_close w1 w2 : untouched w1 w2 -> shut w1 (closed_world w2).
Proof.
  intros [A1 A2]. unfold shut, closed_world. cbn [this open_rids state set_state conn].
  rewrite A1, A2. repeat split.
Qed.

Lemma untouched_received c rest w : untouched w (received c rest w).
Proof. split; reflexivity. Qed.

(** A read that the timer cuts short on an open socket shuts the
    connection. *)
Lemma shut_timeout w W :
  untouched w W -> shut w (timeout_world W).
Proof.
  intros [A1 A2]. unfold shut, timeout_world, closed_world, flagged.
  cbn [this open_rids state set_state conn with_this record set_timedOut].
  rewrite A1, A2. repeat split.
Qed.

Lemma in_order_flagged w W :
  untouched w W -> socket_open w -> socket_open (flagged W).
Proof.
  intros [A1 A2] O c Hc. cbn in Hc. rewrite A1 in Hc. cbn. rewrite A2.
  apply O, Hc.
Qed.

Lemma calm_send data seq c :
  obeys calm (fun _ => calm_or_shut) (SendPacket_send data seq c).
Proof.
  intros w r w' H. destruct c as [c|]; simpl in H.
  - destruct (sends w) as [|[e|] ss]; inversion H; subst; intros [O U];
      try left; split; try (split; reflexivity); exact U.
  - inversion H; subst. intros _. left. split; reflexivity.
Qed.

Lemma calm_nextPacket : obeys calm (fun _ => calm_or_shut) nextPacket.
Proof.
  intros w r w' H. pose proof (nextPacket_cases w) as C.
  destruct (conn (this w)) as [c|] eqn:Hc.
  2:{ rewrite C in H. inversion H; subst. intros _. left. apply untouched_refl. }
  assert (SO : forall W, untouched w W -> socket_open w -> socket_open W)
    by (intros W; apply untouched_socket_open).
  destruct (reads w) as [|[[p|]|e| |] rest] eqn:Hr; rewrite C in H; clear C.
  - inversion H; subst. intros [O U]. right.
    rewrite close_run by (apply in_order_flagged with (w := w); [split; reflexivity | exact O]).
    apply shut_timeout. split; reflexivity.
  - destruct (PacketType_eqb (type p) ERR);
      [destruct (parseError _ _)|]; inversion H; subst; intros [O U];
      try left; try split; try apply untouched_received.
    rewrite Hr in U. exact (undisturbed_tail U).
  - apply close_throw_leaves in H. destruct H as [E [e' R]]. subst.
    intros [O U]. right.
    rewrite close_run by (apply (SO _ (untouched_received c rest w) O)).
    apply untouched_close, untouched_received.
  - destruct (_timedOut (this w)).
    + inversion H; subst. intros _. left. split; reflexivity.
    + apply close_throw_leaves in H. destruct H as [E [e' R]]. subst.
      intros [O U]. right.
      rewrite close_run by (apply (SO _ (untouched_received c rest w) O)).
      apply untouched_close, untouched_received.
  - inversion H; subst. intros [O U]. right.
    rewrite close_run by (apply in_order_flagged with (w := w); [split; reflexivity | exact O]).
    apply shut_timeout. split; reflexivity.
  - destruct r; [| |intros e0]; intros [O U]; rewrite Hr in U;
      destruct (undisturbed_head U).
Qed.

Lemma calm_laws :
  (forall w, calm w w)
  /\ (forall w1 w2 w3, calm w1 w2 -> calm w2 w3 -> calm w1 w3)
  /\ (forall w1 w2 w3, calm w1 w2 -> calm_or_shut w2 w3 -> calm_or_shut w1 w3).
Proof.
  split; [|split].
  - intros w [O U]. split; [apply untouched_refl | exact U].
  - intros w1 w2 w3 A B [O U]. destruct (A (conj O U)) as [A1 A2].
    destruct (B (conj (untouched_socket_open A1 O) A2)) as [B1 B2].
    split; [eapply untouched_trans; eassumption | exact B2].
  - intros w1 w2 w3 A B [O U]. destruct (A (conj O U)) as [A1 A2].
    destruct (B (conj (untouched_socket_open A1 O) A2)) as [B1|B1];
      [left; eapply untouched_trans | right; eapply untouched_shut]; eassumption.
Qed.

(** From a world in order, [execute] returns with nothing changed, and
    fails with nothing changed or with the connection closed. *)
Lemma calm_execute sql params :
  obeys calm (fun _ => calm_or_shut) (execute sql params).
Proof.
  destruct calm_laws as (L1 & L2 & L3).
  apply obeys_execute.
  - exact L1.
  - intros _ w _. left. apply untouched_refl.
  - exact L2.
  - intros _. exact L3.
  - intros e w1 w2 r w' A N C [O U]. right.
    destruct (A (conj O U)) as [A1|(A1 & _)]; [|contradiction].
    rewrite close_run in C by (apply (untouched_socket_open A1 O)).
    inversion C; subst. apply untouched_close, A1.
  - apply calm_send.
  - apply calm_nextPacket.
Qed.

Lemma calm_query sql params :
  obeys calm (fun _ => calm_or_shut) (query sql params).
Proof.
  destruct calm_laws as (L1 & L2 & L3).
  unfold query. apply obeys_bind; try assumption.
  - intros _. exact L3.
  - apply calm_execute.
  - intros res. destruct (rows res); intros w1 r1 w1' H1;
      inversion H1; subst; apply L1.
Qed.

(** X11.  Whatever the server does, [execute] and [query] leave a
    connection that they find in order in one of two conditions.  In order
    means that the socket of the connection is open when the call starts,
    and that the caller makes no [close()] while a read of the call is
    pending.  When they return, the connection object and the sockets are
    as before the call.  When they fail, either that holds as well, or the
    connection has been closed: the state is CLOSED and the socket of
    [conn] is closed, no other socket being touched. *)
Theorem query_leaves_or_closes sql params w :
  socket_open w ->
  undisturbed (reads w) ->
  (forall r w', execute sql params w = (r, w') -> leaves_or_closes w r w')
  /\ (forall r w', query sql params w = (r, w') -> leaves_or_closes w r w').
Proof.
  intros O U. split; intros r w' H.
  - pose proof (total_execute sql params w) as T. rewrite H in T.
    apply calm_execute in H.
    destruct r; [apply H | apply H | apply T; reflexivity]; split; assumption.
  - pose proof (total_query sql params w) as T. rewrite H in T.
    apply calm_query in H.
    destruct r; [apply H | apply H | apply T; reflexivity]; split; assumption.
Qed.

(** *** What the methods leave of the state and the socket, in any run *)

Lemma close_state w :
  state (this (snd (close w))) = CLOSED \/ state (this (snd (close w))) = CLOSING.
Proof.
  destruct (close_leaves w) as [[_ E]|(c & _ & _ & E)]; rewrite E;
    [left | right]; reflexivity.
Qed.

Lemma plain_send data seq c :
  obeys untouched (fun _ => untouched_or_closing) (SendPacket_send data seq c).
Proof.
  intros w r w' H. destruct c as [c|]; simpl in H.
  - destruct (sends w) as [|[e|] ss]; inversion H; subst;
      try left; split; reflexivity.
  - inversion H; subst. left. split; reflexivity.
Qed.

Lemma plain_nextPacket :
  obeys untouched (fun _ => untouched_or_closing) nextPacket.
Proof.
  intros w r w' H. pose proof (nextPacket_cases w) as C.
  destruct (conn (this w)) as [c|] eqn:Hc.
  2:{ rewrite C in H. inversion H; subst. left. apply untouched_refl. }
  destruct (reads w) as [|[[p|]|e| |] rest] eqn:Hr; rewrite C in H; clear C;
    repeat match type of H with
      | context [if ?b then _ else _] => destruct b
      | context [match ?x with inl _ => _ | inr _ => _ end] => destruct x
      end;
    first
      [ apply close_throw_leaves in H; destruct H as [E [e' R]]; subst;
        right; apply close_state
      | inversion H; subst;
        first [ apply untouched_received
              | left; apply untouched_received
              | left; split; reflexivity
              | right; apply close_state ] ].
Qed.

(** In any run, [execute] returns with nothing changed, and fails with
    nothing changed or after a [close()]. *)
Lemma plain_execute sql params :
  obeys untouched (fun _ => untouched_or_closing) (execute sql params).
Proof.
  apply obeys_execute.
  - apply untouched_refl.
  - intros _ w. left. apply untouched_refl.
  - apply untouched_trans.
  - intros _ w1 w2 w3 A [B|B]; [left; eapply untouched_trans; eassumption | right; exact B].
  - intros e w1 w2 r w' _ _ C. right.
    change w' with (snd (r, w')). rewrite <- C. apply close_state.
  - apply plain_send.
  - apply plain_nextPacket.
Qed.

Lemma close_leaves_closing w :
  state (this (snd (close w))) = CLOSED
  \/ state (this (snd (close w))) = CLOSING
     /\ exists c, conn (this (snd (close w))) = Some c
                  /\ ~ In c (open_rids (snd (close w))).
Proof.
  destruct (close_leaves w) as [[_ E]|(c & Hc & N & E)]; rewrite E;
    [left; reflexivity | right].
  split; [reflexivity|]. exists c. split; [exact Hc | exact N].
Qed.

(** When the guarded handler has run and the call has failed, the state is
    CLOSED, or it is CLOSING and the socket of [conn] is not open. *)
Lemma guarded_close_throws {A} (m : M A) w e w' :
  try_catch m
    (fun error =>
       st <- gets state ;;
       (if negb (ConnectionState_eqb st CLOSED) then close else ret tt) ;;
       throw error) w = (Throw e, w') ->
  state (this w') = CLOSED
  \/ state (this w') = CLOSING
     /\ exists c, conn (this w') = Some c /\ ~ In c (open_rids w').
Proof.
  unfold try_catch. destruct (m w) as [[a|e1|] w1]; try discriminate.
  rewrite guarded_close_cases.
  destruct (ConnectionState_eqb (state (this w1)) CLOSED) eqn:S; intros H.
  - inversion H; subst. left. apply ConnectionState_eqb_CLOSED, S.
  - apply close_throw_leaves in H. destruct H as [E _]. subst.
    apply close_leaves_closing.
Qed.

Lemma connect_throws_closing w e w' :
  dial_error w = None ->
  connect w = (Throw e, w') ->
  state (this w') = CLOSED
  \/ state (this w') = CLOSING
     /\ exists c, conn (this w') = Some c /\ ~ In c (open_rids w').
Proof.
  intros Hd. unfold connect, _connect.
  unfold bind at 1, gets at 1.
  unfold bind at 1, log_info at 1.
  erewrite bind_Normal by (apply Deno_connect_through; exact Hd).
  unfold bind at 1, assign at 1.
  apply guarded_close_throws.
Qed.

Lemma returns_CONNECTED_bind {A B} (m : M A) (k : A -> M B) :
  (forall a, returns_CONNECTED (k a)) -> returns_CONNECTED (bind m k).
Proof.
  intros Hk w b w' H. unfold bind in H.
  destruct (m w) as [[a|e|] w1]; [eapply Hk, H | discriminate | discriminate].
Qed.

Lemma returns_CONNECTED_guarded_close {A} (m : M A) :
  returns_CONNECTED m ->
  returns_CONNECTED
    (try_catch m
       (fun error =>
          st <- gets state ;;
          (if negb (ConnectionState_eqb st CLOSED) then close else ret tt) ;;
          throw error)).
Proof.
  intros Hm w a w' H. unfold try_catch in H.
  destruct (m w) as [[a1|e|] w1] eqn:E.
  - inversion H; subst. eapply Hm, E.
  - rewrite guarded_close_cases in H.
    destruct (ConnectionState_eqb (state (this w1)) CLOSED); [discriminate|].
    apply close_throw_leaves in H. destruct H as [_ [e' R]]. discriminate.
  - discriminate.
Qed.

(** [connect()] returns only past the assignment of CONNECTED, and the
    [SET NAMES] query that may follow returns with the state as it was. *)
Lemma connect_returns_CONNECTED : returns_CONNECTED connect.
Proof.
  unfold connect, _connect.
  do 4 (apply returns_CONNECTED_bind; intros ?).
  apply returns_CONNECTED_guarded_close.
  do 10 (apply returns_CONNECTED_bind; intros ?).
  match goal with |- returns_CONNECTED (match ?x with (_, _) => _ end) =>
    destruct x as [header body1] end.
  intros w r w' H. unfold bind at 1 in H.
  destruct (header =? 255).
  - unfold bind at 1, gets at 1 in H.
    destruct (parseError body1 (this w)) as [e|error]; [discriminate|].
    unfold lift at 1, bind at 1, ret at 1 in H.
    unfold bind at 1, log_error at 1 in H.
    match type of H with
    | (let (_, _) := ?X in _) = _ =>
        destruct X as [r1 w1] eqn:E1; apply close_throw_leaves in E1;
        destruct E1 as [_ [e' R]]; subst r1; discriminate
    end.
  - unfold bind at 1, log_info at 1, assign_state at 1 in H.
    match type of H with
    | (if ?b then _ else _) ?W = _ =>
        assert (S : state (this W) = CONNECTED) by reflexivity;
        remember W as w1 eqn:EW; clear EW; destruct b
    end.
    + unfold bind in H.
      match type of H with
      | context [execute ?q ?p w1] => destruct (execute q p w1) as [[res|e|] w2] eqn:E
      end; try discriminate.
      inversion H; subst. apply plain_execute in E. destruct E as [E _].
      rewrite E. exact S.
    + inversion H; subst. exact S.
Qed.

(** *** [connect()] and its socket *)

Lemma held_in_order c w : held c w -> in_order w.
Proof.
  intros (Hc & I & U). split; [apply socket_open_of with (c := c); assumption | exact U].
Qed.

Lemma steady_refl w : steady w w.
Proof. repeat split; auto. Qed.

Lemma steady_trans w1 w2 w3 : steady w1 w2 -> steady w2 w3 -> steady w1 w3.
Proof.
  intros (A1 & A2 & A3) (B1 & B2 & B3). repeat split; [congruence | auto | auto].
Qed.

Lemma untouched_steady w w' : untouched w w' -> steady w w'.
Proof. intros [A1 A2]. unfold steady. rewrite A1. repeat split; auto. Qed.

Lemma calm_keeps_socket c w w' : calm w w' -> keeps_socket c w w'.
Proof.
  intros A H. destruct (A (held_in_order H)) as [[A1 A2] U].
  destruct H as (Hc & I & _). split; [|apply untouched_steady; split; assumption].
  rewrite <- A1, <- A2 in *. repeat split; assumption.
Qed.

Lemma calm_keeps_or_releases c w w' :
  calm_or_shut w w' -> keeps_or_releases c w w'.
Proof.
  intros A H. destruct (A (held_in_order H)) as [[A1 A2]|(B1 & B2 & B3)];
    destruct H as (Hc & I & _).
  - left. split; [rewrite A1; exact Hc|]. split; [rewrite A2; exact I|].
    apply untouched_steady. split; assumption.
  - right. rewrite Hc in *. repeat split; try assumption.
    rewrite B3. apply remove_In.
Qed.

Lemma held_closed c w :
  conn (this w) = Some c -> In c (open_rids w) ->
  close w = (Normal tt, closed_world w)
  /\ released c (closed_world w)
  /\ open_rids (closed_world w) = List.remove Nat.eq_dec c (open_rids w).
Proof.
  intros Hc I. split; [apply close_run, socket_open_of with (c := c); assumption|].
  pose proof (closed_world_socket w) as S. rewrite Hc in S.
  split; [repeat split; [exact Hc | exact S]|].
  unfold closed_world. cbn [open_rids]. rewrite Hc. reflexivity.
Qed.

Ltac held_prim :=
  let w := fresh "w" in
  let r := fresh "r" in
  let w' := fresh "w'" in
  let H := fresh "H" in
  intros w r w' H;
  cbv beta delta [log_info log_error assign assign_state] in H;
  inversion H; subst; clear H;
  intros (L1 & L2 & L3); split; [repeat split; assumption|];
  repeat split; cbn; auto; discriminate.

(** From the dial on, [connect()] keeps the socket it dialed, or releases
    it. *)
Lemma connect_socket w r w' :
  dial_error w = None ->
  undisturbed (reads w) ->
  connect w = (r, w') ->
  match r with
  | Normal _ =>
      held (next_rid w) w' /\ steady (dialed_in w) w'
  | _ =>
      (conn (this w') = Some (next_rid w) /\ In (next_rid w) (open_rids w')
       /\ steady (dialed_in w) w')
      \/ (released (next_rid w) w'
          /\ open_rids w'
             = List.remove Nat.eq_dec (next_rid w) (next_rid w :: open_rids w))
  end.
Proof.
  intros Hd U H.
  assert (L : held (next_rid w) (dialed_in w)).
  { repeat split; [left; reflexivity | exact U]. }
  apply (@connect_after_dial (keeps_socket (next_rid w))
           (fun _ => keeps_or_releases (next_rid w))) in H; try exact Hd.
  - destruct r; [exact (H L) | exact (H L) | exact (H (Thrown EmptyString) L)].
  - intros w0 L0. split; [exact L0 | apply steady_refl].
  - intros _ w0 L0. left. destruct L0 as (L1 & L2 & _).
    split; [exact L1|]. split; [exact L2 | apply steady_refl].
  - intros w1 w2 w3 A B L1. destruct (A L1) as [A1 A2]. destruct (B A1) as [B1 B2].
    split; [exact B1 | eapply steady_trans; eassumption].
  - intros _ w1 w2 w3 A B L1. destruct (A L1) as [A1 A2].
    destruct (B A1) as [(B1 & B2 & B3)|(B1 & B2)].
    + left. split; [exact B1|]. split; [exact B2 | eapply steady_trans; eassumption].
    + right. split; [exact B1|]. rewrite B2. destruct A2 as [A2 _]. rewrite A2.
      reflexivity.
  - intros e w1 w2 r0 w0' A N C L1. right.
    destruct (A L1) as [(B1 & B2 & B3)|((_ & _ & B1) & _)]; [|contradiction].
    destruct (held_closed w2 B1 B2) as (E & R & O). rewrite E in C.
    inversion C; subst. split; [exact R|]. rewrite O.
    destruct B3 as [B3 _]. rewrite B3. reflexivity.
  - intros data seq c. eapply obeys_weaken; [| |apply calm_send].
    + apply calm_keeps_socket.
    + intros e0. apply calm_keeps_or_releases.
  - eapply obeys_weaken; [| |apply calm_nextPacket].
    + apply calm_keeps_socket.
    + intros e0. apply calm_keeps_or_releases.
  - intros msg. held_prim.
  - intros msg. held_prim.
  - held_prim.
  - held_prim.
  - intros v. held_prim.
  - intros v. held_prim.
  - intros e w0 r0 w0' H0.
    assert (K : held (next_rid w) w0 ->
                (close ;; @throw unit e) w0 = (Throw e, closed_world w0)
                /\ released (next_rid w) (closed_world w0)
                /\ open_rids (closed_world w0)
                   = List.remove Nat.eq_dec (next_rid w) (open_rids w0)).
    { intros (L1 & L2 & L3). destruct (held_closed w0 L1 L2) as (E & R & O).
      split; [|split; assumption].
      erewrite bind_Normal by exact E. reflexivity. }
    destruct r0 as [a|e1|]; [| |intros e1].
    + intros L0. destruct (K L0) as (E & _). rewrite E in H0. discriminate.
    + intros L0. destruct (K L0) as (E & R & O). rewrite E in H0.
      inversion H0; subst. right. split; assumption.
    + intros L0. destruct (K L0) as (E & _). rewrite E in H0. discriminate.
Qed.

(** X12.  [connect()] does not leak a socket, on a connection that is not
    CLOSED and holds no open socket when the call starts, and whose caller
    makes no [close()] while a read of the call is pending.  When it
    returns, the state is CONNECTED and the new socket is open and held in
    [conn].  When it fails, either the dial itself failed and nothing has
    changed, or the new socket has been closed and the state is CLOSED:
    whatever went wrong after the dial (a read that fails or times out, a
    packet that does not parse, a refusal by the server, a failing
    [SET NAMES]), the handler has seen to the socket.  Either way, a socket
    that is open afterwards is the one the connection holds, or was open
    before and never the connection's. *)
Theorem connect_no_leak w r w' :
  state (this w) <> CLOSED ->
  (forall c, conn (this w) = Some c -> ~ In c (open_rids w)) ->
  undisturbed (reads w) ->
  connect w = (r, w') ->
  match r with
  | Normal _ =>
      state (this w') = CONNECTED /\ live (next_rid w) w'
      /\ (forall c, In c (open_rids w') ->
            c = next_rid w \/ In c (open_rids w) /\ conn (this w) <> Some c)
  | Throw e =>
      dial_error w = Some e /\ untouched w w'
      \/ released (next_rid w) w'
         /\ (forall c, In c (open_rids w') ->
               In c (open_rids w) /\ conn (this w) <> Some c)
  | OutOfFuel => False
  end.
Proof.
  intros Hs Hn U H.
  assert (Hn' : forall c, In c (open_rids w) ->
                  In c (open_rids w) /\ conn (this w) <> Some c).
  { intros c I. split; [exact I|]. intros C. exact (Hn c C I). }
  destruct (dial_error w) as [e|] eqn:Hd.
  - rewrite (connect_dial_refused w Hd) in H. inversion H; subst.
    left. repeat split.
  - pose proof (connect_socket w Hd U H) as S.
    destruct r as [a|e|];
      [| |apply (total_connect w); rewrite H; reflexivity].
    + destruct S as ((S1 & S2 & _) & S3 & S4 & _).
      pose proof (connect_returns_CONNECTED _ H) as C.
      split; [exact C|]. split.
      * repeat split; [exact S1 | exact S2 | congruence].
      * intros c I. rewrite S3 in I. destruct I as [I|I];
          [left; symmetry; exact I | right; apply Hn', I].
    + right. destruct S as [(S1 & S2 & _ & S3 & _)|(S1 & S2)].
      * exfalso.
        destruct (connect_throws_closing w Hd H) as [C|(_ & c & C1 & C2)].
        -- apply S3; [exact Hs | exact C].
        -- rewrite S1 in C1. inversion C1; subst. exact (C2 S2).
      * split; [exact S1|]. intros c I. rewrite S2 in I.
        apply in_remove in I. destruct I as [[I|I] N]; [congruence | apply Hn', I].
Qed.

(** X13.  On a connection that is CLOSED, [connect()] can leak its socket.
    It does not reset the state before the handshake, so when the server's
    first packet is an ERR packet the handler finds the state CLOSED and
    skips [close()]: the call fails with the server's message, and the
    socket just dialed stays open, held in [conn] of a connection whose
    state is CLOSED. *)
Theorem connect_CLOSED_leaks w p rest error :
  state (this w) = CLOSED ->
  dial_error w = None ->
  reads w = arrive p :: rest ->
  type p = ERR ->
  parseError (BufferReader.skip 1 (body p)) (this (dialed_in w)) = inr error ->
  exists w',
    connect w = (Throw (Error_ (message error)), w')
    /\ state (this w') = CLOSED
    /\ conn (this w') = Some (next_rid w)
    /\ In (next_rid w) (open_rids w')
    /\ state_writes (trace w') = state_writes (trace w).
Proof.
  intros Hs Hd Hr Ht He. unfold connect, _connect.
  unfold bind at 1, gets at 1.
  unfold bind at 1, log_info at 1.
  erewrite bind_Normal by (apply Deno_connect_through; exact Hd).
  unfold bind at 1, assign at 1.
  erewrite try_catch_bind_Throw
    by (eapply nextPacket_ERR with (rest := rest);
        [reflexivity | exact Hr | exact Ht | exact He]).
  unfold bind at 1, gets at 1.
  cbn [this received reading record with_reads with_this state set_conn dialed
       with_next_rid with_open_rids with_dials].
  rewrite Hs. cbn [ConnectionState_eqb negb].
  eexists. split; [reflexivity|].
  cbn [this received reading record with_reads with_this state set_conn dialed
       with_next_rid with_open_rids with_dials conn open_rids trace next_rid].
  split; [exact Hs|]. split; [reflexivity|]. split; [left; reflexivity|].
  rewrite !state_writes_app. simpl. rewrite !app_nil_r. reflexivity.
Qed.

(** *** Timers *)

Lemma pending_record ev w :
  pending_timers (trace (record ev w))
  = pending_timers (trace w) + pending_timers [ev].
Proof. unfold record. cbn [trace]. apply pending_timers_app. Qed.

Lemma pending_with_reads rs w :
  pending_timers (trace (with_reads rs w)) = pending_timers (trace w).
Proof. reflexivity. Qed.

Lemma pending_with_this c w :
  pending_timers (trace (with_this c w)) = pending_timers (trace w).
Proof. reflexivity. Qed.

Lemma pending_with_sends ss w :
  pending_timers (trace (with_sends ss w)) = pending_timers (trace w).
Proof. reflexivity. Qed.

Lemma pending_with_dials ds w :
  pending_timers (trace (with_dials ds w)) = pending_timers (trace w).
Proof. reflexivity. Qed.

Lemma pending_with_open_rids os w :
  pending_timers (trace (with_open_rids os w)) = pending_timers (trace w).
Proof. reflexivity. Qed.

Lemma pending_with_next_rid n w :
  pending_timers (trace (with_next_rid n w)) = pending_timers (trace w).
Proof. reflexivity. Qed.

Lemma pending_reading c w :
  pending_timers (trace (reading c w)) = pending_timers (trace w) + 1.
Proof. unfold reading. rewrite !pending_record. simpl. lia. Qed.

Lemma pending_received c rest w :
  pending_timers (trace (received c rest w)) = pending_timers (trace w).
Proof.
  unfold received. rewrite pending_record, pending_with_reads, pending_reading.
  simpl. lia.
Qed.

Lemma pending_flagged w :
  pending_timers (trace (flagged w)) = pending_timers (trace w) - 1.
Proof.
  unfold flagged. rewrite pending_with_this, !pending_record. simpl. lia.
Qed.

Ltac count_pending :=
  repeat first
    [ rewrite pending_close | rewrite pending_flagged | rewrite pending_received
    | rewrite pending_reading | rewrite pending_record
    | rewrite pending_with_reads | rewrite pending_with_this
    | rewrite pending_with_sends | rewrite pending_with_dials
    | rewrite pending_with_open_rids | rewrite pending_with_next_rid ];
  cbn [trace]; rewrite ?pending_timers_app; simpl; lia.

Lemma settles_nextPacket : obeys settles_ready (fun _ => settles) nextPacket.
Proof.
  intros w r w' H. pose proof (nextPacket_cases w) as C.
  destruct (conn (this w)) as [c|] eqn:Hc.
  2:{ rewrite C in H. inversion H; subst. intros _. reflexivity. }
  destruct (reads w) as [|[[p|]|e| |] rest] eqn:Hr; rewrite C in H; clear C;
    try (destruct (_timedOut (this w)) eqn:Hf);
    repeat match type of H with
      | context [if ?b then _ else _] => destruct b
      | context [match ?x with inl _ => _ | inr _ => _ end] => destruct x
      end;
    first
      [ apply close_throw_leaves in H; destruct H as [E [e' R]]; subst;
        intros Hf'; try congruence; count_pending
      | inversion H; subst; intros Hf'; try congruence;
        try split; try exact Hf'; count_pending ].
Qed.

Ltac settles_prim :=
  let w := fresh "w" in
  let r := fresh "r" in
  let w' := fresh "w'" in
  let H := fresh "H" in
  let Hf := fresh "Hf" in
  intros w r w' H;
  cbv beta delta [log_info log_error assign assign_state] in H;
  inversion H; subst; clear H; intros Hf;
  try split; try exact Hf; count_pending.

Lemma settles_close_throw {A} e :
  obeys settles_ready (fun _ => settles) (close ;; @throw A e).
Proof.
  intros w r w' H. apply close_throw_leaves in H. destruct H as [E [e' R]].
  subst. intros _. apply pending_close.
Qed.

(** With the flag down before a call, the call leaves no timer pending. *)
Lemma settles_perform call : obeys settles_ready (fun _ => settles) (perform call).
Proof.
  apply obeys_perform.
  - intros w Hf. split; [exact Hf | reflexivity].
  - intros _ w Hf. reflexivity.
  - intros w1 w2 w3 A B Hf. destruct (A Hf) as [A1 A2]. destruct (B A1) as [B1 B2].
    split; congruence.
  - intros _ w1 w2 w3 A B Hf. destruct (A Hf) as [A1 A2]. rewrite (B A1). exact A2.
  - intros e w1 w2 r w' A _ C Hf. rewrite <- (A Hf).
    change w' with (snd (r, w')). rewrite <- C. apply pending_close.
  - intros data seq c w r w' H. destruct c as [c|]; simpl in H.
    + destruct (sends w) as [|[e|] ss]; inversion H; subst; intros Hf;
        try split; try exact Hf; count_pending.
    + inversion H; subst. intros _. reflexivity.
  - apply settles_nextPacket.
  - intros msg. settles_prim.
  - intros msg. settles_prim.
  - settles_prim.
  - settles_prim.
  - intros v. settles_prim.
  - intros v. settles_prim.
  - intros e. apply settles_close_throw.
  - intros host p w r w' H. destruct (dial_error w) as [e|] eqn:Hd.
    + rewrite (Deno_connect_refused host p w Hd) in H. inversion H; subst.
      intros Hf. count_pending.
    + rewrite (Deno_connect_through host p w Hd) in H. inversion H; subst.
      intros Hf. split; [exact Hf|]. unfold dialed. count_pending.
  - intros c. settles_prim.
  - intros w r w' H.
    assert (E : w' = snd (close w)) by (rewrite H; reflexivity).
    assert (T : _timedOut (this (snd (close w))) = _timedOut (this w)).
    { destruct (close_leaves w) as [[_ L]|(c0 & _ & _ & L)]; rewrite L; reflexivity. }
    subst w'. destruct r; [| |intros e0]; intros Hf;
      try split; try (rewrite T; exact Hf); apply pending_close.
Qed.

(** X14.  No call leaves a timer behind.  On a connection whose flag
    [_timedOut] is down, every timer that [connect], [execute], [query] or
    [close] arms is cleared, or has gone off, by the time the call ends,
    whether it returns or fails. *)
Theorem timers_settled call w r w' :
  _timedOut (this w) = false ->
  perform call w = (r, w') ->
  pending_timers (trace w') = pending_timers (trace w).
Proof.
  intros Hf H. apply settles_perform in H. destruct r.
  - apply (H Hf).
  - apply (H Hf).
  - apply (H (Thrown EmptyString) Hf).
Qed.

(** X15.  The flag [_timedOut] changes what a failing read does.  On a
    connection that is CONNECTED with the flag up, as after a timeout and a
    reconnect, a read that fails for a reason of its own is reported as a
    timeout, the reason lost; [close()] is not called, so the state stays
    CONNECTED with the socket open; and the timer armed for the read is not
    cleared. *)
Theorem execute_stale_flag sql params w c data e rest :
  state (this w) = CONNECTED ->
  conn (this w) = Some c ->
  buildQuery sql params = inr data ->
  send_error w = None ->
  _timedOut (this w) = true ->
  reads w = Rejects e :: rest ->
  exists w',
    execute sql params w
    = (Throw (ResponseTimeoutError "Connection read timed out"), w')
    /\ this w' = this w
    /\ open_rids w' = open_rids w
    /\ reads w' = rest
    /\ pending_timers (trace w') = pending_timers (trace w) + 1.
Proof.
  intros Hs Hc Hb Hse Hf Hr.
  eexists. split.
  - eapply execute_first_read_throws; try eassumption.
    pose proof (nextPacket_cases (sent c data 0 w)) as C.
    cbn [this sent with_sends record reads] in C.
    rewrite Hc, Hr, Hf in C. exact C.
  - cbn [this open_rids reads trace with_reads reading sent with_sends record].
    repeat split. rewrite !pending_timers_app. simpl. lia.
Qed.

(** *** What a query writes *)

Lemma sendless_record ev w :
  sent_packets (trace (record ev w))
  = sent_packets (trace w) ++ sent_packets [ev].
Proof. unfold record. cbn [trace]. apply sent_packets_app. Qed.

Lemma sendless_reading c w : sendless w (reading c w).
Proof.
  unfold sendless, reading. rewrite !sendless_record. simpl.
  rewrite !app_nil_r. reflexivity.
Qed.

Lemma sendless_received c rest w : sendless w (received c rest w).
Proof.
  unfold sendless, received. rewrite sendless_record. simpl. rewrite app_nil_r.
  apply sendless_reading.
Qed.

Lemma sendless_flagged w : sendless w (flagged w).
Proof.
  unfold sendless, flagged. cbn [trace with_this]. rewrite !sendless_record.
  simpl. rewrite !app_nil_r. reflexivity.
Qed.

Lemma sendless_trans w1 w2 w3 : sendless w1 w2 -> sendless w2 w3 -> sendless w1 w3.
Proof. unfold sendless. congruence. Qed.

Lemma sendless_close w : sendless w (snd (close w)).
Proof. apply sent_close. Qed.

Lemma sendless_nextPacket : obeys sendless (fun _ => sendless) nextPacket.
Proof.
  intros w r w' H. pose proof (nextPacket_cases w) as C.
  destruct (conn (this w)) as [c|] eqn:Hc.
  2:{ rewrite C in H. inversion H; subst. reflexivity. }
  assert (R : forall rest, sendless w (with_reads rest (reading c w)))
    by (intros; apply (sendless_reading c w)).
  destruct (reads w) as [|[[p|]|e| |] rest] eqn:Hr; rewrite C in H; clear C;
    repeat match type of H with
      | context [if ?b then _ else _] => destruct b
      | context [match ?x with inl _ => _ | inr _ => _ end] => destruct x
      end;
    try (apply close_throw_leaves in H; destruct H as [E [e' R']]);
    try (inversion H); subst;
    repeat first
      [ apply sendless_received
      | apply (sendless_reading c w)
      | apply R
      | eapply sendless_trans; [|apply sendless_close]
      | eapply sendless_trans; [|apply sendless_flagged]
      | unfold sendless at 1; rewrite sendless_record; simpl; rewrite app_nil_r;
        fold (sendless w) ].
Qed.

(** X16.  One query, one packet.  On a connection that is CONNECTED,
    [execute] hands exactly one packet to the socket, the built query with
    sequence number 0, whether the send goes through or not and whatever
    the reply: the packets of a result set are read without anything being
    written back, and nothing is written when a read fails or times out. *)
Theorem execute_sends_once sql params w c data r w' :
  state (this w) = CONNECTED ->
  conn (this w) = Some c ->
  buildQuery sql params = inr data ->
  execute sql params w = (r, w') ->
  sent_packets (trace w') = sent_packets (trace w) ++ [(c, data, 0)].
Proof.
  intros Hs Hc Hb H.
  destruct (send_error w) as [e|] eqn:Hse.
  - assert (E : exists r1,
               execute sql params w
               = (r1, snd (close (with_sends (List.tl (sends w))
                                    (record (EvSend c data 0) w))))).
    { unfold execute.
      unfold bind at 1, gets at 1. rewrite Hs. cbn [ConnectionState_eqb negb].
      rewrite Hb. cbn [lift]. unfold bind at 1. cbn [ret].
      unfold bind at 1.
      erewrite try_catch_Throw by (apply send_refused; [exact Hc | exact Hse]).
      rewrite guarded_close_cases. cbn [this with_sends record]. rewrite Hs.
      cbn [ConnectionState_eqb].
      match goal with |- context [(close ;; throw e) ?W] =>
        destruct ((close ;; @throw unit e) W) as [r1 w1] eqn:E1;
        apply close_throw_leaves in E1; destruct E1 as [E1 [e' R1]]; subst
      end.
      eexists. reflexivity. }
    destruct E as [r1 E]. rewrite E in H. inversion H; subst.
    rewrite sent_close. cbn [trace with_sends]. rewrite sendless_record.
    reflexivity.
  - assert (S : sendless (sent c data 0 w) w').
    { eapply (@obeys_after_send sendless (fun _ => sendless)) in H; try eassumption.
      - destruct r; [exact H | exact H | exact (H (Thrown EmptyString))].
      - intros w0. reflexivity.
      - intros e0 w0. reflexivity.
      - apply sendless_trans.
      - intros e0. apply sendless_trans.
      - apply sendless_nextPacket. }
    rewrite S. unfold sent. cbn [trace with_sends]. rewrite sendless_record.
    reflexivity.
Qed.

(** X17.  A query that cannot be built is refused before anything is
    written: [execute] fails with what [buildQuery] threw and the world is
    as it was, so the connection stays CONNECTED and usable. *)
Theorem execute_unbuildable sql params w e :
  state (this w) = CONNECTED ->
  buildQuery sql params = inl e ->
  execute sql params w = (Throw e, w).
Proof.
  intros Hs Hb. unfold execute.
  unfold bind at 1, gets at 1. rewrite Hs. cbn [ConnectionState_eqb negb].
  rewrite Hb. reflexivity.
Qed.

(** *** What the calls do to the connection object *)

Lemma this_close w :
  this (snd (close w)) = set_state CLOSED (this w)
  \/ this (snd (close w)) = set_state CLOSING (this w).
Proof.
  destruct (close_leaves w) as [[_ E]|(c & _ & _ & E)]; rewrite E;
    [left | right]; reflexivity.
Qed.

Section ObjectInvariant.

Variable R : Connection -> Connection -> Prop.

Hypothesis R_refl : forall x, R x x.
Hypothesis R_trans : forall x y z, R x y -> R y z -> R x z.
Hypothesis R_CLOSED : forall x, R x (set_state CLOSED x).
Hypothesis R_CLOSING : forall x, R x (set_state CLOSING x).
Hypothesis R_CONNECTING : forall x, R x (set_state CONNECTING x).
Hypothesis R_CONNECTED : forall x, R x (set_state CONNECTED x).
Hypothesis R_timedOut : forall x, R x (set_timedOut true x).
Hypothesis R_conn : forall c x, R x (set_conn c x).
Hypothesis R_serverVersion : forall v x, R x (set_serverVersion v x).
Hypothesis R_capabilities : forall v x, R x (set_capabilities v x).

Ltac respects_prim :=
  let w := fresh "w" in
  let r := fresh "r" in
  let w' := fresh "w'" in
  let H := fresh "H" in
  intros w r w' H;
  cbv beta delta [log_info log_error assign assign_state] in H;
  inversion H; subst; clear H; cbn [this record with_this]; auto.

Lemma respects_close w : R (this w) (this (snd (close w))).
Proof. destruct (this_close w) as [E|E]; rewrite E; auto. Qed.

Lemma respects_close_throw {A} e :
  obeys (fun w w' => R (this w) (this w')) (fun _ w w' => R (this w) (this w'))
    (close ;; @throw A e).
Proof.
  intros w r w' H. apply close_throw_leaves in H. destruct H as [E [e' X]].
  subst. apply respects_close.
Qed.

Lemma respects_nextPacket :
  obeys (fun w w' => R (this w) (this w')) (fun _ w w' => R (this w) (this w'))
    nextPacket.
Proof.
  intros w r w' H. pose proof (nextPacket_cases w) as C.
  destruct (conn (this w)) as [c|] eqn:Hc.
  2:{ rewrite C in H. inversion H; subst. apply R_refl. }
  assert (T : forall W, this W = this w -> R (this w) (this (snd (close (flagged W))))).
  { intros W E. eapply R_trans; [|apply respects_close].
    unfold flagged. cbn [this with_this]. rewrite E. apply R_timedOut. }
  assert (K : forall W, this W = this w -> R (this w) (this (snd (close W)))).
  { intros W E. rewrite <- E. apply respects_close. }
  destruct (reads w) as [|[[p|]|e| |] rest] eqn:Hr; rewrite C in H; clear C.
  - inversion H; subst. apply T. reflexivity.
  - change (this w) with (this (received c rest w)) at 2.
    destruct (PacketType_eqb (type p) ERR);
      [destruct (parseError _ _)|]; inversion H; subst; apply R_refl.
  - apply close_throw_leaves in H. destruct H as [E [e' X]]. subst.
    apply K. reflexivity.
  - destruct (_timedOut (this w)).
    + inversion H; subst. change (this (with_reads rest (reading c w))) with (this w).
      apply R_refl.
    + apply close_throw_leaves in H. destruct H as [E [e' X]]. subst.
      apply K. reflexivity.
  - inversion H; subst. apply T. reflexivity.
  - destruct (_timedOut (this w)).
    + inversion H; subst. apply K. reflexivity.
    + apply close_throw_leaves in H. destruct H as [E [e' X]]. subst.
      eapply R_trans; [apply (K (with_reads rest (reading c w))); reflexivity|].
      apply (respects_close (record EvClearTimeout _)).
Qed.

(** Every call takes the connection object along [R]. *)
Lemma respects_perform call w r w' :
  perform call w = (r, w') -> R (this w) (this w').
Proof.
  intros H.
  assert (O : obeys (fun w w' => R (this w) (this w'))
                (fun _ w w' => R (this w) (this w')) (perform call)).
  { apply obeys_perform.
    - intros w0. apply R_refl.
    - intros _ w0. apply R_refl.
    - intros w1 w2 w3. apply R_trans.
    - intros _ w1 w2 w3. apply R_trans.
    - intros e w1 w2 r0 w0' A _ C. eapply R_trans; [exact A|].
      change w0' with (snd (r0, w0')). rewrite <- C. apply respects_close.
    - intros data seq c w0 r0 w0' H0. destruct c as [c|]; simpl in H0.
      + destruct (sends w0) as [|[e|] ss]; inversion H0; subst; apply R_refl.
      + inversion H0; subst. apply R_refl.
    - apply respects_nextPacket.
    - intros msg. respects_prim.
    - intros msg. respects_prim.
    - respects_prim.
    - respects_prim.
    - intros v. respects_prim.
    - intros v. respects_prim.
    - intros e. apply respects_close_throw.
    - intros host p w0 r0 w0' H0. unfold Deno_connect in H0. cbn [dials record] in H0.
      destruct (dials w0) as [|[e|] ds]; inversion H0; subst; apply R_refl.
    - intros c. respects_prim.
    - intros w0 r0 w0' H0.
      assert (E : w0' = snd (close w0)) by (rewrite H0; reflexivity).
      subst. destruct r0; [| |intros e0]; apply respects_close. }
  apply O in H. destruct r; [exact H | exact H | exact (H (Thrown EmptyString))].
Qed.

End ObjectInvariant.

(** X19.  No call lowers the flag [_timedOut] or touches [config]: once a
    read has timed out the flag stays up through every later call, a
    [connect()] that succeeds included. *)
Theorem timedOut_is_sticky call w r w' :
  perform call w = (r, w') ->
  config (this w') = config (this w)
  /\ (_timedOut (this w) = true -> _timedOut (this w') = true).
Proof.
  apply (@respects_perform
           (fun x y => config y = config x
                       /\ (_timedOut x = true -> _timedOut y = true)));
    try (intros; split; [reflexivity | cbn; auto]).
  intros x y z [A1 A2] [B1 B2]. split; [congruence | auto].
Qed.

(** *** The state CLOSING *)

(** X18.  The state CLOSING is not seen after a call that finds the
    connection in order: its socket open when the call starts ([connect()]
    dials its own), and no [close()] of the caller falling into a read of
    the call.  Then every [close()] that runs inside the call goes through
    and ends CLOSED, and no other assignment writes CLOSING, so a
    connection that is not CLOSING before the call is not CLOSING after it,
    however the call ends. *)
Theorem CLOSING_is_transient call w r w' :
  call = Connect \/ socket_open w ->
  undisturbed (reads w) ->
  state (this w) <> CLOSING ->
  perform call w = (r, w') ->
  state (this w') <> CLOSING.
Proof.
  intros Ho U Hs H.
  assert (Q : forall w1, untouched w w1 \/ shut w w1 -> state (this w1) <> CLOSING).
  { intros w1 [[A _]|(A & _)]; [rewrite A; exact Hs | rewrite A; discriminate]. }
  destruct call as [|sql params|sql params|]; cbn [perform] in H.
  - destruct (dial_error w) as [e|] eqn:Hd.
    + rewrite (connect_dial_refused w Hd) in H. inversion H; subst. exact Hs.
    + pose proof (connect_socket w Hd U H) as S.
      assert (K : steady (dialed_in w) w' -> state (this w') <> CLOSING).
      { intros (_ & _ & K). apply K. exact Hs. }
      destruct r as [a|e|];
        [destruct S as [_ S]; apply K, S | |];
        (destruct S as [(_ & _ & S)|((_ & _ & S) & _)];
         [apply K, S | rewrite S; discriminate]).
  - destruct Ho as [Ho|Ho]; [discriminate|].
    unfold bind in H. destruct (execute sql params w) as [[a|e|] w1] eqn:E;
      inversion H; subst; apply calm_execute in E.
    + apply Q. left. apply E. split; assumption.
    + apply Q, E. split; assumption.
    + apply Q, (E (Thrown EmptyString)). split; assumption.
  - destruct Ho as [Ho|Ho]; [discriminate|].
    unfold bind in H. destruct (query sql params w) as [[a|e|] w1] eqn:E;
      inversion H; subst; apply calm_query in E.
    + apply Q. left. apply E. split; assumption.
    + apply Q, E. split; assumption.
    + apply Q, (E (Thrown EmptyString)). split; assumption.
  - destruct Ho as [Ho|Ho]; [discriminate|].
    rewrite (close_run Ho) in H. inversion H; subst. discriminate.
Qed.

(** *** A connection that is CONNECTED holds an open socket *)

Lemma plain_query sql params :
  obeys untouched (fun _ => untouched_or_closing) (query sql params).
Proof.
  unfold query. apply obeys_bind.
  - apply untouched_trans.
  - intros _ w1 w2 w3 A [B|B]; [left; eapply untouched_trans; eassumption | right; exact B].
  - apply plain_execute.
  - intros res. destruct (rows res); intros w1 r1 w1' H1;
      inversion H1; subst; apply untouched_refl.
Qed.

Lemma untouched_same_sockets w w' : untouched w w' -> same_sockets w w'.
Proof. intros [A1 A2]. split; [rewrite A1; reflexivity | exact A2]. Qed.

Ltac sockets_prim :=
  let w := fresh "w" in
  let r := fresh "r" in
  let w' := fresh "w'" in
  let H := fresh "H" in
  intros w r w' H;
  cbv beta delta [log_info log_error assign assign_state] in H;
  inversion H; subst; clear H; split; reflexivity.

(** From the dial on, [connect()] leaves the socket it dialed in [conn] and
    open, unless a [close()] has run. *)
Lemma connect_keeps_sockets w r w' :
  dial_error w = None ->
  connect w = (r, w') ->
  match r with
  | Normal _ => same_sockets (dialed_in w) w'
  | _ => same_sockets_or_closing (dialed_in w) w'
  end.
Proof.
  intros Hd H.
  assert (T : forall w1 w2 w3, same_sockets w1 w2 -> same_sockets w2 w3 ->
                same_sockets w1 w3).
  { intros w1 w2 w3 [A1 A2] [B1 B2]. split; congruence. }
  assert (W : forall w1 w2, untouched_or_closing w1 w2 ->
                same_sockets_or_closing w1 w2).
  { intros w1 w2 [A|A]; [left; apply untouched_same_sockets, A | right; exact A]. }
  apply (@connect_after_dial same_sockets (fun _ => same_sockets_or_closing)) in H;
    try exact Hd.
  - destruct r; [exact H | exact H | exact (H (Thrown EmptyString))].
  - intros w0. split; reflexivity.
  - intros _ w0. left. split; reflexivity.
  - exact T.
  - intros _ w1 w2 w3 A [B|B]; [left; eapply T; eassumption | right; exact B].
  - intros e w1 w2 r0 w0' _ _ C. right.
    change w0' with (snd (r0, w0')). rewrite <- C. apply close_state.
  - intros data seq c. eapply obeys_weaken; [| |apply plain_send].
    + apply untouched_same_sockets.
    + intros e0. apply W.
  - eapply obeys_weaken; [| |apply plain_nextPacket].
    + apply untouched_same_sockets.
    + intros e0. apply W.
  - intros msg. sockets_prim.
  - intros msg. sockets_prim.
  - sockets_prim.
  - sockets_prim.
  - intros v. sockets_prim.
  - intros v. sockets_prim.
  - intros e w0 r0 w0' H0. apply close_throw_leaves in H0.
    destruct H0 as [E [e' X]]. subst. right. apply close_state.
Qed.

(** X23.  A connection that is CONNECTED holds a socket, and that socket is
    open: this is so of a connection just constructed, which is CONNECTING,
    and every call of [connect], [execute], [query] or [close] keeps it so,
    however it ends and whatever falls into its reads.  Only [connect()]
    assigns CONNECTED, with the socket it has just dialed; whatever closes
    that socket leaves the state CLOSED or CLOSING. *)
Theorem CONNECTED_holds_open_socket call w r w' :
  wired w ->
  perform call w = (r, w') ->
  wired w'.
Proof.
  intros Hw H.
  assert (Q : forall w1, untouched_or_closing w w1 -> wired w1).
  { intros w1 [[A1 A2]|[A|A]] S.
    - rewrite A1, A2 in *. apply Hw, S.
    - congruence.
    - congruence. }
  destruct call as [|sql params|sql params|]; cbn [perform] in H.
  - destruct (dial_error w) as [e|] eqn:Hd.
    + rewrite (connect_dial_refused w Hd) in H. inversion H; subst.
      apply Q. left. split; reflexivity.
    + pose proof (connect_keeps_sockets w Hd H) as S.
      assert (K : same_sockets (dialed_in w) w' -> wired w').
      { intros [K1 K2] _. exists (next_rid w). split; [exact K1|].
        rewrite K2. left. reflexivity. }
      destruct r as [a|e|]; [apply K, S | |];
        (destruct S as [S|[S|S]]; [apply K, S | intros C; congruence
                                  | intros C; congruence]).
  - unfold bind in H. destruct (execute sql params w) as [[a|e|] w1] eqn:E;
      inversion H; subst; apply plain_execute in E.
    + apply Q. left. exact E.
    + apply Q, E.
    + apply Q, (E (Thrown EmptyString)).
  - unfold bind in H. destruct (query sql params w) as [[a|e|] w1] eqn:E;
      inversion H; subst; apply plain_query in E.
    + apply Q. left. exact E.
    + apply Q, E.
    + apply Q, (E (Thrown EmptyString)).
  - assert (E : w' = snd (close w)) by (rewrite H; reflexivity). subst.
    apply Q. right. apply close_state.
Qed.

(** *** The timer *)

Lemma firings_record ev w :
  timer_firings (trace (record ev w))
  = (timer_firings (trace w) + timer_firings [ev])%nat.
Proof. unfold record. cbn [trace]. apply timer_firings_app. Qed.

Lemma firings_reading c w :
  timer_firings (trace (reading c w)) = timer_firings (trace w).
Proof. unfold reading. rewrite !firings_record. simpl. lia. Qed.

Lemma firings_received c rest w :
  timer_firings (trace (received c rest w)) = timer_firings (trace w).
Proof.
  unfold received. rewrite firings_record. cbn [trace with_reads].
  rewrite firings_reading. simpl. lia.
Qed.


(** A read on an open socket that the timer cuts short reports a
    timeout. *)
Lemma timed_out_timeout_world w c W :
  conn (this w) = Some c -> this W = this w -> open_rids W = open_rids w ->
  timed_out (ResponseTimeoutError "Connection read timed out") (timeout_world W).
Proof.
  intros Hc T1 T2. split; [reflexivity|]. split; [reflexivity|].
  split; [reflexivity|]. exists c. split.
  - cbn. rewrite T1. exact Hc.
  - unfold timeout_world. pose proof (closed_world_socket (flagged W)) as S.
    cbn [this flagged with_this conn set_timedOut] in S. rewrite T1, Hc in S.
    exact S.
Qed.

Lemma untimed_nextPacket : obeys untimed untimed_or_timed_out nextPacket.
Proof.
  intros w r w' H. pose proof (nextPacket_cases w) as C.
  destruct (conn (this w)) as [c|] eqn:Hc.
  2:{ rewrite C in H. inversion H; subst. intros _. left. reflexivity. }
  assert (T : forall W, this W = this w -> open_rids W = open_rids w ->
                socket_open w ->
                snd (close (flagged W)) = timeout_world W).
  { intros W T1 T2 O. rewrite close_run; [reflexivity|].
    apply in_order_flagged with (w := w); [split; assumption | exact O]. }
  assert (K : forall W, timer_firings (trace W) = timer_firings (trace w) ->
                timer_firings (trace (snd (close W))) = timer_firings (trace w)).
  { intros W E. rewrite firings_close. exact E. }
  assert (R : forall rest, timer_firings (trace (with_reads rest (reading c w)))
                           = timer_firings (trace w))
    by (intros; apply firings_reading).
  destruct (reads w) as [|[[p|]|e| |] rest] eqn:Hr; rewrite C in H; clear C.
  - inversion H; subst. intros O. right. rewrite T by (reflexivity || exact O).
    apply timed_out_timeout_world with (w := w) (c := c); [exact Hc | reflexivity..].
  - destruct (PacketType_eqb (type p) ERR);
      [destruct (parseError _ _)|]; inversion H; subst; intros O;
      try left; try split; try apply firings_received.
    apply (untouched_socket_open (untouched_received c rest w) O).
  - apply close_throw_leaves in H. destruct H as [E [e' X]]. subst.
    intros _. left. apply K, firings_received.
  - destruct (_timedOut (this w)).
    + inversion H; subst. intros _. left. apply R.
    + apply close_throw_leaves in H. destruct H as [E [e' X]]. subst.
      intros _. left. apply K, firings_received.
  - inversion H; subst. intros O. right. rewrite T by (reflexivity || exact O).
    apply timed_out_timeout_world with (w := w) (c := c); [exact Hc | reflexivity..].
  - destruct (_timedOut (this w)).
    + inversion H; subst. intros _. left. apply K, R.
    + apply close_throw_leaves in H. destruct H as [E [e' X]]. subst.
      intros _. left. apply K. rewrite firings_record. rewrite K by apply R.
      simpl. lia.
Qed.

Lemma untimed_laws :
  (forall w, untimed w w)
  /\ (forall e w, untimed_or_timed_out e w w)
  /\ (forall w1 w2 w3, untimed w1 w2 -> untimed w2 w3 -> untimed w1 w3)
  /\ (forall e w1 w2 w3, untimed w1 w2 -> untimed_or_timed_out e w2 w3 ->
        untimed_or_timed_out e w1 w3)
  /\ (forall e w1 w2 r w',
        untimed_or_timed_out e w1 w2 -> state (this w2) <> CLOSED ->
        close w2 = (r, w') ->
        untimed_or_timed_out (match r with Throw e' => e' | _ => e end) w1 w').
Proof.
  split; [|split; [|split; [|split]]].
  - intros w O. split; [exact O | reflexivity].
  - intros e w O. left. reflexivity.
  - intros w1 w2 w3 A B O. destruct (A O) as [A1 A2]. destruct (B A1) as [B1 B2].
    split; [exact B1 | congruence].
  - intros e w1 w2 w3 A B O. destruct (A O) as [A1 A2].
    destruct (B A1) as [B1|B1]; [left; congruence | right; exact B1].
  - intros e w1 w2 r w' A N C O. left.
    destruct (A O) as [A1|(_ & A1 & _)]; [|contradiction].
    change w' with (snd (r, w')). rewrite <- C, firings_close. exact A1.
Qed.

Lemma untimed_send data seq c :
  obeys untimed untimed_or_timed_out (SendPacket_send data seq c).
Proof.
  intros w r w' H. destruct c as [c|]; simpl in H.
  - destruct (sends w) as [|[e|] ss]; inversion H; subst; intros O;
      try left; try split; try exact O;
      cbn [trace with_sends]; rewrite ?firings_record; simpl; lia.
  - inversion H; subst. intros _. left. reflexivity.
Qed.

Ltac untimed_prim :=
  let w := fresh "w" in
  let r := fresh "r" in
  let w' := fresh "w'" in
  let H := fresh "H" in
  let O := fresh "O" in
  intros w r w' H;
  cbv beta delta [log_info log_error assign assign_state] in H;
  inversion H; subst; clear H; intros O;
  split; [exact O | cbn [trace with_this]; rewrite ?firings_record; simpl; lia].

(** When the timer goes off during a call that found its socket open, the
    call reports a timeout. *)
Lemma untimed_perform call w r w' :
  call = Connect \/ socket_open w ->
  perform call w = (r, w') ->
  match r with
  | Throw e =>
      timer_firings (trace w') = timer_firings (trace w) \/ timed_out e w'
  | _ => timer_firings (trace w') = timer_firings (trace w)
  end.
Proof.
  intros Ho H. destruct untimed_laws as (L1 & L2 & L3 & L4 & L5).
  assert (X : forall A (m : M A), obeys untimed untimed_or_timed_out m ->
                forall r1 w1, socket_open w -> m w = (r1, w1) ->
                match r1 with
                | Throw e =>
                    timer_firings (trace w1) = timer_firings (trace w)
                    \/ timed_out e w1
                | _ => timer_firings (trace w1) = timer_firings (trace w)
                end).
  { intros A m Om r1 w1 O E. apply Om in E. destruct r1 as [a|e|].
    - apply E, O.
    - apply E, O.
    - destruct (E (Thrown EmptyString) O) as [E1|(E1 & _)];
        [exact E1 | discriminate]. }
  destruct call as [|sql params|sql params|]; cbn [perform] in H.
  - destruct (dial_error w) as [e|] eqn:Hd.
    + rewrite (connect_dial_refused w Hd) in H. inversion H; subst.
      left. cbn [trace with_dials]. rewrite !firings_record. simpl. lia.
    + assert (O : socket_open (dialed_in w)).
      { apply socket_open_of with (c := next_rid w); [reflexivity | left; reflexivity]. }
      assert (E0 : timer_firings (trace (dialed_in w)) = timer_firings (trace w)).
      { unfold dialed_in, dialed. cbn [trace with_this with_next_rid with_open_rids with_dials].
        rewrite !firings_record. simpl. lia. }
      apply (@connect_after_dial untimed untimed_or_timed_out) in H;
        try exact Hd; try assumption.
      * destruct r as [a|e|].
        -- destruct (H O) as [_ H1]. congruence.
        -- destruct (H O) as [H1|H1]; [left; congruence | right; exact H1].
        -- destruct (H (Thrown EmptyString) O) as [H1|(H1 & _)];
             [congruence | discriminate].
      * apply untimed_send.
      * apply untimed_nextPacket.
      * intros msg. untimed_prim.
      * intros msg. untimed_prim.
      * untimed_prim.
      * untimed_prim.
      * intros v. untimed_prim.
      * intros v. untimed_prim.
      * intros e w0 r0 w0' H0. apply close_throw_leaves in H0.
        destruct H0 as [E [e' Y]]. subst. intros _. left. apply firings_close.
  - destruct Ho as [Ho|Ho]; [discriminate|].
    unfold bind in H. destruct (execute sql params w) as [[a|e|] w1] eqn:E;
      inversion H; subst;
      apply (X _ _ (obeys_execute L1 L2 L3 L4 L5 untimed_send untimed_nextPacket
                      sql params) _ _ Ho E).
  - destruct Ho as [Ho|Ho]; [discriminate|].
    unfold bind in H. destruct (query sql params w) as [[a|e|] w1] eqn:E;
      inversion H; subst;
      apply (X _ _ (obeys_query L1 L2 L3 L4 L5 untimed_send untimed_nextPacket
                      sql params) _ _ Ho E).
  - assert (E : w' = snd (close w)) by (rewrite H; reflexivity). subst.
    destruct r; try left; apply firings_close.
Qed.

(** X21.  When the timer goes off during a call of [connect], [execute] or
    [query] on a socket that is open ([connect()] dials its own), the call
    fails with [ResponseTimeoutError]; the flag [_timedOut] is up, the
    state is CLOSED and the socket is closed. *)
Theorem timer_reported call w r w' :
  call = Connect \/ socket_open w ->
  perform call w = (r, w') ->
  (timer_firings (trace w) < timer_firings (trace w'))%nat ->
  r = Throw (ResponseTimeoutError "Connection read timed out")
  /\ state (this w') = CLOSED
  /\ _timedOut (this w') = true
  /\ exists c, conn (this w') = Some c /\ ~ In c (open_rids w').
Proof.
  intros Ho H Hlt. pose proof (untimed_perform Ho H) as P.
  destruct r as [a|e|]; [lia| |lia].
  destruct P as [P|(P1 & P2 & P3 & P4)]; [lia|].
  subst e. repeat split; assumption.
Qed.

(** X22.  Every read is made under a timer armed just before it, for
    [config.timeout] milliseconds, or for 30000 when [config.timeout] is
    undefined or zero: whatever the read then does, the trace of
    [nextPacket] goes on with the arming of that timer and the read. *)
Theorem reads_armed w c :
  conn (this w) = Some c ->
  exists more,
    trace (snd (nextPacket w))
    = trace w
      ++ EvSetTimeout
           (match timeout (config (this w)) with
            | Some ms => if ms =? 0 then 30000 else ms
            | None => 30000
            end)
         :: EvRead c :: more.
Proof.
  intros Hc. pose proof (nextPacket_cases w) as C. rewrite Hc in C.
  change (match timeout (config (this w)) with
          | Some ms => if ms =? 0 then 30000 else ms
          | None => 30000
          end) with (timeout_or_default (config (this w))).
  set (d := timeout_or_default (config (this w))).
  set (ext := fun W : World =>
                exists more, trace W = trace w ++ EvSetTimeout d :: EvRead c :: more).
  assert (R0 : ext (reading c w)).
  { exists []. unfold reading, record. cbn [trace]. rewrite <- app_assoc.
    reflexivity. }
  assert (Rr : forall rest, ext (with_reads rest (reading c w)))
    by (intros rest; exact R0).
  assert (Re : forall ev W, ext W -> ext (record ev W)).
  { intros ev W [m E]. exists (m ++ [ev]). unfold record. cbn [trace].
    rewrite E, <- app_assoc. reflexivity. }
  assert (Rf : forall W, ext W -> ext (flagged W)).
  { intros W X. unfold flagged. apply (Re _ _ (Re _ _ X)). }
  assert (Rc : forall W, ext W -> ext (snd (close W))).
  { intros W [m E]. destruct (trace_close W) as (t & E1 & _). exists (m ++ t).
    unfold ext. rewrite E1, E, <- app_assoc. reflexivity. }
  assert (Rt : forall e W, ext W ->
                 ext (snd ((close ;; @throw ReceivePacket e) W))).
  { intros e W X. destruct ((close ;; @throw ReceivePacket e) W) as [r0 w0] eqn:E.
    apply close_throw_leaves in E. destruct E as [E _]. subst. apply Rc, X. }
  assert (Rv : forall rest, ext (received c rest w))
    by (intros rest; apply Re, Rr).
  change (ext (snd (nextPacket w))).
  destruct (reads w) as [|[[p|]|e| |] rest] eqn:Hr; rewrite C; clear C.
  - apply Rc, Rf, R0.
  - destruct (PacketType_eqb (type p) ERR);
      [destruct (parseError _ _)|]; apply Rv.
  - apply Rt, Rv.
  - destruct (_timedOut (this w)); [apply Rr | apply Rt, Rv].
  - apply Rc, Rf, Rr.
  - destruct (_timedOut (this w)); [apply Rc, Rr | apply Rt, Re, Rc, Rr].
Qed.

End Properties.

(** * The methods and the statements at work on scripted servers *)

(** ** Runs *)

(** A server from 5.7 on answers [SELECT a, b FROM t] with two rows. *)
Example select_5_7 :
  fst (execute (codecs := Sample.codecs) "SELECT a, b FROM t" None
         (Sample.world (Sample.connected "5.7.30") Sample.select_reply))
  = Normal (@Build_ExecuteResult Sample.codecs None None
              (Some ["a"; "b"]) (Some [["1"; "x"]; ["2"; "y"]])).
Proof. vm_compute. reflexivity. Qed.

(** A server before 5.7 sends an EOF packet after the fields; it is not a
    row and does not end the rows. *)
Example select_5_6 :
  fst (execute (codecs := Sample.codecs) "SELECT a, b FROM t" None
         (Sample.world (Sample.connected "5.6.10") Sample.select_reply_legacy))
  = Normal (@Build_ExecuteResult Sample.codecs None None
              (Some ["a"; "b"]) (Some [["1"; "x"]; ["2"; "y"]])).
Proof. vm_compute. reflexivity. Qed.

(** The same packets from a server that reports 5.7: the EOF packet after
    the fields ends the rows at once. *)
Example select_5_7_legacy_reply :
  fst (execute (codecs := Sample.codecs) "SELECT a, b FROM t" None
         (Sample.world (Sample.connected "5.7.30") Sample.select_reply_legacy))
  = Normal (@Build_ExecuteResult Sample.codecs None None (Some ["a"; "b"]) (Some [])).
Proof. vm_compute. reflexivity. Qed.

(** An OK packet with one affected row and insert id 42. *)
Example insert_ok :
  fst (execute (codecs := Sample.codecs) "INSERT INTO t VALUES (1)" None
         (Sample.world (Sample.connected "5.7.30") [Sample.arrives Sample.ok_1_42]))
  = Normal (@Build_ExecuteResult Sample.codecs (Some 1) (Some 42) None None).
Proof. vm_compute. reflexivity. Qed.

(** [query] hands the rows over when there are rows, the result when not. *)
Example query_shapes :
  fst (query (codecs := Sample.codecs) "SELECT a, b FROM t" None
         (Sample.world (Sample.connected "5.7.30") Sample.select_reply))
  = Normal (inl [["1"; "x"]; ["2"; "y"]])
  /\ fst (query (codecs := Sample.codecs) "INSERT INTO t VALUES (1)" None
            (Sample.world (Sample.connected "5.7.30") [Sample.arrives Sample.ok_1_42]))
     = Normal (inr (@Build_ExecuteResult Sample.codecs (Some 1) (Some 42) None None)).
Proof. vm_compute. split; reflexivity. Qed.

(** Handshake, auth response, OK: the connection is CONNECTED, on socket 0,
    with the version and the capabilities of the handshake. *)
Example connect_ok :
  let out :=
    connect (codecs := Sample.codecs)
      (Sample.fresh [Sample.arrives Sample.handshake_5_7;
                     Sample.arrives Sample.ok_1_42]) in
  fst out = Normal tt
  /\ this (snd out)
     = {| state := CONNECTED; capabilities := 63487; serverVersion := "5.7.30";
          conn := Some 0%nat; _timedOut := false; config := Sample.cfg |}
  /\ open_rids (snd out) = [0%nat]
  /\ state_writes (trace (snd out)) = [CONNECTING; CONNECTED].
Proof. vm_compute. repeat split; reflexivity. Qed.

(** The server falls silent after the query: the timer goes off. *)
Example execute_silence :
  let out :=
    execute (codecs := Sample.codecs) "SELECT 1" None
      (Sample.world (Sample.connected "5.7.30") []) in
  fst out = Throw (ResponseTimeoutError "Connection read timed out")
  /\ state (this (snd out)) = CLOSED
  /\ open_rids (snd out) = [].
Proof. vm_compute. repeat split; reflexivity. Qed.

(** The peer closes the stream after the query. *)
Example execute_half_closed :
  let out :=
    execute (codecs := Sample.codecs) "SELECT 1" None
      (Sample.world (Sample.connected "5.7.30") [Resolves None]) in
  fst out = Throw (ReadError "Connection closed unexpectedly")
  /\ state (this (snd out)) = CLOSED.
Proof. vm_compute. repeat split; reflexivity. Qed.

(** A second [close()] asks the socket to close once more, since
    [this.conn] is never cleared; the socket refuses, and the state stays
    CLOSING. *)
Example close_twice :
  let out := close_times 2 (Sample.world (Sample.connected "5.7.30") []) in
  fst out = Throw BadResource
  /\ state (this (snd out)) = CLOSING
  /\ trace (snd out)
     = [EvInfo "close connection"; EvState CLOSING; EvClose 0%nat; EvState CLOSED;
        EvInfo "close connection"; EvState CLOSING; EvClose 0%nat].
Proof. vm_compute. repeat split; reflexivity. Qed.

(** A caller's [close()] while the reply to a query is awaited: the read is
    aborted, and the [close()] of the handler of [nextPacket] finds the
    socket closed. *)
Example execute_cancelled_by_close :
  let out :=
    execute (codecs := Sample.codecs) "SELECT 1" None
      (Sample.world (Sample.connected "5.7.30") [CallerCloses]) in
  fst out = Throw BadResource
  /\ state (this (snd out)) = CLOSING
  /\ open_rids (snd out) = [].
Proof. vm_compute. repeat split; reflexivity. Qed.

(** ** The statements *)

(** C1 at the reply of a server before 5.7 to [SELECT a, b FROM t]. *)
Lemma execute_result_set_witness :
  exists w',
    execute (codecs := Sample.codecs) "SELECT a, b FROM t" None
      (Sample.world (Sample.connected "5.6.10") Sample.select_reply_legacy)
    = (Normal (@Build_ExecuteResult Sample.codecs None None
                 (Some ["a"; "b"]) (Some [["1"; "x"]; ["2"; "y"]])), w')
    /\ this w' = Sample.connected "5.6.10"
    /\ reads w' = [].
Proof.
  apply (@execute_result_set Sample.codecs "SELECT a, b FROM t" None
           (Sample.world (Sample.connected "5.6.10") Sample.select_reply_legacy)
           0%nat (x03 :: list_byte_of_string "SELECT a, b FROM t")
           (packet_of Sample.two_columns) 2
           (BufferReader.skip 1 (BufferReader.of_bytes Sample.two_columns))
           [packet_of Sample.field_a; packet_of Sample.field_b] ["a"; "b"]
           [packet_of Sample.eof]
           [packet_of Sample.row_1; packet_of Sample.row_2]
           [["1"; "x"]; ["2"; "y"]]
           (packet_of Sample.eof) []);
    try reflexivity; try (vm_compute; discriminate);
    repeat constructor; vm_compute; discriminate.
Defined.

(** C2 at an OK packet with one affected row and insert id 42. *)
Lemma execute_OK_witness :
  exists w',
    execute (codecs := Sample.codecs) "INSERT INTO t VALUES (1)" None
      (Sample.world (Sample.connected "5.7.30") [Sample.arrives Sample.ok_1_42])
    = (Normal (@Build_ExecuteResult Sample.codecs (Some 1) (Some 42) None None), w')
    /\ this w' = Sample.connected "5.7.30"
    /\ reads w' = [].
Proof.
  apply (@execute_OK Sample.codecs "INSERT INTO t VALUES (1)" None
           (Sample.world (Sample.connected "5.7.30") [Sample.arrives Sample.ok_1_42])
           0%nat (x03 :: list_byte_of_string "INSERT INTO t VALUES (1)")
           (packet_of Sample.ok_1_42) [] 1 42
           (BufferReader.skip 2 (BufferReader.of_bytes Sample.ok_1_42))
           (BufferReader.skip 3 (BufferReader.of_bytes Sample.ok_1_42)));
    reflexivity.
Defined.

(** C4 at a server that reports 5.6.10: the row loop starts after the EOF
    packet that follows the two fields. *)
Lemma execute_legacy_EOF_witness :
  exists w1,
    execute (codecs := Sample.codecs) "SELECT a, b FROM t" None
      (Sample.world (Sample.connected "5.6.10") Sample.select_reply_legacy)
    = (rowList <- read_rows (codecs := Sample.codecs) 4 ["a"; "b"] [] ;;
       ret (@Build_ExecuteResult Sample.codecs None None
              (Some ["a"; "b"]) (Some rowList))) w1
    /\ this w1 = Sample.connected "5.6.10"
    /\ reads w1 = [Sample.arrives Sample.row_1; Sample.arrives Sample.row_2;
                   Sample.arrives Sample.eof].
Proof.
  assert (H := @execute_legacy_EOF Sample.codecs "SELECT a, b FROM t" None
           (Sample.world (Sample.connected "5.6.10") Sample.select_reply_legacy)
           0%nat (x03 :: list_byte_of_string "SELECT a, b FROM t")
           (packet_of Sample.two_columns) 2
           (BufferReader.skip 1 (BufferReader.of_bytes Sample.two_columns))
           [packet_of Sample.field_a; packet_of Sample.field_b] ["a"; "b"]
           [Sample.arrives Sample.eof; Sample.arrives Sample.row_1;
            Sample.arrives Sample.row_2; Sample.arrives Sample.eof]
           eq_refl eq_refl eq_refl eq_refl eq_refl).
  apply (H ltac:(vm_compute; discriminate) ltac:(vm_compute; discriminate)
           eq_refl eq_refl
           ltac:(repeat constructor; vm_compute; discriminate)
           ltac:(repeat constructor)
           (packet_of Sample.eof)
           [Sample.arrives Sample.row_1; Sample.arrives Sample.row_2;
            Sample.arrives Sample.eof]
           eq_refl ltac:(vm_compute; discriminate)).
Defined.

(** C5.  The flag [_timedOut] is raised by the timer and never lowered.
    A connection that has timed out and is connected again still carries
    it: when a read of the next query then fails for a reason of its own
    (the socket is reset, no timer goes off), [execute] fails with
    [ResponseTimeoutError] as after a timeout, but nothing has closed the
    connection and the handler of [nextPacket] does not close it either: the
    state stays CONNECTED, the socket stays open, and the timer armed for
    the read is left pending. *)
Theorem timeout_flag_outlives_reconnect :
  let w0 :=
    Sample.fresh [Sample.arrives Sample.handshake_5_7; Sample.arrives Sample.ok_1_42;
                  TimerFires;
                  Sample.arrives Sample.handshake_5_7; Sample.arrives Sample.ok_1_42;
                  Rejects (Thrown "connection reset")] in
  let out1 := perform (codecs := Sample.codecs) Connect w0 in
  let out2 := perform (codecs := Sample.codecs) (Execute "SELECT 1" None) (snd out1) in
  let out3 := perform (codecs := Sample.codecs) Connect (snd out2) in
  let out4 := perform (codecs := Sample.codecs) (Execute "SELECT 1" None) (snd out3) in
  (fst out1 = Normal tt /\ state (this (snd out1)) = CONNECTED)
  /\ (fst out2 = Throw (ResponseTimeoutError "Connection read timed out")
      /\ state (this (snd out2)) = CLOSED
      /\ _timedOut (this (snd out2)) = true
      /\ open_rids (snd out2) = [])
  /\ (fst out3 = Normal tt
      /\ state (this (snd out3)) = CONNECTED
      /\ _timedOut (this (snd out3)) = true
      /\ conn (this (snd out3)) = Some 1%nat
      /\ open_rids (snd out3) = [1%nat])
  /\ (fst out4 = Throw (ResponseTimeoutError "Connection read timed out")
      /\ timer_firings (trace (snd out4)) = timer_firings (trace (snd out3))
      /\ state (this (snd out4)) = CONNECTED
      /\ conn (this (snd out4)) = Some 1%nat
      /\ open_rids (snd out4) = [1%nat]
      /\ pending_timers (trace (snd out4)) = 1).
Proof. vm_compute. repeat split; reflexivity. Qed.

(** C6 as stated fails: on a closed connection and on a fresh one, the
    messages of [execute] are not the quoted ones. *)
Lemma execute_CLOSED_message :
  fst (execute (codecs := Sample.codecs) "SELECT 1" None (Sample.after_close []))
  <> Throw (ConnnectionError "connection is closed")
  /\ fst (execute (codecs := Sample.codecs) "SELECT 1" None (Sample.fresh []))
     <> Throw (ConnnectionError "must be connected first").
Proof. split; vm_compute; discriminate. Qed.

(** C6, amended, at a closed connection. *)
Lemma execute_requires_CONNECTED_witness :
  execute (codecs := Sample.codecs) "SELECT 1" None (Sample.after_close [])
  = (Throw (ConnnectionError "Connection is closed"), Sample.after_close [])
  /\ query (codecs := Sample.codecs) "SELECT 1" None (Sample.after_close [])
     = (Throw (ConnnectionError "Connection is closed"), Sample.after_close []).
Proof.
  apply (@execute_requires_CONNECTED Sample.codecs "SELECT 1" None
           (Sample.after_close [])).
  vm_compute. discriminate.
Defined.

(** C7 at a connected connection closed twice. *)
Lemma close_again_fails_witness :
  exists w1 w2,
    close (Sample.world (Sample.connected "5.7.30") []) = (Normal tt, w1)
    /\ state (this w1) = CLOSED
    /\ ~ In 0%nat (open_rids w1)
    /\ close w1 = (Throw BadResource, w2)
    /\ close_times 2 (Sample.world (Sample.connected "5.7.30") [])
       = (Throw BadResource, w2)
    /\ state (this w2) = CLOSING
    /\ state_writes (trace w2)
       = state_writes (trace (Sample.world (Sample.connected "5.7.30") []))
         ++ [CLOSING; CLOSED; CLOSING].
Proof.
  apply (@close_again_fails (Sample.world (Sample.connected "5.7.30") []) 0%nat).
  - reflexivity.
  - left. reflexivity.
Defined.

(** C8 as stated fails: [connect()] has no guard on the state.  From
    CLOSED, against a server that accepts, it assigns CONNECTING and
    CONNECTED and ends CONNECTED. *)
Lemma CLOSED_is_left :
  let w := Sample.after_close
             [Sample.arrives Sample.handshake_5_7; Sample.arrives Sample.ok_1_42] in
  state (this w) = CLOSED
  /\ fst (perform (codecs := Sample.codecs) Connect w) = Normal tt
  /\ state (this (snd (perform (codecs := Sample.codecs) Connect w))) = CONNECTED
  /\ state_writes (trace (snd (perform (codecs := Sample.codecs) Connect w)))
     = state_writes (trace w) ++ [CONNECTING; CONNECTED].
Proof. vm_compute. repeat split. Qed.

(** C8, amended, at [query] on a closed connection. *)
Lemma CLOSED_kept_by_execute_query_witness :
  fst (perform (codecs := Sample.codecs) (Query "SELECT 1" None)
         (Sample.after_close []))
  = Throw (ConnnectionError "Connection is closed")
  /\ state (this (snd (perform (codecs := Sample.codecs) (Query "SELECT 1" None)
                      (Sample.after_close [])))) = CLOSED
  /\ state_writes (trace (snd (perform (codecs := Sample.codecs) (Query "SELECT 1" None)
                                 (Sample.after_close []))))
     = state_writes (trace (Sample.after_close [])).
Proof.
  apply (@CLOSED_kept_by_execute_query Sample.codecs (Query "SELECT 1" None)
           (Sample.after_close [])).
  - reflexivity.
  - discriminate.
  - discriminate.
Defined.

(** C9 at a server that answers the auth response with error 1045. *)
Lemma connect_ERR_witness :
  exists w',
    connect (codecs := Sample.codecs)
      (Sample.fresh [Sample.arrives Sample.handshake_5_7;
                     Sample.arrives Sample.err_denied])
    = (Throw (Error_ "denied"), w')
    /\ state (this w') = CLOSED
    /\ conn (this w') = Some 0%nat
    /\ ~ In 0%nat (open_rids w')
    /\ In (EvClose 0%nat) (trace w').
Proof.
  apply (@connect_ERR Sample.codecs
           (Sample.fresh [Sample.arrives Sample.handshake_5_7;
                          Sample.arrives Sample.err_denied])
           (packet_of Sample.handshake_5_7) (packet_of Sample.err_denied) []
           {| HandshakePacket.protocolVersion := 10;
              HandshakePacket.serverVersion := "5.7.30";
              HandshakePacket.connectionId := 0;
              HandshakePacket.authSeed := [];
              HandshakePacket.serverCapabilities := 63487;
              HandshakePacket.charset := 0 |}
           (list_byte_of_string "root" ++ [x00])
           {| code := 1045; message := "denied" |});
    try reflexivity.
  - vm_compute. discriminate.
  - left. reflexivity.
Defined.

(** C10 at the same server: the fields are recorded although [connect()]
    fails. *)
Lemma connect_records_version_witness :
  let out :=
    connect (codecs := Sample.codecs)
      (Sample.fresh [Sample.arrives Sample.handshake_5_7;
                     Sample.arrives Sample.err_denied]) in
  serverVersion (this (snd out)) = "5.7.30"
  /\ capabilities (this (snd out)) = 63487.
Proof.
  intros out.
  apply (@connect_records_version Sample.codecs
           (Sample.fresh [Sample.arrives Sample.handshake_5_7;
                          Sample.arrives Sample.err_denied])
           (packet_of Sample.handshake_5_7) [Sample.arrives Sample.err_denied]
           {| HandshakePacket.protocolVersion := 10;
              HandshakePacket.serverVersion := "5.7.30";
              HandshakePacket.connectionId := 0;
              HandshakePacket.authSeed := [];
              HandshakePacket.serverCapabilities := 63487;
              HandshakePacket.charset := 0 |}
           (list_byte_of_string "root" ++ [x00])
           eq_refl eq_refl ltac:(vm_compute; discriminate) eq_refl eq_refl eq_refl
           (fst out) (snd out)).
  vm_compute. reflexivity.
Defined.

(** ** Further statements, at scripted runs *)

(** X1 at a send that breaks. *)
Lemma execute_send_fails_witness :
  exists w',
    execute (codecs := Sample.codecs) "SELECT 1" None (Faulty.broken_pipe [])
    = (Throw (Thrown "Broken pipe"), w')
    /\ this w' = set_state CLOSED (this (Faulty.broken_pipe []))
    /\ ~ In 0%nat (open_rids w')
    /\ reads w' = reads (Faulty.broken_pipe [])
    /\ trace w'
       = trace (Faulty.broken_pipe [])
         ++ [EvSend 0%nat (x03 :: list_byte_of_string "SELECT 1") 0;
             EvInfo "close connection"; EvState CLOSING; EvClose 0%nat;
             EvState CLOSED].
Proof.
  apply (@execute_send_fails Sample.codecs "SELECT 1" None (Faulty.broken_pipe [])
           0%nat (x03 :: list_byte_of_string "SELECT 1") (Thrown "Broken pipe"));
    first [reflexivity | left; reflexivity].
Defined.

(** X2 at a server that answers the query with error 1045. *)
Lemma execute_server_error_witness :
  exists w',
    execute (codecs := Sample.codecs) "SELECT 1" None
      (Sample.world (Sample.connected "5.7.30") [Sample.arrives Sample.err_denied])
    = (Throw (Error_ "denied"), w')
    /\ this w' = Sample.connected "5.7.30"
    /\ open_rids w' = [0%nat]
    /\ reads w' = [].
Proof.
  apply (@execute_server_error Sample.codecs "SELECT 1" None
           (Sample.world (Sample.connected "5.7.30") [Sample.arrives Sample.err_denied])
           0%nat (x03 :: list_byte_of_string "SELECT 1")
           (packet_of Sample.err_denied) []
           {| code := 1045; message := "denied" |});
    reflexivity.
Defined.

(** X3 at a server that hangs up. *)
Lemma execute_peer_closed_witness :
  exists w',
    execute (codecs := Sample.codecs) "SELECT 1" None
      (Sample.world (Sample.connected "5.7.30") [Resolves None])
    = (Throw (ReadError "Connection closed unexpectedly"), w')
    /\ this w' = set_state CLOSED (Sample.connected "5.7.30")
    /\ ~ In 0%nat (open_rids w')
    /\ reads w' = [].
Proof.
  apply (@execute_peer_closed Sample.codecs "SELECT 1" None
           (Sample.world (Sample.connected "5.7.30") [Resolves None])
           0%nat (x03 :: list_byte_of_string "SELECT 1") []);
    first [reflexivity | left; reflexivity].
Defined.

(** X4 at a read that is reset, the socket open. *)
Lemma execute_read_fails_witness :
  exists w',
    execute (codecs := Sample.codecs) "SELECT 1" None
      (Sample.world (Sample.connected "5.7.30") [Rejects (Thrown "Connection reset")])
    = (Throw (Thrown "Connection reset"), w')
    /\ this w' = set_state CLOSED (Sample.connected "5.7.30")
    /\ ~ In 0%nat (open_rids w')
    /\ reads w' = [].
Proof.
  apply (@execute_read_fails Sample.codecs "SELECT 1" None
           (Sample.world (Sample.connected "5.7.30")
              [Rejects (Thrown "Connection reset")])
           0%nat (x03 :: list_byte_of_string "SELECT 1")
           (Thrown "Connection reset") []);
    first [reflexivity | left; reflexivity].
Defined.

(** X5 at a result set broken off by an ERR packet after its first row. *)
Lemma execute_error_among_rows_witness :
  exists w',
    execute (codecs := Sample.codecs) "SELECT a, b FROM t" None
      (Sample.world (Sample.connected "5.7.30")
         [Sample.arrives Sample.two_columns; Sample.arrives Sample.field_a;
          Sample.arrives Sample.field_b; Sample.arrives Sample.row_1;
          Sample.arrives Sample.err_denied; Sample.arrives Sample.eof])
    = (Throw (Error_ "denied"), w')
    /\ this w' = Sample.connected "5.7.30"
    /\ open_rids w' = [0%nat]
    /\ reads w' = [Sample.arrives Sample.eof].
Proof.
  apply (@execute_error_among_rows Sample.codecs "SELECT a, b FROM t" None
           (Sample.world (Sample.connected "5.7.30")
              [Sample.arrives Sample.two_columns; Sample.arrives Sample.field_a;
               Sample.arrives Sample.field_b; Sample.arrives Sample.row_1;
               Sample.arrives Sample.err_denied; Sample.arrives Sample.eof])
           0%nat (x03 :: list_byte_of_string "SELECT a, b FROM t")
           (packet_of Sample.two_columns) 2
           (BufferReader.skip 1 (BufferReader.of_bytes Sample.two_columns))
           [packet_of Sample.field_a; packet_of Sample.field_b] ["a"; "b"]
           []
           [packet_of Sample.row_1] [["1"; "x"]]
           (packet_of Sample.err_denied)
           {| code := 1045; message := "denied" |}
           [Sample.arrives Sample.eof]);
    try reflexivity; try (vm_compute; discriminate);
    repeat constructor; vm_compute; discriminate.
Defined.

(** X6 at a row cut short after its first cell. *)
Lemma execute_row_undecodable_witness :
  exists w',
    execute (codecs := Sample.codecs) "SELECT a, b FROM t" None
      (Sample.world (Sample.connected "5.7.30")
         [Sample.arrives Sample.two_columns; Sample.arrives Sample.field_a;
          Sample.arrives Sample.field_b; Sample.arrives Sample.row_1;
          Sample.arrives Faulty.short_row; Sample.arrives Sample.eof])
    = (Throw (Thrown "decode error"), w')
    /\ this w' = Sample.connected "5.7.30"
    /\ open_rids w' = [0%nat]
    /\ reads w' = [Sample.arrives Sample.eof].
Proof.
  apply (@execute_row_undecodable Sample.codecs "SELECT a, b FROM t" None
           (Sample.world (Sample.connected "5.7.30")
              [Sample.arrives Sample.two_columns; Sample.arrives Sample.field_a;
               Sample.arrives Sample.field_b; Sample.arrives Sample.row_1;
               Sample.arrives Faulty.short_row; Sample.arrives Sample.eof])
           0%nat (x03 :: list_byte_of_string "SELECT a, b FROM t")
           (packet_of Sample.two_columns) 2
           (BufferReader.skip 1 (BufferReader.of_bytes Sample.two_columns))
           [packet_of Sample.field_a; packet_of Sample.field_b] ["a"; "b"]
           []
           [packet_of Sample.row_1] [["1"; "x"]]
           (packet_of Faulty.short_row)
           (Thrown "decode error")
           [Sample.arrives Sample.eof]);
    try reflexivity; try (vm_compute; discriminate);
    repeat constructor; vm_compute; discriminate.
Defined.

(** X7 at a dial that is refused. *)
Lemma connect_dial_fails_witness :
  exists w',
    connect (codecs := Sample.codecs) (Faulty.refused [])
    = (Throw (Thrown "Connection refused"), w')
    /\ this w' = new_Connection Sample.cfg
    /\ open_rids w' = []
    /\ reads w' = []
    /\ state_writes (trace w') = [].
Proof.
  apply (@connect_dial_fails Sample.codecs (Faulty.refused [])
           (Thrown "Connection refused")).
  reflexivity.
Defined.

(** X8 at a server that accepts the auth response. *)
Lemma connect_succeeds_witness :
  exists w',
    connect (codecs := Sample.codecs)
      (Sample.fresh [Sample.arrives Sample.handshake_5_7;
                     Sample.arrives Sample.ok_1_42])
    = (Normal tt, w')
    /\ this w'
       = {| state := CONNECTED; capabilities := 63487; serverVersion := "5.7.30";
            conn := Some 0%nat; _timedOut := false; config := Sample.cfg |}
    /\ open_rids w' = [0%nat]
    /\ reads w' = []
    /\ state_writes (trace w') = [CONNECTING; CONNECTED]
    /\ sent_packets (trace w') = [(0%nat, list_byte_of_string "root" ++ [x00], 1)].
Proof.
  apply (@connect_succeeds Sample.codecs
           (Sample.fresh [Sample.arrives Sample.handshake_5_7;
                          Sample.arrives Sample.ok_1_42])
           (packet_of Sample.handshake_5_7) (packet_of Sample.ok_1_42) []
           {| HandshakePacket.protocolVersion := 10;
              HandshakePacket.serverVersion := "5.7.30";
              HandshakePacket.connectionId := 0;
              HandshakePacket.authSeed := [];
              HandshakePacket.serverCapabilities := 63487;
              HandshakePacket.charset := 0 |}
           (list_byte_of_string "root" ++ [x00])
           0 (BufferReader.skip 1 (BufferReader.of_bytes Sample.ok_1_42)));
    try reflexivity; vm_compute; discriminate.
Defined.

(** X9 at the same server, with the charset utf8 configured. *)
Lemma connect_sets_charset_witness :
  exists w',
    connect (codecs := Sample.codecs)
      (Faulty.fresh_utf8 [Sample.arrives Sample.handshake_5_7;
                          Sample.arrives Sample.ok_1_42;
                          Sample.arrives Sample.ok_1_42])
    = (Normal tt, w')
    /\ this w'
       = {| state := CONNECTED; capabilities := 63487; serverVersion := "5.7.30";
            conn := Some 0%nat; _timedOut := false; config := Faulty.cfg_utf8 |}
    /\ open_rids w' = [0%nat]
    /\ reads w' = []
    /\ sent_packets (trace w')
       = [(0%nat, list_byte_of_string "root" ++ [x00], 1);
          (0%nat, x03 :: list_byte_of_string "SET NAMES utf8", 0)].
Proof.
  apply (@connect_sets_charset Sample.codecs
           (Faulty.fresh_utf8 [Sample.arrives Sample.handshake_5_7;
                               Sample.arrives Sample.ok_1_42;
                               Sample.arrives Sample.ok_1_42])
           (packet_of Sample.handshake_5_7) (packet_of Sample.ok_1_42)
           (packet_of Sample.ok_1_42) []
           {| HandshakePacket.protocolVersion := 10;
              HandshakePacket.serverVersion := "5.7.30";
              HandshakePacket.connectionId := 0;
              HandshakePacket.authSeed := [];
              HandshakePacket.serverCapabilities := 63487;
              HandshakePacket.charset := 0 |}
           (list_byte_of_string "root" ++ [x00])
           0 (BufferReader.skip 1 (BufferReader.of_bytes Sample.ok_1_42))
           "utf8" (x03 :: list_byte_of_string "SET NAMES utf8") 1 42
           (BufferReader.skip 2 (BufferReader.of_bytes Sample.ok_1_42))
           (BufferReader.skip 3 (BufferReader.of_bytes Sample.ok_1_42)));
    try reflexivity; vm_compute; discriminate.
Defined.

(** X10 at a server that refuses the charset. *)
Lemma connect_charset_refused_witness :
  exists w',
    connect (codecs := Sample.codecs)
      (Faulty.fresh_utf8 [Sample.arrives Sample.handshake_5_7;
                          Sample.arrives Sample.ok_1_42;
                          Sample.arrives Sample.err_denied])
    = (Throw (Error_ "denied"), w')
    /\ this w'
       = {| state := CLOSED; capabilities := 63487; serverVersion := "5.7.30";
            conn := Some 0%nat; _timedOut := false; config := Faulty.cfg_utf8 |}
    /\ ~ In 0%nat (open_rids w')
    /\ state_writes (trace w') = [CONNECTING; CONNECTED; CLOSING; CLOSED].
Proof.
  apply (@connect_charset_refused Sample.codecs
           (Faulty.fresh_utf8 [Sample.arrives Sample.handshake_5_7;
                               Sample.arrives Sample.ok_1_42;
                               Sample.arrives Sample.err_denied])
           (packet_of Sample.handshake_5_7) (packet_of Sample.ok_1_42)
           (packet_of Sample.err_denied) []
           {| HandshakePacket.protocolVersion := 10;
              HandshakePacket.serverVersion := "5.7.30";
              HandshakePacket.connectionId := 0;
              HandshakePacket.authSeed := [];
              HandshakePacket.serverCapabilities := 63487;
              HandshakePacket.charset := 0 |}
           (list_byte_of_string "root" ++ [x00])
           0 (BufferReader.skip 1 (BufferReader.of_bytes Sample.ok_1_42))
           "utf8" (x03 :: list_byte_of_string "SET NAMES utf8")
           {| code := 1045; message := "denied" |});
    try reflexivity; vm_compute; discriminate.
Defined.

(** X11 at a query whose reply is cut short by the timer: the connection
    has been closed. *)
Lemma query_leaves_or_closes_witness :
  let w := Sample.world (Sample.connected "5.7.30")
             [Sample.arrives Sample.two_columns; TimerFires] in
  let out := query (codecs := Sample.codecs) "SELECT a, b FROM t" None w in
  leaves_or_closes w (fst out) (snd out).
Proof.
  intros w out.
  assert (O : socket_open w).
  { intros c Hc. vm_compute in Hc. inversion Hc. left. reflexivity. }
  assert (U : undisturbed (reads w)).
  { intros [H|[H|[]]]; discriminate. }
  apply (proj2 (@query_leaves_or_closes Sample.codecs "SELECT a, b FROM t" None w O U)
           (fst out) (snd out)).
  vm_compute. reflexivity.
Defined.

(** X12 at a server that refuses the login: the socket is released, and no
    socket is left open. *)
Lemma connect_no_leak_witness :
  let w := Sample.fresh [Sample.arrives Sample.handshake_5_7;
                         Sample.arrives Sample.err_denied] in
  let out := connect (codecs := Sample.codecs) w in
  released 0%nat (snd out)
  /\ (forall c, In c (open_rids (snd out)) ->
        In c (open_rids w) /\ conn (this w) <> Some c).
Proof.
  intros w out.
  destruct (@connect_no_leak Sample.codecs w (Throw (Error_ "denied")) (snd out))
    as [[D _]|R].
  - vm_compute. discriminate.
  - intros c Hc. vm_compute in Hc. discriminate.
  - intros [H|[H|[]]]; discriminate.
  - vm_compute. reflexivity.
  - vm_compute in D. discriminate.
  - exact R.
Defined.

(** X13 at a closed connection dialing a server that turns it away. *)
Lemma connect_CLOSED_leaks_witness :
  exists w',
    connect (codecs := Sample.codecs)
      (Sample.after_close [Sample.arrives Sample.err_denied])
    = (Throw (Error_ "denied"), w')
    /\ state (this w') = CLOSED
    /\ conn (this w') = Some 1%nat
    /\ In 1%nat (open_rids w')
    /\ state_writes (trace w') = [CLOSING; CLOSED].
Proof.
  apply (@connect_CLOSED_leaks Sample.codecs
           (Sample.after_close [Sample.arrives Sample.err_denied])
           (packet_of Sample.err_denied) []
           {| code := 1045; message := "denied" |});
    reflexivity.
Defined.

(** X14 at a result set of six packets, each read under a timer. *)
Lemma timers_settled_witness :
  let w := Sample.world (Sample.connected "5.7.30") Sample.select_reply in
  let out := perform (codecs := Sample.codecs) (Query "SELECT a, b FROM t" None) w in
  pending_timers (trace (snd out)) = pending_timers (trace w).
Proof.
  intros w out.
  apply (@timers_settled Sample.codecs (Query "SELECT a, b FROM t" None) w
           (fst out) (snd out));
    [reflexivity | vm_compute; reflexivity].
Defined.

(** X15 at a connection that had timed out before. *)
Lemma execute_stale_flag_witness :
  exists w',
    execute (codecs := Sample.codecs) "SELECT 1" None
      (Sample.world Faulty.reconnected [Rejects (Thrown "Connection reset")])
    = (Throw (ResponseTimeoutError "Connection read timed out"), w')
    /\ this w' = Faulty.reconnected
    /\ open_rids w' = [0%nat]
    /\ reads w' = []
    /\ pending_timers (trace w') = 0 + 1.
Proof.
  apply (@execute_stale_flag Sample.codecs "SELECT 1" None
           (Sample.world Faulty.reconnected [Rejects (Thrown "Connection reset")])
           0%nat (x03 :: list_byte_of_string "SELECT 1")
           (Thrown "Connection reset") []);
    reflexivity.
Defined.

(** X16 at a result set of six packets. *)
Lemma execute_sends_once_witness :
  let w := Sample.world (Sample.connected "5.7.30") Sample.select_reply in
  let out := execute (codecs := Sample.codecs) "SELECT a, b FROM t" None w in
  sent_packets (trace (snd out))
  = sent_packets (trace w)
    ++ [(0%nat, x03 :: list_byte_of_string "SELECT a, b FROM t", 0)].
Proof.
  intros w out.
  apply (@execute_sends_once Sample.codecs "SELECT a, b FROM t" None w 0%nat
           (x03 :: list_byte_of_string "SELECT a, b FROM t") (fst out) (snd out));
    [reflexivity | reflexivity | reflexivity | vm_compute; reflexivity].
Defined.

(** X17 at the empty statement, with a builder that refuses it. *)
Lemma execute_unbuildable_witness :
  execute (codecs := Faulty.codecs) EmptyString None
    (Sample.world (Sample.connected "5.7.30") [])
  = (Throw (Thrown "Query was empty"),
     Sample.world (Sample.connected "5.7.30") []).
Proof.
  apply (@execute_unbuildable Faulty.codecs EmptyString None
           (Sample.world (Sample.connected "5.7.30") [])
           (Thrown "Query was empty"));
    reflexivity.
Defined.

(** X18 at a query that times out: the state ends CLOSED. *)
Lemma CLOSING_is_transient_witness :
  let w := Sample.world (Sample.connected "5.7.30") [TimerFires] in
  let out := perform (codecs := Sample.codecs) (Execute "SELECT 1" None) w in
  state (this (snd out)) <> CLOSING.
Proof.
  intros w out.
  apply (@CLOSING_is_transient Sample.codecs (Execute "SELECT 1" None) w
           (fst out) (snd out)).
  - right. intros c Hc. vm_compute in Hc. inversion Hc. left. reflexivity.
  - intros [H|[]]; discriminate.
  - vm_compute. discriminate.
  - vm_compute. reflexivity.
Defined.

(** X19 at a reconnect after a timeout: [connect()] returns, the flag still
    up. *)
Lemma timedOut_is_sticky_witness :
  let w := Sample.world (set_state CLOSED Faulty.reconnected)
             [Sample.arrives Sample.handshake_5_7; Sample.arrives Sample.ok_1_42] in
  let out := perform (codecs := Sample.codecs) Connect w in
  fst out = Normal tt
  /\ config (this (snd out)) = config (this w)
  /\ _timedOut (this (snd out)) = true.
Proof.
  intros w out. split; [vm_compute; reflexivity|].
  destruct (@timedOut_is_sticky Sample.codecs Connect w (fst out) (snd out))
    as [A B].
  - vm_compute. reflexivity.
  - split; [exact A | apply B; reflexivity].
Defined.

(** X20 at a caller that closes the connection while the reply to a query
    is awaited. *)
Lemma execute_cancelled_witness :
  exists w',
    execute (codecs := Sample.codecs) "SELECT 1" None
      (Sample.world (Sample.connected "5.7.30") [CallerCloses])
    = (Throw BadResource, w')
    /\ this w' = set_state CLOSING (this (Sample.world (Sample.connected "5.7.30")
                                           [CallerCloses]))
    /\ ~ In 0%nat (open_rids w')
    /\ reads w' = []
    /\ state_writes (trace w')
       = state_writes (trace (Sample.world (Sample.connected "5.7.30")
                                [CallerCloses]))
         ++ [CLOSING; CLOSED; CLOSING].
Proof.
  apply (@execute_cancelled Sample.codecs "SELECT 1" None
           (Sample.world (Sample.connected "5.7.30") [CallerCloses])
           0%nat (x03 :: list_byte_of_string "SELECT 1") []);
    first [reflexivity | left; reflexivity].
Defined.

(** X21 at a query left without an answer. *)
Lemma timer_reported_witness :
  let w := Sample.world (Sample.connected "5.7.30") [TimerFires] in
  let out := perform (codecs := Sample.codecs) (Execute "SELECT 1" None) w in
  fst out = Throw (ResponseTimeoutError "Connection read timed out")
  /\ state (this (snd out)) = CLOSED
  /\ _timedOut (this (snd out)) = true
  /\ exists c, conn (this (snd out)) = Some c /\ ~ In c (open_rids (snd out)).
Proof.
  intros w out.
  apply (@timer_reported Sample.codecs (Execute "SELECT 1" None) w
           (fst out) (snd out)).
  - right. intros c Hc. vm_compute in Hc. inversion Hc. left. reflexivity.
  - vm_compute. reflexivity.
  - vm_compute. lia.
Defined.

(** X22 at a connection configured to wait five seconds. *)
Lemma reads_armed_witness :
  let w := Sample.world Faulty.connected_5s [Sample.arrives Sample.ok_1_42] in
  exists more,
    trace (snd (nextPacket (codecs := Sample.codecs) w))
    = trace w ++ EvSetTimeout 5000 :: EvRead 0%nat :: more.
Proof.
  intros w. apply (@reads_armed Sample.codecs w 0%nat). reflexivity.
Defined.

(** X23 at a [connect()] that goes through: the connection is CONNECTED on
    an open socket. *)
Lemma CONNECTED_holds_open_socket_witness :
  let w := Sample.fresh [Sample.arrives Sample.handshake_5_7;
                         Sample.arrives Sample.ok_1_42] in
  let out := perform (codecs := Sample.codecs) Connect w in
  state (this (snd out)) = CONNECTED /\ wired (snd out).
Proof.
  intros w out. split; [vm_compute; reflexivity|].
  apply (@CONNECTED_holds_open_socket Sample.codecs Connect w (fst out) (snd out)).
  - intros H. vm_compute in H. discriminate.
  - vm_compute. reflexivity.
Defined.
